(** * The history completion provider: virtual document and completion dispatcher

    A shallow embedding of [src/client/datascience/history/completionProvider.ts]:
    the [HistoryLine] and [HistoryDocument] classes (the virtual document that
    the language server sees) and the request/cancel handlers of
    [CompletionProvider], followed by the properties of the specification
    that were checked against them.

    Conventions.
    - A JavaScript number that holds an offset, a line or a column is a [Z].
    - A JavaScript string is a [string]; one [ascii] stands for one code
      unit, so the texts here are those of code units below 256.
    - A method that can throw returns an [outcome]; a method that also
      mutates [this] runs in the state-and-exception monad [M], which keeps
      the mutations made before the throw, as the object does. *)

From stdpp Require Import gmap strings list.
From Stdlib Require Import Ascii ZArith Lia.

Local Open Scope Z_scope.

(** ** Exceptions *)

Inductive Error : Type :=
  | IllegalArgument   (* thrown by the constructor of the host's Position *)
  | TypeError         (* a property read on undefined, a call of a non-function *)
  | NotImplemented    (* new Error('Method not implemented.') *)
  | RequestFailed.    (* a rejected promise of the language client *)

Inductive outcome (A : Type) : Type :=
  | Ok (a : A)
  | Throw (e : Error).
Arguments Ok {A} a.
Arguments Throw {A} e.

#[global] Instance outcome_ret : MRet outcome := fun A a => Ok a.
#[global] Instance outcome_bind : MBind outcome := fun A B k o =>
  match o with
  | Ok a => k a
  | Throw e => Throw e
  end.

Definition succeeded {A} (o : outcome A) : bool :=
  match o with Ok _ => true | Throw _ => false end.

(** ** JavaScript string primitives used by the document *)

Module Js.

Definition LF : ascii := Ascii.ascii_of_nat 10.
Definition CR : ascii := Ascii.ascii_of_nat 13.

(** The one-character string "\n". *)
Definition newline : string := String LF EmptyString.

(** [s.length] *)
Definition length (s : string) : Z := Z.of_nat (String.length s).

(** [s.replace(/\r/g, '')] *)
Fixpoint removeCR (s : string) : string :=
  match s with
  | EmptyString => EmptyString
  | String c s' => if Ascii.eqb c CR then removeCR s' else String c (removeCR s')
  end.

(** [s.substr(start, length)], [length = None] when the argument is omitted
    (ECMAScript B.2.3.1): a negative start counts from the end, the length
    is clamped to what is left of the string. *)
Definition substr (s : string) (start : Z) (len : option Z) : string :=
  let size := length s in
  let intStart := if start <? 0 then Z.max (size + start) 0 else start in
  let resultLength :=
    match len with
    | None => size - intStart
    | Some l => Z.min (Z.max l 0) (size - intStart)
    end in
  if resultLength <=? 0 then EmptyString
  else String.substring (Z.to_nat intStart) (Z.to_nat resultLength) s.

(** [s.slice(start, end)] *)
Definition slice (s : string) (start stop : Z) : string :=
  let size := length s in
  let from := if start <? 0 then Z.max (size + start) 0 else Z.min start size in
  let to := if stop <? 0 then Z.max (size + stop) 0 else Z.min stop size in
  let span := Z.max (to - from) 0 in
  String.substring (Z.to_nat from) (Z.to_nat span) s.

Fixpoint hasCR (s : string) : bool :=
  match s with
  | EmptyString => false
  | String c s' => Ascii.eqb c CR || hasCR s'
  end.

Fixpoint hasLF (s : string) : bool :=
  match s with
  | EmptyString => false
  | String c s' => Ascii.eqb c LF || hasLF s'
  end.

(** [s.match(/\n/g)]: the matches are the line feeds of [s]; [None] is the
    [null] that [match] returns when there is none. *)
Fixpoint countLF (s : string) : nat :=
  match s with
  | EmptyString => O
  | String c s' => if Ascii.eqb c LF then S (countLF s') else countLF s'
  end.

Definition matchLF (s : string) : option nat :=
  match countLF s with
  | O => None
  | n => Some n
  end.

(** The code unit that a character stands for. *)
Definition codeUnit (c : ascii) : N := N_of_ascii c.

(** The line terminators of the language: the line feed, the carriage
    return, the line separator U+2028 and the paragraph separator U+2029. *)
Definition isLineTerminator (c : ascii) : bool :=
  let unit := codeUnit c in
  (unit =? 0x000A)%N || (unit =? 0x000D)%N || (unit =? 0x2028)%N || (unit =? 0x2029)%N.

(** [.] matches any code unit but a line terminator. *)
Fixpoint hasLineTerminator (s : string) : bool :=
  match s with
  | EmptyString => false
  | String c s' => isLineTerminator c || hasLineTerminator s'
  end.

(** A line terminator that is not a line feed, somewhere in [s]. *)
Fixpoint hasOtherTerminator (s : string) : bool :=
  match s with
  | EmptyString => false
  | String c s' => (isLineTerminator c && negb (Ascii.eqb c LF)) || hasOtherTerminator s'
  end.

(** Whether [/(\n|^).*$/] matches at the current position, [rest] being the
    input from that position on and [atStart] telling whether the position
    is 0. There is no [m] flag: [^] holds at position 0 only and [$] at the
    end of the input only. So the first alternative needs a line feed here
    and no line terminator after it, the second needs position 0 and no
    line terminator at all; either way the match is [rest]. *)
Definition matchesHere (atStart : bool) (rest : string) : bool :=
  match rest with
  | String c rest' => Ascii.eqb c LF && negb (hasLineTerminator rest')
  | EmptyString => false
  end || (atStart && negb (hasLineTerminator rest)).

(** [s.match(/(\n|^).*$/g)[0]]: the leftmost match. *)
Fixpoint firstMatchFrom (atStart : bool) (rest : string) : option string :=
  if matchesHere atStart rest then Some rest
  else match rest with
       | EmptyString => None
       | String _ rest' => firstMatchFrom false rest'
       end.

Definition matchLastLine (s : string) : option string := firstMatchFrom true s.

End Js.

(** ** String.prototype.splitLines *)

(** Modelled from the spec: [splitLines] is an extension method declared in
    [common/extensions], which is not among the sources. With
    [{trim: false, removeEmptyEntries: false}] it is taken to return the
    line-break-delimited decomposition of the string that the specification
    describes: the pieces between consecutive line feeds, empty pieces
    kept, the empty string giving one empty piece. *)
Fixpoint splitLines (s : string) : list string :=
  match s with
  | EmptyString => [EmptyString]
  | String c s' =>
      if Ascii.eqb c Js.LF then EmptyString :: splitLines s'
      else match splitLines s' with
           | [] => [String c EmptyString]
           | piece :: pieces => String c piece :: pieces
           end
  end.

(** ** Positions and ranges of the host *)

Record Position : Type := { line : Z; character : Z }.

(** [new Position(line, character)]. The class is the editor host's; its
    constructor rejects a negative line and a negative character. *)
Definition newPosition (l c : Z) : outcome Position :=
  if l <? 0 then Throw IllegalArgument
  else if c <? 0 then Throw IllegalArgument
  else Ok {| line := l; character := c |}.

Record Range : Type := { range_start : Position; range_end : Position }.

(** ** HistoryLine *)

Record HistoryLine : Type := {
  text : string;        (* _contents *)
  lineNumber : Z;       (* _line *)
  offset : Z            (* _offset *)
}.

(** The two ranges are computed once by the constructor from [_contents]
    and [_line], which are never negative there. *)
Definition range (l : HistoryLine) : Range :=
  {| range_start := {| line := lineNumber l; character := 0 |};
     range_end := {| line := lineNumber l; character := Js.length (text l) |} |}.

Definition rangeIncludingLineBreak (l : HistoryLine) : Range :=
  {| range_start := range_start (range l);
     range_end := {| line := lineNumber l; character := Js.length (text l) + 1 |} |}.

(** ** The host's Uri *)

(** Of the host's [Uri] the document uses [Uri.file(path)], which makes the
    uri of a file from its path, and [toString()]. A uri is kept as the path
    it was made from; how the host writes it out is a parameter of the
    places that send it to the language server. *)
Module Uri.
Inductive t : Type := file (path : string).
End Uri.

(** ** HistoryDocument *)

Record HistoryDocument : Type := {
  _uri : Uri.t;
  _version : Z;
  _lines : list HistoryLine;
  _contents : string;
  _editOffset : Z;
  _firstEdit : bool
}.

(** [new HistoryDocument(fileName)] *)
Definition newDocument (fileName : string) : HistoryDocument :=
  {| _uri := Uri.file fileName;
     _version := 0;
     _lines := [];
     _contents := EmptyString;
     _editOffset := 0;
     _firstEdit := true |}.

Definition set_version (v : Z) (d : HistoryDocument) : HistoryDocument :=
  {| _uri := _uri d; _version := v; _lines := _lines d;
     _contents := _contents d; _editOffset := _editOffset d;
     _firstEdit := _firstEdit d |}.

Definition set_lines (ls : list HistoryLine) (d : HistoryDocument) : HistoryDocument :=
  {| _uri := _uri d; _version := _version d; _lines := ls;
     _contents := _contents d; _editOffset := _editOffset d;
     _firstEdit := _firstEdit d |}.

Definition set_contents (s : string) (d : HistoryDocument) : HistoryDocument :=
  {| _uri := _uri d; _version := _version d; _lines := _lines d;
     _contents := s; _editOffset := _editOffset d;
     _firstEdit := _firstEdit d |}.

Definition set_editOffset (o : Z) (d : HistoryDocument) : HistoryDocument :=
  {| _uri := _uri d; _version := _version d; _lines := _lines d;
     _contents := _contents d; _editOffset := o;
     _firstEdit := _firstEdit d |}.

Definition set_firstEdit (b : bool) (d : HistoryDocument) : HistoryDocument :=
  {| _uri := _uri d; _version := _version d; _lines := _lines d;
     _contents := _contents d; _editOffset := _editOffset d;
     _firstEdit := b |}.

(** [this._lines[i]] for a number [i]: [None] is [undefined]. *)
Definition lineAtIndex (ls : list HistoryLine) (i : Z) : option HistoryLine :=
  if i <? 0 then None else ls !! Z.to_nat i.

Definition version (d : HistoryDocument) : Z := _version d.
Definition lineCount (d : HistoryDocument) : Z := Z.of_nat (length (_lines d)).
Definition lineAt (d : HistoryDocument) (position : Position + Z) : option HistoryLine :=
  match position with
  | inr n => lineAtIndex (_lines d) n
  | inl p => lineAtIndex (_lines d) (line p)
  end.

(** [createTextLine(line, index, prevLine)] *)
Definition createTextLine (s : string) (index : Z) (prevLine : option HistoryLine)
  : HistoryLine :=
  {| text := s;
     lineNumber := index;
     offset := match prevLine with
               | Some p => offset p + character (range_end (rangeIncludingLineBreak p))
               | None => 0
               end |}.

(** The callback of [split.map] in [createLines]; [prevLine] is the variable
    that the callback reads and then overwrites, [i] the index it is given. *)
Fixpoint mapLines (split : list string) (i : Z) (prevLine : option HistoryLine)
  : list HistoryLine :=
  match split with
  | [] => []
  | s :: rest =>
      let nextLine := createTextLine s i prevLine in
      nextLine :: mapLines rest (i + 1) (Some nextLine)
  end.

(** [createLines()], as a function of [this._contents]. *)
Definition createLines (contents : string) : list HistoryLine :=
  mapLines (splitLines contents) 0 None.

(** The [while] loop of [computePosition], from the current value of
    [line]; it runs at most [fuel] iterations. *)
Fixpoint computeLine (fuel : nat) (ls : list HistoryLine) (o : Z) (ln : Z) : Z :=
  match fuel with
  | O => ln
  | S fuel' =>
      if ln + 1 <? Z.of_nat (length ls) then
        match lineAtIndex ls (ln + 1) with
        | Some l => if offset l <=? o then computeLine fuel' ls o (ln + 1) else ln
        | None => ln
        end
      else ln
  end.

(** The condition of that loop. *)
Definition loopCondition (ls : list HistoryLine) (o : Z) (ln : Z) : bool :=
  (ln + 1 <? Z.of_nat (length ls)) &&
  match lineAtIndex ls (ln + 1) with
  | Some l => offset l <=? o
  | None => false
  end.

(** [computePosition(offset)]. Each iteration increments [line] and keeps it
    below the number of lines, so that many iterations are enough
    ([computeLine_exits] below). *)
Definition computePosition (d : HistoryDocument) (o : Z) : outcome Position :=
  let ln := computeLine (length (_lines d)) (_lines d) o 0 in
  let ch :=
    if ln <? Z.of_nat (length (_lines d)) then
      match lineAtIndex (_lines d) ln with
      | Some l => o - offset l
      | None => 0
      end
    else 0 in
  newPosition ln ch.

(** [convertToOffset(pos)]. A negative [pos.line] passes the comparison and
    indexes [_lines] to [undefined], whose [offset] cannot be read. *)
Definition convertToOffset (d : HistoryDocument) (pos : Position) : outcome Z :=
  if line pos <? Z.of_nat (length (_lines d)) then
    match lineAtIndex (_lines d) (line pos) with
    | Some l => Ok (offset l + character pos)
    | None => Throw TypeError
    end
  else Ok (Js.length (_contents d)).

(** [createSerializableRange(start, end)] *)
Definition createSerializableRange (s e : Position) : Range :=
  {| range_start := {| line := line s; character := character s |};
     range_end := {| line := line e; character := character e |} |}.

(** [offsetAt(position)] *)
Definition offsetAt (d : HistoryDocument) (p : Position) : outcome Z :=
  Throw NotImplemented.

(** [positionAt(offset)] *)
Definition positionAt (d : HistoryDocument) (o : Z) : outcome Position :=
  let before := Js.slice (_contents d) 0 o in
  let newLines := Js.matchLF before in
  let ln := match newLines with Some n => Z.of_nat n | None => 0 end in
  let preCharacters := Js.matchLastLine before in
  newPosition ln (match preCharacters with Some m => Js.length m | None => 0 end).

(** [getText(range)] *)
Definition getText (d : HistoryDocument) (r : option Range) : outcome string :=
  match r with
  | None => Ok (_contents d)
  | Some r =>
      startOffset ← convertToOffset d (range_start r);
      endOffset ← convertToOffset d (range_end r);
      Ok (Js.substr (_contents d) startOffset (Some (endOffset - startOffset)))
  end.

(** [convertToDocumentPosition(line, ch)] *)
Definition convertToDocumentPosition (d : HistoryDocument) (ln ch : Z)
  : outcome Position :=
  editLine ← computePosition d (_editOffset d);
  let docLine := ln - 1 + line editLine in
  let docCh := ch - 1 in
  newPosition docLine docCh.

(** ** Methods that mutate the document *)

(** A method body: it starts from a state of [this] and ends with the state
    it left and either the returned value or the exception thrown. *)
Definition M (A : Type) : Type := HistoryDocument -> HistoryDocument * outcome A.

#[global] Instance M_ret : MRet M := fun A a d => (d, Ok a).
#[global] Instance M_bind : MBind M := fun A B k m d =>
  match m d with
  | (d', Ok a) => k a d'
  | (d', Throw e) => (d', Throw e)
  end.

(** Read [this]. *)
Definition this : M HistoryDocument := fun d => (d, Ok d).
(** Assign to a field of [this]. *)
Definition assign (f : HistoryDocument -> HistoryDocument) : M unit :=
  fun d => (f d, Ok tt).
(** Evaluate an expression that may throw. *)
Definition eval {A} (o : outcome A) : M A := fun d => (d, o).

(** The change record sent to the language server. *)
Record TextDocumentContentChangeEvent : Type := {
  change_range : Range;
  change_rangeOffset : Z;
  change_rangeLength : Z;
  change_text : string
}.

(** The editor's range, 1-based. *)
Record IRange : Type := {
  startLineNumber : Z;
  startColumn : Z;
  endLineNumber : Z;
  endColumn : Z
}.

(** The editor's change, [monacoEditor.editor.IModelContentChange]. *)
Record IModelContentChange : Type := {
  edit_range : IRange;
  edit_rangeOffset : Z;
  edit_rangeLength : Z;
  edit_text : string
}.

(** [addLines(code)] *)
Definition addLines (code : string) : M (list TextDocumentContentChangeEvent) :=
  d0 ← this;
  assign (set_version (_version d0 + 1));;
  let normalized := Js.removeCR code in
  d ← this;
  let newCode :=
    if Js.length (_contents d) =? 0 then normalized
    else Js.newline +:+ normalized in
  let fromOffset := if _firstEdit d then _editOffset d else _editOffset d - 1 in
  let before := Js.substr (_contents d) 0 (Some fromOffset) in
  let after := Js.substr (_contents d) fromOffset None in
  fromPosition ← eval (computePosition d fromOffset);
  assign (set_contents (before +:+ newCode +:+ after));;
  d1 ← this;
  assign (set_lines (createLines (_contents d1)));;
  assign (set_editOffset (_editOffset d + Js.length newCode));;
  mret [ {| change_range := createSerializableRange fromPosition fromPosition;
            change_rangeOffset := fromOffset;
            change_rangeLength := 0;
            change_text := newCode |} ].

(** The branch of [editLines] taken when [_firstEdit] is set. *)
Definition editLinesFirst (change : IModelContentChange) (normalized : string)
  : M (list TextDocumentContentChangeEvent) :=
  assign (set_firstEdit false);;
  d ← this;
  let fromOffset := _editOffset d in
  let newText := Js.newline +:+ normalized in
  assign (set_editOffset (_editOffset d + 1));;
  assign (set_contents (_contents d +:+ newText));;
  d1 ← this;
  assign (set_lines (createLines (_contents d1)));;
  d2 ← this;
  startPos ← eval (computePosition d2 fromOffset);
  endPos ← eval (computePosition d2 (fromOffset + Js.length newText));
  mret [ {| change_range := createSerializableRange startPos endPos;
            change_rangeOffset := fromOffset;
            change_rangeLength := edit_rangeLength change;
            change_text := newText |} ].

(** The other branch: the edit is relative to the edit offset. *)
Definition editLinesAtOffset (change : IModelContentChange) (normalized : string)
  : M (list TextDocumentContentChangeEvent) :=
  d ← this;
  editPos ← eval (computePosition d (_editOffset d));
  from ← eval (newPosition (line editPos + startLineNumber (edit_range change) - 1)
                           (startColumn (edit_range change) - 1));
  to ← eval (newPosition (line editPos + endLineNumber (edit_range change) - 1)
                         (endColumn (edit_range change) - 1));
  fromOffset ← eval (convertToOffset d from);
  toOffset ← eval (convertToOffset d to);
  let before := Js.substr (_contents d) 0 (Some fromOffset) in
  let after := Js.substr (_contents d) toOffset None in
  assign (set_contents (before +:+ normalized +:+ after));;
  d1 ← this;
  assign (set_lines (createLines (_contents d1)));;
  mret [ {| change_range := createSerializableRange from to;
            change_rangeOffset := fromOffset;
            change_rangeLength := toOffset - fromOffset;
            change_text := normalized |} ].

(** [editLines(editorChanges)]: only [editorChanges[0]] is read. *)
Definition editLines (editorChanges : list IModelContentChange)
  : M (list TextDocumentContentChangeEvent) :=
  d0 ← this;
  assign (set_version (_version d0 + 1));;
  match editorChanges with
  | change :: _ =>
      let normalized := Js.removeCR (edit_text change) in
      d ← this;
      if _firstEdit d then editLinesFirst change normalized
      else editLinesAtOffset change normalized
  | [] => mret []
  end.

(** A mutation requested of the document, and the document after a
    sequence of them. The object lives on when a call throws. *)
Inductive Mutation : Type :=
  | AddLines (code : string)
  | EditLines (editorChanges : list IModelContentChange).

Definition perform (m : Mutation) : M (list TextDocumentContentChangeEvent) :=
  match m with
  | AddLines code => addLines code
  | EditLines editorChanges => editLines editorChanges
  end.

Definition after (ms : list Mutation) (d : HistoryDocument) : HistoryDocument :=
  fold_left (fun d m => fst (perform m d)) ms d.

(** A mutation that changes the text: every append, and every edit with a
    change in its batch. *)
Definition isEffective (m : Mutation) : bool :=
  match m with
  | AddLines _ => true
  | EditLines [] => false
  | EditLines (_ :: _) => true
  end.

(** ** CompletionProvider: completion requests and their cancellation *)

Section CompletionProvider.

(** A completion item of the language server, passed on as it is. *)
Context {Item : Type}.

(** What the language server answers: the JSON value [null], an array of
    items, or an object. Of an object the two properties that the provider
    reads are kept, [None] for a property that is absent. *)
Inductive ServerResult : Type :=
  | ResultNull
  | ResultArray (array : list Item)
  | ResultObject (isIncomplete : option bool) (items : option (list Item)).

Record CompletionList : Type := {
  suggestions : list Item;
  incomplete : bool
}.

Definition emptyCompletionList : CompletionList :=
  {| suggestions := []; incomplete := true |}.

(** [result.hasOwnProperty('isIncomplete')] *)
Definition hasOwnIsIncomplete (result : ServerResult) : bool :=
  match result with
  | ResultObject (Some _) _ => true
  | _ => false
  end.

(** [convertToMonacoCompletionItem(item)] *)
Definition convertToMonacoCompletionItem (item : Item) : Item := item.

(** [convertToMonacoCompletionList(result)]. An object without [items], or
    one taken for an array, has no [map] to call. *)
Definition convertToMonacoCompletionList (result : ServerResult)
  : outcome CompletionList :=
  match result with
  | ResultNull => Ok emptyCompletionList
  | _ =>
      if hasOwnIsIncomplete result then
        match result with
        | ResultObject (Some b) (Some items) =>
            Ok {| suggestions := map convertToMonacoCompletionItem items;
                  incomplete := b |}
        | _ => Throw TypeError
        end
      else
        match result with
        | ResultArray array =>
            Ok {| suggestions := map convertToMonacoCompletionItem array;
                  incomplete := false |}
        | _ => Throw TypeError
        end
  end.

(** [new CancellationTokenSource()], then [cancel()] and [dispose()]. *)
Record CancellationTokenSource : Type := {
  isCancellationRequested : bool;
  isDisposed : bool
}.

Definition newSource : CancellationTokenSource :=
  {| isCancellationRequested := false; isDisposed := false |}.
Definition cancel (s : CancellationTokenSource) : CancellationTokenSource :=
  {| isCancellationRequested := true; isDisposed := isDisposed s |}.
Definition dispose (s : CancellationTokenSource) : CancellationTokenSource :=
  {| isCancellationRequested := isCancellationRequested s; isDisposed := true |}.

(** The payloads of the two messages; the completion context is opaque to
    the provider and left out. *)
Record MonacoPosition : Type := { pos_lineNumber : Z; pos_column : Z }.
Record IProvideCompletionItemsRequest : Type := {
  request_position : MonacoPosition;
  request_id : string
}.
Record ICancelCompletionItemsRequest : Type := { cancel_id : string }.

(** The payload of [ProvideCompletionItemsResponse]. *)
Record Response : Type := {
  response_list : CompletionList;
  response_id : string
}.

(** The value that reading a property of [cancellationSources] gives:
    [undefined], a source that a request stored, or a member that the
    object inherits, which is a function or an object of the host and has
    no method [cancel]. *)
Inductive Property : Type :=
  | Undefined
  | Source (cancelSource : nat)
  | Inherited.

(** The members of [Object.prototype], which every object literal
    inherits: reading any of them gives a function, reading [__proto__]
    gives the prototype. *)
Definition objectMembers : list string :=
  ["constructor"; "hasOwnProperty"; "isPrototypeOf"; "propertyIsEnumerable";
   "toLocaleString"; "toString"; "valueOf"; "__proto__";
   "__defineGetter__"; "__defineSetter__"; "__lookupGetter__"; "__lookupSetter__"].

(** The members of a [CancellationTokenSource], as the host declares the
    class. *)
Definition sourceMembers : list string := ["token"; "cancel"; "dispose"].

(** [cancellationSources]: an object literal used as a map from request
    ids to sources, a source being known by its index among the sources
    created. [entries] holds its own properties. Its prototype is
    [Object.prototype], written [None], until a source is assigned under
    the key [__proto__]: that assignment stores nothing and makes the
    source the prototype. *)
Record SourceTable : Type := {
  entries : gmap string nat;
  prototype : option nat
}.

(** [{}] *)
Definition emptyTable : SourceTable := {| entries := ∅; prototype := None |}.

(** [table[key]]: an own property first, then the prototype chain. *)
Definition getProperty (table : SourceTable) (key : string) : Property :=
  match entries table !! key with
  | Some cancelSource => Source cancelSource
  | None =>
      if bool_decide (key = "__proto__") then
        match prototype table with
        | Some cancelSource => Source cancelSource
        | None => Inherited
        end
      else if bool_decide (key ∈ objectMembers) then Inherited
      else match prototype table with
           | Some _ => if bool_decide (key ∈ sourceMembers) then Inherited else Undefined
           | None => Undefined
           end
  end.

(** [table[key] = cancelSource] *)
Definition setProperty (key : string) (cancelSource : nat) (table : SourceTable)
  : SourceTable :=
  if bool_decide (key = "__proto__") then
    {| entries := entries table; prototype := Some cancelSource |}
  else
    {| entries := <[key := cancelSource]> (entries table);
       prototype := prototype table |}.

(** The provider. The sources created so far are kept in [sources], a
    source being known by its index there, which is also how the call made
    with its token is named. [awaited] holds the calls of
    [provideCompletionItems] whose promise has not settled, [posted] what
    [postEmitter] has fired, oldest first. *)
Record Provider : Type := {
  document : option HistoryDocument;
  sources : list CancellationTokenSource;
  cancellationSources : SourceTable;
  awaited : list (nat * IProvideCompletionItemsRequest);
  posted : list Response
}.

Definition newProvider (doc : option HistoryDocument) : Provider :=
  {| document := doc; sources := []; cancellationSources := emptyTable;
     awaited := []; posted := [] |}.

(** What the awaited collaborators do during one call of
    [provideCompletionItems]: [getLanguageClient()] rejects or resolves to
    a client ([true]) or to none, [sendRequest] rejects or resolves to the
    server's result. *)
Record Settlement : Type := {
  languageClient : outcome bool;
  reply : outcome ServerResult
}.

(** [provideCompletionItems(position, context, token)], as the value its
    promise settles with. *)
Definition provideCompletionItems (p : Provider) (position : MonacoPosition)
    (env : Settlement) : outcome CompletionList :=
  client ← languageClient env;
  match client, document p with
  | true, Some doc =>
      docPos ← convertToDocumentPosition doc (pos_lineNumber position)
                                             (pos_column position);
      result ← reply env;
      convertToMonacoCompletionList result
  | _, _ => Ok emptyCompletionList
  end.

(** [postResponse(HistoryMessages.ProvideCompletionItemsResponse, payload)] *)
Definition postResponse (payload : Response) (p : Provider) : Provider :=
  {| document := document p; sources := sources p;
     cancellationSources := cancellationSources p;
     awaited := awaited p; posted := posted p ++ [payload] |}.

(** [handleCompletionItemsCancel(request)], with the provider it leaves
    and whether it returns or throws. What the id reads is cancelled and
    disposed when it is a source; an inherited member passes the test as
    well, and the call of its [cancel], which it has not, throws. *)
Definition handleCompletionItemsCancel (request : ICancelCompletionItemsRequest)
    (p : Provider) : Provider * outcome unit :=
  match getProperty (cancellationSources p) (cancel_id request) with
  | Source cancelSource =>
      ({| document := document p;
          sources := alter (fun s => dispose (cancel s)) cancelSource (sources p);
          cancellationSources := cancellationSources p;
          awaited := awaited p; posted := posted p |}, Ok ())
  | Inherited => (p, Throw TypeError)
  | Undefined => (p, Ok ())
  end.

(** [handleCompletionItemsRequest(request)], up to the point where the
    promise of [provideCompletionItems] is left to settle. *)
Definition handleCompletionItemsRequest (request : IProvideCompletionItemsRequest)
    (p : Provider) : Provider :=
  let cancelSource := length (sources p) in
  {| document := document p;
     sources := sources p ++ [newSource];
     cancellationSources :=
       setProperty (request_id request) cancelSource (cancellationSources p);
     awaited := awaited p ++ [(cancelSource, request)];
     posted := posted p |}.

(** The [then] and [catch] callbacks of [handleCompletionItemsRequest]. *)
Definition responseFor (request : IProvideCompletionItemsRequest)
    (settled : outcome CompletionList) : Response :=
  match settled with
  | Ok list => {| response_list := list; response_id := request_id request |}
  | Throw _ => {| response_list := emptyCompletionList;
                  response_id := request_id request |}
  end.

Definition madeWith (token : nat) (call : nat * IProvideCompletionItemsRequest) : bool :=
  bool_decide (call.1 = token).

(** The promise of the call made with [token] settles: the call is no
    longer awaited and one of the two callbacks runs. A promise settles
    once; there is nothing to do for a call that is not awaited. *)
Definition settle (token : nat) (env : Settlement) (p : Provider) : Provider :=
  match List.find (madeWith token) (awaited p) with
  | Some (_, request) =>
      postResponse
        (responseFor request (provideCompletionItems p (request_position request) env))
        {| document := document p; sources := sources p;
           cancellationSources := cancellationSources p;
           awaited := List.filter (fun call => negb (madeWith token call)) (awaited p);
           posted := posted p |}
  | None => p
  end.

(** What happens to the provider: the two messages of [onMessage] that
    concern completions, and the settling of an awaited promise. *)
Inductive Event : Type :=
  | CancelCompletionItemsRequest (request : ICancelCompletionItemsRequest)
  | ProvideCompletionItemsRequest (request : IProvideCompletionItemsRequest)
  | Settled (token : nat) (env : Settlement).

(** One event: the provider it leaves, and whether the handler returned or
    threw to the caller of [onMessage]. *)
Definition handle (p : Provider) (e : Event) : Provider * outcome unit :=
  match e with
  | CancelCompletionItemsRequest request => handleCompletionItemsCancel request p
  | ProvideCompletionItemsRequest request =>
      (handleCompletionItemsRequest request p, Ok ())
  | Settled token env => (settle token env p, Ok ())
  end.

(** The events one after the other: the provider lives on when a handler
    has thrown. *)
Definition run (es : list Event) (p : Provider) : Provider :=
  fold_left (fun p e => (handle p e).1) es p.


(** The server honours a cancellation: a call whose token is cancelled does
    not get a result. *)
Definition honoursCancellation (p : Provider) (token : nat) (env : Settlement) : Prop :=
  (∃ s, sources p !! token = Some s ∧ isCancellationRequested s = true) →
  succeeded (reply env) = false.

(** The calls awaited have distinct tokens, each the index of a source. *)
Definition wellFormed (p : Provider) : Prop :=
  NoDup (awaited p).*1 ∧ ∀ call, call ∈ awaited p → (call.1 < length (sources p))%nat.

End CompletionProvider.

Arguments ServerResult : clear implicits.
Arguments CompletionList : clear implicits.
Arguments Response : clear implicits.
Arguments Provider : clear implicits.
Arguments Settlement : clear implicits.
Arguments Event : clear implicits.
Arguments getProperty : simpl never.
Arguments setProperty : simpl never.

(** ** The properties that the specification states *)

(** [s] occurs in [t]. *)
Definition isSubstringOf (s t : string) : Prop :=
  ∃ a b, t = a +:+ s +:+ b.

(** Line 0 starts at offset 0. *)
Definition startsAtZero (ls : list HistoryLine) : Prop :=
  ∀ l, ls !! 0%nat = Some l → offset l = 0.

(** Each line but the last is followed, one separator later, by the next. *)
Definition consecutive (ls : list HistoryLine) : Prop :=
  ∀ (i : nat) l l',
    ls !! i = Some l → ls !! S i = Some l' →
    offset l + Js.length (text l) + 1 = offset l'.

(** Each line carries its own index. *)
Definition numbered (ls : list HistoryLine) : Prop :=
  ∀ (i : nat) l, ls !! i = Some l → lineNumber l = Z.of_nat i.

(** The texts of the lines are the pieces of [contents] between its line
    feeds: none holds a line feed, and joined by line feeds they give
    [contents] back. *)
Definition decomposes (ls : list HistoryLine) (contents : string) : Prop :=
  String.concat Js.newline (map text ls) = contents ∧
  Forall (fun l => Js.hasLF (text l) = false) ls.

(** The document has not been mutated yet, whatever its version. *)
Definition untouched (d : HistoryDocument) : Prop :=
  _lines d = [] ∧ _contents d = EmptyString ∧ _editOffset d = 0 ∧ _firstEdit d = true.

(** An offset into the text of the document. *)
Definition validOffset (d : HistoryDocument) (o : Z) : Prop :=
  0 ≤ o ≤ Js.length (_contents d).

(** Either the document was never mutated or its lines were built from its
    text. *)
Definition indexed (d : HistoryDocument) : Prop :=
  untouched d ∨ _lines d = createLines (_contents d).

(** Unfolding a method body down to the state it leaves. *)
Ltac run_method :=
  unfold perform, addLines, editLines, editLinesFirst, editLinesAtOffset,
    mbind, M_bind, mret, M_ret, this, assign, eval; simpl.

(** The editor's change that types [t] at line [ln], column [col]. *)
Definition typing (ln col : Z) (t : string) : IModelContentChange :=
  {| edit_range := {| startLineNumber := ln; startColumn := col;
                      endLineNumber := ln; endColumn := col |};
     edit_rangeOffset := 0;
     edit_rangeLength := 0;
     edit_text := t |}.

(** The request with id [id] for completions at line 1, column 1. *)
Definition requestAtStart (id : string) : IProvideCompletionItemsRequest :=
  {| request_position := {| pos_lineNumber := 1; pos_column := 1 |};
     request_id := id |}.

(** ** HistoryLine: indentation and blank lines *)

(** The white space and line terminators of the modelled alphabet: tab,
    line feed, vertical tab, form feed, carriage return, space and the
    no-break space. *)
Definition isWhiteSpace (c : ascii) : bool :=
  let n := nat_of_ascii c in
  ((9 <=? n)%nat && (n <=? 13)%nat) || (n =? 32)%nat || (n =? 160)%nat.

(** [s.trimLeft()] *)
Fixpoint trimLeft (s : string) : string :=
  match s with
  | EmptyString => EmptyString
  | String c s' => if isWhiteSpace c then trimLeft s' else s
  end.

(** What [trim] removes at the end. *)
Fixpoint trimRight (s : string) : string :=
  match s with
  | EmptyString => EmptyString
  | String c s' =>
      match trimRight s' with
      | EmptyString => if isWhiteSpace c then EmptyString else String c EmptyString
      | kept => String c kept
      end
  end.

(** [s.trim()] *)
Definition trim (s : string) : string := trimRight (trimLeft s).

(** The getter [firstNonWhitespaceCharacterIndex]; the value it caches
    depends on [_contents] only. *)
Definition firstNonWhitespaceCharacterIndex (l : HistoryLine) : Z :=
  Js.length (trimLeft (text l)) - Js.length (text l).

(** The getter [isEmptyOrWhitespace]. *)
Definition isEmptyOrWhitespace (l : HistoryLine) : bool :=
  (Js.length (text l) =? 0) || (Js.length (trim (text l)) =? 0).

(** ** CompletionProvider: appending and editing cells *)

Record IRemoteAddCode : Type := { remote_code : string; remote_file : string }.
Record IEditCell : Type := { cell_changes : list IModelContentChange }.

Record TextDocumentItem : Type := {
  item_uri : string;
  item_languageId : string;
  item_version : Z;
  item_text : string
}.

Record VersionedTextDocumentIdentifier : Type := {
  id_uri : string;
  id_version : Z
}.

(** What the provider sends to the language client. *)
Inductive Notification : Type :=
  | DidOpenTextDocument (textDocument : TextDocumentItem)
  | DidChangeTextDocument (textDocument : VersionedTextDocumentIdentifier)
                          (contentChanges : list TextDocumentContentChangeEvent).

(** The fields of the provider that [addCell] and [editCell] use. *)
Record CellSync : Type := {
  sync_document : option HistoryDocument;
  sentOpenDocument : bool
}.

Section Notifications.

(** The constant [PYTHON_LANGUAGE] of [common/constants]. *)
Variable PYTHON_LANGUAGE : string.

(** [uri.toString()]: the host's way of writing a uri out. *)
Variable toString : Uri.t → string.

Definition languageId (d : HistoryDocument) : string := PYTHON_LANGUAGE.

(** The getter [textDocumentItem]. *)
Definition textDocumentItem (d : HistoryDocument) : outcome TextDocumentItem :=
  t ← getText d None;
  Ok {| item_uri := toString (_uri d); item_languageId := languageId d;
        item_version := version d; item_text := t |}.

(** The getter [textDocumentId]. *)
Definition textDocumentId (d : HistoryDocument) : VersionedTextDocumentIdentifier :=
  {| id_uri := toString (_uri d); id_version := version d |}.

(** The end of [addCell] and of [editCell]: the update broadcast to the
    language server. [languageClient] tells whether the awaited client is
    there. *)
Definition broadcast (languageClient : bool)
    (changes : list TextDocumentContentChangeEvent) (s : CellSync)
  : CellSync * outcome (option Notification) :=
  match languageClient, sync_document s with
  | true, Some d =>
      if negb (sentOpenDocument s) then
        ({| sync_document := sync_document s; sentOpenDocument := true |},
         item ← textDocumentItem d; Ok (Some (DidOpenTextDocument item)))
      else
        (s, Ok (Some (DidChangeTextDocument (textDocumentId d) changes)))
  | _, _ => (s, Ok None)
  end.

(** [addCell(request)], from the point where [getLanguageClient] has
    resolved. *)
Definition addCell (languageClient : bool) (request : IRemoteAddCode) (s : CellSync)
  : CellSync * outcome (option Notification) :=
  match sync_document s with
  | Some d =>
      match addLines (remote_code request) d with
      | (d', Ok changes) =>
          broadcast languageClient changes
            {| sync_document := Some d'; sentOpenDocument := sentOpenDocument s |}
      | (d', Throw e) =>
          ({| sync_document := Some d'; sentOpenDocument := sentOpenDocument s |}, Throw e)
      end
  | None => broadcast languageClient [] s
  end.

(** [editCell(request)], from the same point. *)
Definition editCell (languageClient : bool) (request : IEditCell) (s : CellSync)
  : CellSync * outcome (option Notification) :=
  match sync_document s with
  | Some d =>
      match editLines (cell_changes request) d with
      | (d', Ok changes) =>
          broadcast languageClient changes
            {| sync_document := Some d'; sentOpenDocument := sentOpenDocument s |}
      | (d', Throw e) =>
          ({| sync_document := Some d'; sentOpenDocument := sentOpenDocument s |}, Throw e)
      end
  | None => broadcast languageClient [] s
  end.

(** The two messages of [onMessage] that mutate the document. *)
Inductive CellMessage : Type :=
  | RemoteAddCode (request : IRemoteAddCode)
  | EditCell (request : IEditCell).

Definition deliver (languageClient : bool) (m : CellMessage) (s : CellSync)
  : CellSync * outcome (option Notification) :=
  match m with
  | RemoteAddCode request => addCell languageClient request s
  | EditCell request => editCell languageClient request s
  end.

(** The notifications sent while the messages are handled one after the
    other, oldest first, and the provider at the end. *)
Fixpoint deliverAll (languageClient : bool) (ms : list CellMessage) (s : CellSync)
  : CellSync * list Notification :=
  match ms with
  | [] => (s, [])
  | m :: ms' =>
      let '(s', sent) := deliver languageClient m s in
      let '(s'', later) := deliverAll languageClient ms' s' in
      (s'', match sent with
            | Ok (Some n) => n :: later
            | _ => later
            end)
  end.

End Notifications.

(** ** Notions for the further properties *)

(** The line records of the pieces [split], the first with index [i] and
    start [off]: what [createLines] builds, without the detour through the
    previous record. *)
Fixpoint linesFrom (split : list string) (i off : Z) : list HistoryLine :=
  match split with
  | [] => []
  | s :: rest =>
      {| text := s; lineNumber := i; offset := off |}
      :: linesFrom rest (i + 1) (off + Js.length s + 1)
  end.

(** The code appended so far: the text of the document up to the edit
    cell, without the line feed that separates the two. *)
Definition executedText (d : HistoryDocument) : string :=
  Js.substr (_contents d) 0
    (Some (if _firstEdit d then _editOffset d else _editOffset d - 1)).

(** The text of the edit cell: the text of the document from the edit
    offset on. *)
Definition editCellText (d : HistoryDocument) : string :=
  Js.substr (_contents d) (_editOffset d) None.

(** The editor counts lines and columns from 1. *)
Definition oneBased (change : IModelContentChange) : Prop :=
  1 ≤ startLineNumber (edit_range change) ∧ 1 ≤ startColumn (edit_range change) ∧
  1 ≤ endLineNumber (edit_range change) ∧ 1 ≤ endColumn (edit_range change).

(** A mutation as the front end sends it: the change that an edit reads,
    the first of its batch, is one-based. *)
Definition fromEditor (m : Mutation) : Prop :=
  match m with
  | AddLines _ => True
  | EditLines [] => True
  | EditLines (change :: _) => oneBased change
  end.

(** A text as a document of its own. *)
Definition standalone (t : string) : HistoryDocument :=
  set_lines (createLines t) (set_contents t (newDocument EmptyString)).

(** Where the edit offset stands: at the end of the text before the first
    edit, right after a line feed from then on. *)
Definition placed (d : HistoryDocument) : Prop :=
  indexed d ∧
  if _firstEdit d then _editOffset d = Js.length (_contents d)
  else ∃ pre cell, _contents d = pre +:+ Js.newline +:+ cell ∧
                   _editOffset d = Js.length pre + 1.

(** A record with another index and start. *)
Definition shift (i off : Z) (l : HistoryLine) : HistoryLine :=
  {| text := text l; lineNumber := i + lineNumber l; offset := off + offset l |}.

(** The characters and separators of the pieces. *)
Fixpoint span (split : list string) : Z :=
  match split with
  | [] => 0
  | s :: rest => Js.length s + 1 + span rest
  end.

(** The fragment as [addLines] inserts it. *)
Definition appendedCode (d : HistoryDocument) (code : string) : string :=
  if Js.length (_contents d) =? 0 then Js.removeCR code
  else Js.newline +:+ Js.removeCR code.

(** How the host writes the uri of a file whose path has nothing to escape
    and no drive letter: the path, made absolute, after [file://]. It is
    the rendering of the concrete runs. *)
Definition fileUriString (uri : Uri.t) : string :=
  match uri with
  | Uri.file path =>
      match path with
      | String "/" _ => "file://" +:+ path
      | _ => "file:///" +:+ path
      end
  end.


(** The mutation that a message asks for. *)
Definition mutationOf (m : CellMessage) : Mutation :=
  match m with
  | RemoteAddCode request => AddLines (remote_code request)
  | EditCell request => EditLines (cell_changes request)
  end.

(** What a change record says: [rangeLength] characters from [rangeOffset]
    on are replaced by [text]. *)
Definition applyChange (t : string) (c : TextDocumentContentChangeEvent) : string :=
  Js.substr t 0 (Some (change_rangeOffset c)) +:+ change_text c +:+
  Js.substr t (change_rangeOffset c + change_rangeLength c) None.

(** The copy of the document that a receiver of the notifications keeps. *)
Record Mirror : Type := { mirror_text : string; mirror_version : Z }.

Definition receive (mirror : option Mirror) (n : Notification) : option Mirror :=
  match n with
  | DidOpenTextDocument item =>
      Some {| mirror_text := item_text item; mirror_version := item_version item |}
  | DidChangeTextDocument id changes =>
      match mirror with
      | Some m => Some {| mirror_text := fold_left applyChange changes (mirror_text m);
                          mirror_version := id_version id |}
      | None => None
      end
  end.

(** The replaced length that the editor reports is not negative. *)
Definition sizedChange (m : Mutation) : Prop :=
  match m with
  | EditLines (change :: _) => 0 ≤ edit_rangeLength change
  | _ => True
  end.

(** The edit offset is the end of the text until the first edit. *)
Definition appendsAtEnd (d : HistoryDocument) : Prop :=
  indexed d ∧ (_firstEdit d = true → _editOffset d = Js.length (_contents d)).

(** The version carried by a notification. *)
Definition notifiedVersion (n : Notification) : Z :=
  match n with
  | DidOpenTextDocument item => item_version item
  | DidChangeTextDocument id _ => id_version id
  end.

Definition isChange (n : Notification) : bool :=
  match n with
  | DidOpenTextDocument _ => false
  | DidChangeTextDocument _ _ => true
  end.

(** The versions of the notifications grow, from above [v]. *)
Fixpoint growingFrom (v : Z) (ns : list Notification) : Prop :=
  match ns with
  | [] => True
  | n :: ns' => v < notifiedVersion n ∧ growingFrom (notifiedVersion n) ns'
  end.

(** The white space that a text starts with, counted. *)
Fixpoint leadingWhiteSpace (s : string) : nat :=
  match s with
  | EmptyString => O
  | String c s' => if isWhiteSpace c then S (leadingWhiteSpace s') else O
  end.

Fixpoint allWhiteSpace (s : string) : bool :=
  match s with
  | EmptyString => true
  | String c s' => isWhiteSpace c && allWhiteSpace s'
  end.

(** The edit offset is never negative, and at least 1 once an edit was
    made. *)
Definition offsetInRange (d : HistoryDocument) : Prop :=
  indexed d ∧ 0 ≤ _editOffset d ∧
  (_firstEdit d = true → _editOffset d = Js.length (_contents d)) ∧
  (_firstEdit d = false → 1 ≤ _editOffset d).

Ltac from_editor := repeat constructor; unfold oneBased; simpl; lia.

(** Replacing the text between two offsets. *)
Definition splice (t : string) (from to : Z) (inserted : string) : string :=
  Js.substr t 0 (Some from) +:+ inserted +:+ Js.substr t to None.

(** What a change record says to a receiver that reads its range: the
    text between the two positions, converted in the document as it was,
    is replaced by the text of the record. *)
Definition spans (d : HistoryDocument) (c : TextDocumentContentChangeEvent)
    (result : string) : Prop :=
  ∃ from to,
    convertToOffset d (range_start (change_range c)) = Ok from ∧
    convertToOffset d (range_end (change_range c)) = Ok to ∧
    from = change_rangeOffset c ∧
    result = splice (_contents d) from to (change_text c).

(** The provider and the mirror agree. *)
Definition following (s : CellSync) (mirror : option Mirror) : Prop :=
  ∃ d, sync_document s = Some d ∧ appendsAtEnd d ∧
       if sentOpenDocument s
       then ∃ m, mirror = Some m ∧ mirror_text m = _contents d ∧
                 mirror_version m ≤ version d
       else mirror = None ∧ _firstEdit d = true.

(** Every entry of [cancellationSources] names a source that exists, and
    no two ids name the same source; a source that became the prototype
    exists as well and is the source of no entry. No entry is stored under
    [__proto__]. *)
Definition distinctSources {Item : Type} (p : Provider Item) : Prop :=
  (∀ id token, entries (cancellationSources p) !! id = Some token →
               (token < length (sources p))%nat) ∧
  (∀ id1 id2 token, entries (cancellationSources p) !! id1 = Some token →
                    entries (cancellationSources p) !! id2 = Some token → id1 = id2) ∧
  (∀ token, prototype (cancellationSources p) = Some token →
            (token < length (sources p))%nat ∧
            ∀ id, entries (cancellationSources p) !! id ≠ Some token) ∧
  entries (cancellationSources p) !! "__proto__" = None.

(** The call that is awaited with the token of an entry was made for the id
    of the entry. *)
Definition ownCalls {Item : Type} (p : Provider Item) : Prop :=
  ∀ id token request,
    entries (cancellationSources p) !! id = Some token →
    (token, request) ∈ awaited p → request_id request = id.

(** No request among the events carries the id [__proto__]. *)
Definition plainIds {Item : Type} (es : list (Event Item)) : Prop :=
  Forall (fun e => match e with
                   | ProvideCompletionItemsRequest request =>
                       request_id request ≠ "__proto__"
                   | _ => True
                   end) es.

(** ** Strings *)

Lemma length_nonneg s : 0 ≤ Js.length s.
Proof. unfold Js.length. lia. Qed.

Lemma String_length_append s t :
  String.length (s +:+ t) = (String.length s + String.length t)%nat.
Proof. induction s as [|c s IH]; simpl; [done | by rewrite IH]. Qed.

Lemma length_append s t : Js.length (s +:+ t) = Js.length s + Js.length t.
Proof. unfold Js.length. rewrite String_length_append. lia. Qed.

Lemma length_newline : Js.length Js.newline = 1.
Proof. reflexivity. Qed.

Lemma append_nil_l s : EmptyString +:+ s = s.
Proof. reflexivity. Qed.

Lemma append_cons c s t : String c s +:+ t = String c (s +:+ t).
Proof. reflexivity. Qed.

Lemma append_empty_r s : s +:+ EmptyString = s.
Proof. induction s as [|c s IH]; [done | by rewrite append_cons, IH]. Qed.

Lemma append_assoc s t u : (s +:+ t) +:+ u = s +:+ (t +:+ u).
Proof. induction s as [|c s IH]; [done | by rewrite !append_cons, IH]. Qed.

Lemma substring_prefix m s : ∃ b, s = String.substring 0 m s +:+ b.
Proof.
  revert m. induction s as [|c s IH]; intros m.
  - exists EmptyString. by destruct m.
  - destruct m as [|m]; simpl.
    + by exists (String c s).
    + destruct (IH m) as [b Hb]. exists b. by rewrite append_cons, <- Hb.
Qed.

Lemma substring_occurs n m s : isSubstringOf (String.substring n m s) s.
Proof.
  revert n. induction s as [|c s IH]; intros n.
  - exists EmptyString, EmptyString. by destruct n, m.
  - destruct n as [|n].
    + destruct (substring_prefix m (String c s)) as [b Hb].
      exists EmptyString, b. by rewrite append_nil_l.
    + destruct (IH n) as (a & b & Hab).
      exists (String c a), b. simpl. by rewrite append_cons, <- Hab.
Qed.

Lemma substr_occurs s start len : isSubstringOf (Js.substr s start len) s.
Proof.
  unfold Js.substr. case_match.
  - exists EmptyString, s. done.
  - apply substring_occurs.
Qed.

(** ** Splitting into lines *)

Lemma splitLines_nonempty s : splitLines s ≠ [].
Proof.
  destruct s as [|c s]; simpl; [done|].
  case_match; [done|]. by case_match.
Qed.

Lemma concat_cons sep x y l :
  String.concat sep (x :: y :: l) = x +:+ sep +:+ String.concat sep (y :: l).
Proof. reflexivity. Qed.

Lemma concat_splitLines s : String.concat Js.newline (splitLines s) = s.
Proof.
  induction s as [|c s IH]; [done|].
  simpl splitLines. destruct (Ascii.eqb c Js.LF) eqn:Hc.
  - apply Ascii.eqb_eq in Hc as ->.
    destruct (splitLines s) as [|p ps] eqn:Hs; [by apply splitLines_nonempty in Hs|].
    by rewrite concat_cons, IH.
  - destruct (splitLines s) as [|p ps] eqn:Hs; [by apply splitLines_nonempty in Hs|].
    destruct ps as [|q ps].
    + simpl in *. by rewrite IH.
    + rewrite concat_cons in *. by rewrite append_cons, IH.
Qed.

Lemma splitLines_no_LF s : Forall (fun piece => Js.hasLF piece = false) (splitLines s).
Proof.
  induction s as [|c s IH]; simpl.
  - by repeat constructor.
  - destruct (Ascii.eqb c Js.LF) eqn:Hc.
    + by constructor.
    + destruct (splitLines s) as [|p ps].
      * constructor; [|done]. simpl. by rewrite Hc.
      * inversion IH; subst. constructor; [|done]. simpl. by rewrite Hc.
Qed.

(** ** The line index built by [createLines] *)

Lemma mapLines_texts split i prev : map text (mapLines split i prev) = split.
Proof.
  revert i prev. induction split as [|s rest IH]; intros i prev; simpl; [done|].
  by rewrite IH.
Qed.

Lemma mapLines_length split i prev : length (mapLines split i prev) = length split.
Proof. by rewrite <- (mapLines_texts split i prev) at 2; rewrite length_map. Qed.

Lemma mapLines_first split i prev l :
  mapLines split i prev !! 0%nat = Some l →
  offset l = match prev with
             | Some p => offset p + Js.length (text p) + 1
             | None => 0
             end.
Proof.
  destruct split as [|s rest]; simpl; [done|].
  intros [= <-]. destruct prev; simpl; lia.
Qed.

Lemma mapLines_consecutive split i prev : consecutive (mapLines split i prev).
Proof.
  revert i prev. induction split as [|s rest IH]; intros i prev k l l'; simpl; [done|].
  destruct k as [|k]; simpl.
  - intros [= <-] Hnext. by rewrite (mapLines_first _ _ _ _ Hnext).
  - apply IH.
Qed.

Lemma mapLines_numbered split i prev (k : nat) l :
  mapLines split i prev !! k = Some l → lineNumber l = i + Z.of_nat k.
Proof.
  revert i prev k. induction split as [|s rest IH]; intros i prev k; simpl; [done|].
  destruct k as [|k]; simpl.
  - intros [= <-]. simpl. lia.
  - intros H. rewrite (IH _ _ _ H). lia.
Qed.

Lemma createLines_texts contents : map text (createLines contents) = splitLines contents.
Proof. apply mapLines_texts. Qed.

Lemma createLines_nonempty contents : createLines contents ≠ [].
Proof.
  intros H. apply (f_equal (map text)) in H. rewrite createLines_texts in H.
  by apply splitLines_nonempty in H.
Qed.

Lemma createLines_startsAtZero contents : startsAtZero (createLines contents).
Proof. intros l H. by rewrite (mapLines_first _ _ _ _ H). Qed.

Lemma createLines_consecutive contents : consecutive (createLines contents).
Proof. apply mapLines_consecutive. Qed.

Lemma createLines_numbered contents : numbered (createLines contents).
Proof. intros k l H. by rewrite (mapLines_numbered _ _ _ _ _ H). Qed.

Lemma createLines_decomposes contents : decomposes (createLines contents) contents.
Proof.
  split.
  - by rewrite createLines_texts, concat_splitLines.
  - apply Forall_forall. intros l Hl.
    pose proof (splitLines_no_LF contents) as Hall.
    rewrite <- createLines_texts in Hall.
    rewrite Forall_forall in Hall. apply Hall. by apply list_elem_of_fmap_2.
Qed.

(** ** What a mutation does to the text and to the line index *)

Lemma computePosition_untouched d : _lines d = [] → computePosition d 0 = Ok {| line := 0; character := 0 |}.
Proof. intros H. unfold computePosition. by rewrite H. Qed.

Lemma computePosition_lines d d' o : _lines d = _lines d' → computePosition d o = computePosition d' o.
Proof. intros H. unfold computePosition. by rewrite H. Qed.

(** A mutation leaves text and lines as they were, or rebuilds the lines
    from the new text. *)
Lemma perform_lines m d :
  let d' := (perform m d).1 in
  (_lines d' = _lines d ∧ _contents d' = _contents d ∧
   _editOffset d' = _editOffset d ∧ _firstEdit d' = _firstEdit d) ∨
  _lines d' = createLines (_contents d').
Proof.
  destruct m as [code | [|change changes]]; run_method.
  - destruct (computePosition _ _); simpl; auto.
  - auto.
  - destruct (_firstEdit d) eqn:Hfirst; simpl.
    + repeat (case_match; simpl; auto).
    + repeat (case_match; simpl; auto).
Qed.

Lemma perform_indexed m d : indexed d → indexed (perform m d).1.
Proof.
  intros Hd. destruct (perform_lines m d) as [(Hl & Hc & Ho & Hf) | Hbuilt].
  - destruct Hd as [(? & ? & ? & ?) | Hd]; [left | right].
    + unfold untouched. by rewrite Hl, Hc, Ho, Hf.
    + by rewrite Hl, Hc.
  - by right.
Qed.

Lemma perform_built m d :
  _lines d = createLines (_contents d) →
  _lines (perform m d).1 = createLines (_contents (perform m d).1).
Proof.
  intros Hd. destruct (perform_lines m d) as [(Hl & Hc & _) | Hbuilt]; [|done].
  by rewrite Hl, Hc.
Qed.

(** The first mutation that changes the text cannot fail before it has
    rebuilt the lines. *)
Lemma perform_effective m d :
  untouched d → isEffective m = true →
  _lines (perform m d).1 = createLines (_contents (perform m d).1).
Proof.
  intros (Hl & Hc & Ho & Hf) Hm.
  destruct m as [code | [|change changes]]; [| done |]; run_method.
  - rewrite Hf, Ho. unfold computePosition. simpl. rewrite Hl. done.
  - rewrite Hf. simpl. repeat (case_match; simpl; auto).
Qed.

Lemma after_cons m ms d : after (m :: ms) d = after ms (perform m d).1.
Proof. reflexivity. Qed.

Lemma after_indexed ms d : indexed d → indexed (after ms d).
Proof.
  revert d. induction ms as [|m ms IH]; intros d Hd; [done|].
  rewrite after_cons. by apply IH, perform_indexed.
Qed.

Lemma after_built ms d :
  _lines d = createLines (_contents d) →
  _lines (after ms d) = createLines (_contents (after ms d)).
Proof.
  revert d. induction ms as [|m ms IH]; intros d Hd; [done|].
  rewrite after_cons. by apply IH, perform_built.
Qed.

Lemma after_effective ms d :
  indexed d → existsb isEffective ms = true →
  _lines (after ms d) = createLines (_contents (after ms d)).
Proof.
  revert d. induction ms as [|m ms IH]; intros d Hd Hms; [done|].
  rewrite after_cons. simpl in Hms.
  destruct Hd as [Hd | Hd].
  - destruct (isEffective m) eqn:Hm.
    + by apply after_built, perform_effective.
    + apply IH; [|done]. apply perform_indexed. by left.
  - by apply after_built, perform_built.
Qed.

Lemma newDocument_untouched fileName : untouched (newDocument fileName).
Proof. done. Qed.

Lemma indexed_laws d :
  indexed d →
  startsAtZero (_lines d) ∧ consecutive (_lines d) ∧ numbered (_lines d) ∧
  decomposes (_lines d) (_contents d).
Proof.
  intros [(Hl & Hc & _) | Hd].
  - rewrite Hl, Hc. repeat split; done.
  - rewrite Hd. split; [apply createLines_startsAtZero|].
    split; [apply createLines_consecutive|].
    split; [apply createLines_numbered | apply createLines_decomposes].
Qed.

(** ** The line invariant *)

(** C5. After any sequence of appends and edits on a new document, line 0
    starts at offset 0, each line but the last is followed by the next one
    at its start plus the length of its text plus 1, each line carries its
    index, and the lines are the decomposition of the text at its line
    feeds: their texts hold no line feed and give the text back when joined
    by line feeds. As soon as one mutation changed the text, the line index
    is moreover the one that [createLines] builds from the text. *)
Theorem line_invariant (fileName : string) (ms : list Mutation) :
  let d := after ms (newDocument fileName) in
  startsAtZero (_lines d) ∧
  consecutive (_lines d) ∧
  numbered (_lines d) ∧
  decomposes (_lines d) (_contents d) ∧
  (existsb isEffective ms = true → _lines d = createLines (_contents d)).
Proof.
  intros d.
  assert (Hd : indexed d) by (apply after_indexed; left; apply newDocument_untouched).
  destruct (indexed_laws d Hd) as (H0 & H1 & H2 & H3).
  repeat split; try done; try apply H3.
  intros Hms. apply after_effective; [left; apply newDocument_untouched | done].
Qed.

(** ** No carriage return in the text *)

Lemma removeCR_no_CR s : Js.hasCR (Js.removeCR s) = false.
Proof.
  induction s as [|c s IH]; simpl; [done|].
  destruct (Ascii.eqb c Js.CR) eqn:Hc; [done|]. simpl. by rewrite Hc.
Qed.

Lemma append_no_CR s t :
  Js.hasCR (s +:+ t) = Js.hasCR s || Js.hasCR t.
Proof.
  induction s as [|c s IH]; [done|].
  rewrite append_cons. simpl. rewrite IH. by rewrite orb_assoc.
Qed.

Lemma substring_no_CR n m s :
  Js.hasCR s = false → Js.hasCR (String.substring n m s) = false.
Proof.
  revert n m. induction s as [|c s IH]; intros n m; simpl.
  - by destruct n, m.
  - intros Hs. apply orb_false_elim in Hs as [Hc Hs].
    destruct n as [|n]; [destruct m as [|m]|]; simpl; auto.
    rewrite Hc. simpl. by apply IH.
Qed.

Lemma substr_no_CR s start len :
  Js.hasCR s = false → Js.hasCR (Js.substr s start len) = false.
Proof. intros Hs. unfold Js.substr. case_match; [done | by apply substring_no_CR]. Qed.

Lemma perform_no_CR m d :
  Js.hasCR (_contents d) = false → Js.hasCR (_contents (perform m d).1) = false.
Proof.
  intros Hd.
  assert (Hsplice : ∀ t a b, Js.hasCR t = false →
            Js.hasCR (Js.substr (_contents d) 0 (Some a) +:+ t +:+
                      Js.substr (_contents d) b None) = false).
  { intros t a b Ht. by rewrite !append_no_CR, Ht, !substr_no_CR. }
  assert (Hsep : ∀ t, Js.hasCR (Js.newline +:+ Js.removeCR t) = false).
  { intros t. by rewrite append_no_CR, removeCR_no_CR. }
  destruct m as [code | [|change changes]]; run_method.
  - destruct (computePosition _ _); simpl; [|done].
    apply Hsplice. case_match; [apply removeCR_no_CR | apply Hsep].
  - done.
  - destruct (_firstEdit d); simpl.
    + assert (Js.hasCR (_contents d +:+ Js.newline +:+ Js.removeCR (edit_text change))
              = false) by (by rewrite append_no_CR, Hd, Hsep).
      repeat (case_match; simpl; auto).
    + repeat (case_match; simpl; auto using removeCR_no_CR).
Qed.

(** The text of the document never holds a carriage return, so its line
    breaks are its line feeds. *)
Lemma after_no_CR fileName ms :
  Js.hasCR (_contents (after ms (newDocument fileName))) = false.
Proof.
  assert (H : ∀ d, Js.hasCR (_contents d) = false →
                   Js.hasCR (_contents (after ms d)) = false).
  { induction ms as [|m ms IH]; intros d Hd; [done|].
    rewrite after_cons. by apply IH, perform_no_CR. }
  by apply H.
Qed.

(** ** Offsets and positions *)

Lemma lineAtIndex_nat ls (i : nat) : lineAtIndex ls (Z.of_nat i) = ls !! i.
Proof.
  unfold lineAtIndex. destruct (Z.ltb_spec (Z.of_nat i) 0); [lia|].
  by rewrite Nat2Z.id.
Qed.

Lemma lineAtIndex_Some ls i l :
  lineAtIndex ls i = Some l → 0 ≤ i < Z.of_nat (length ls) ∧ ls !! Z.to_nat i = Some l.
Proof.
  unfold lineAtIndex. destruct (Z.ltb_spec i 0) as [Hneg|Hpos]; [done|]. intros Hl.
  split; [|done]. apply lookup_lt_Some in Hl. lia.
Qed.

(** The loop stops on the line it started from or on a line that starts at
    or before the offset. *)
Lemma computeLine_stops fuel ls o ln :
  let r := computeLine fuel ls o ln in
  r = ln ∨ (ln < r ∧ ∃ l, lineAtIndex ls r = Some l ∧ offset l ≤ o).
Proof.
  revert ln. induction fuel as [|fuel IH]; intros ln; simpl; [by left|].
  destruct (Z.ltb_spec (ln + 1) (Z.of_nat (length ls))); [|by left].
  destruct (lineAtIndex ls (ln + 1)) as [l|] eqn:Hl; [|by left].
  destruct (Z.leb_spec (offset l) o); [|by left].
  right. destruct (IH (ln + 1)) as [-> | (Hlt & l' & Hl' & Ho)].
  - split; [lia|]. eauto.
  - split; [lia|]. eauto.
Qed.

(** With as many iterations as there are lines the loop has left through
    its condition, not for lack of fuel. *)
Lemma computeLine_exits fuel ls o ln :
  0 ≤ ln → (length ls ≤ fuel + Z.to_nat ln)%nat →
  loopCondition ls o (computeLine fuel ls o ln) = false.
Proof.
  revert ln. induction fuel as [|fuel IH]; intros ln Hln Hfuel; simpl.
  - unfold loopCondition. destruct (Z.ltb_spec (ln + 1) (Z.of_nat (length ls))); [lia|done].
  - unfold loopCondition at 1.
    destruct (Z.ltb_spec (ln + 1) (Z.of_nat (length ls))) as [Hlt|Hge].
    + destruct (lineAtIndex ls (ln + 1)) as [l|] eqn:Hl.
      * destruct (Z.leb_spec (offset l) o) as [Hle|Hgt].
        -- apply IH; lia.
        -- unfold loopCondition. rewrite Hl.
           destruct (Z.ltb_spec (ln + 1) (Z.of_nat (length ls))); [|done].
           simpl. by apply Z.leb_gt.
      * unfold loopCondition. rewrite Hl. by rewrite andb_false_r.
    + unfold loopCondition.
      destruct (Z.ltb_spec (ln + 1) (Z.of_nat (length ls))); [lia|done].
Qed.

Lemma loopCondition_computePosition d o :
  loopCondition (_lines d) o (computeLine (length (_lines d)) (_lines d) o 0) = false.
Proof. apply computeLine_exits; lia. Qed.

(** In a document whose first line starts at 0, every offset from 0 on has
    a position, and the position converts back to the offset. *)
Lemma computePosition_convertToOffset d o :
  startsAtZero (_lines d) → (_lines d = [] → _contents d = EmptyString) →
  validOffset d o →
  ∃ p, computePosition d o = Ok p ∧ convertToOffset d p = Ok o.
Proof.
  intros Hzero Hempty [Hlo Hhi]. unfold computePosition, convertToOffset.
  set (r := computeLine _ _ _ _).
  destruct (computeLine_stops (length (_lines d)) (_lines d) o 0)
    as [Hr | (Hlt & l & Hl & Ho)]; fold r in Hr || fold r in Hlt, Hl.
  - rewrite Hr. destruct (_lines d) as [|l0 ls] eqn:Hls.
    + simpl. rewrite (Hempty eq_refl) in Hhi. change (Js.length EmptyString) with 0 in Hhi.
      assert (o = 0) as -> by lia.
      eexists. split; [reflexivity|]. simpl. by rewrite Hempty.
    + change (lineAtIndex (l0 :: ls) 0) with (Some l0).
      assert (Hoff : offset l0 = 0) by (by apply Hzero).
      destruct (Z.ltb_spec 0 (Z.of_nat (length (l0 :: ls)))); [|simpl in *; lia].
      rewrite Hoff. unfold newPosition.
      destruct (Z.ltb_spec 0 0); [lia|].
      destruct (Z.ltb_spec (o - 0) 0); [lia|].
      eexists. split; [reflexivity|]. simpl.
      f_equal. lia.
  - destruct (lineAtIndex_Some _ _ _ Hl) as [Hrange _].
    destruct (Z.ltb_spec r (Z.of_nat (length (_lines d)))); [|lia].
    rewrite Hl. unfold newPosition.
    destruct (Z.ltb_spec r 0); [lia|].
    destruct (Z.ltb_spec (o - offset l) 0); [lia|].
    eexists. split; [reflexivity|]. simpl.
    destruct (Z.ltb_spec r (Z.of_nat (length (_lines d)))); [|lia].
    rewrite Hl. f_equal. lia.
Qed.

Lemma indexed_empty d : indexed d → _lines d = [] → _contents d = EmptyString.
Proof.
  intros [(_ & Hc & _) | Hd] Hl; [done|].
  rewrite Hd in Hl. by apply createLines_nonempty in Hl.
Qed.

Lemma indexed_convertible d o :
  indexed d → validOffset d o →
  ∃ p, computePosition d o = Ok p ∧ convertToOffset d p = Ok o.
Proof.
  intros Hd Ho. apply computePosition_convertToOffset; [| |done].
  - by apply indexed_laws.
  - by apply indexed_empty.
Qed.

Lemma consecutive_increasing ls (n i : nat) a b :
  consecutive ls → ls !! i = Some a → ls !! (i + S n)%nat = Some b →
  offset a + Js.length (text a) + 1 ≤ offset b.
Proof.
  intros Hcons Ha. revert b. induction n as [|n IH]; intros b Hb.
  - replace (i + 1)%nat with (S i) in Hb by lia. rewrite (Hcons i a b Ha Hb). lia.
  - destruct (ls !! (i + S n)%nat) as [c|] eqn:Hc.
    + specialize (IH c eq_refl).
      replace (i + S (S n))%nat with (S (i + S n)) in Hb by lia.
      pose proof (Hcons _ _ _ Hc Hb). pose proof (length_nonneg (text c)). lia.
    + apply lookup_ge_None in Hc. apply lookup_lt_Some in Hb. lia.
Qed.

(** The other direction: a position inside a line, or at its end, converts
    to an offset whose position is the one started from. *)
Lemma convertToOffset_computePosition d (k : nat) l ch :
  indexed d → _lines d !! k = Some l → 0 ≤ ch ≤ Js.length (text l) →
  let pos := {| line := Z.of_nat k; character := ch |} in
  convertToOffset d pos = Ok (offset l + ch) ∧
  computePosition d (offset l + ch) = Ok pos.
Proof.
  intros Hd Hl Hch pos.
  destruct (indexed_laws d Hd) as (Hzero & Hcons & _).
  pose proof (lookup_lt_Some _ _ _ Hl) as Hk.
  split.
  - unfold convertToOffset, pos. simpl.
    destruct (Z.ltb_spec (Z.of_nat k) (Z.of_nat (length (_lines d)))); [|lia].
    by rewrite lineAtIndex_nat, Hl.
  - unfold computePosition.
    pose proof (loopCondition_computePosition d (offset l + ch)) as Hexit.
    pose proof (computeLine_stops (length (_lines d)) (_lines d) (offset l + ch) 0) as Hstop.
    set (r := computeLine _ _ _ _) in *. simpl in Hstop.
    assert (Hr0 : 0 ≤ r) by (destruct Hstop as [-> | [? _]]; lia).
    assert (Hrk : r = Z.of_nat k).
    { destruct (Z.lt_trichotomy r (Z.of_nat k)) as [Hlt | [Heq | Hgt]]; [|done|].
      - exfalso. unfold loopCondition in Hexit.
        destruct (Z.ltb_spec (r + 1) (Z.of_nat (length (_lines d)))); [|lia].
        replace (r + 1) with (Z.of_nat (S (Z.to_nat r))) in Hexit by lia.
        rewrite lineAtIndex_nat in Hexit.
        destruct (_lines d !! S (Z.to_nat r)) as [b|] eqn:Hb.
        + simpl in Hexit. apply Z.leb_gt in Hexit.
          destruct (decide (S (Z.to_nat r) = k)) as [Heq | Hne].
          * rewrite Heq, Hl in Hb. injection Hb as ->. lia.
          * pose proof (consecutive_increasing (_lines d)
                          (k - S (S (Z.to_nat r))) (S (Z.to_nat r)) b l Hcons Hb) as Hinc.
            replace (S (Z.to_nat r) + S (k - S (S (Z.to_nat r))))%nat with k in Hinc by lia.
            specialize (Hinc Hl). pose proof (length_nonneg (text b)). lia.
        + apply lookup_ge_None in Hb. lia.
      - exfalso. destruct Hstop as [Hr | (Hpos & l' & Hl' & Ho)]; [lia|].
        apply lineAtIndex_Some in Hl' as [_ Hl'].
        pose proof (consecutive_increasing (_lines d)
                      (Z.to_nat r - S k) k l l' Hcons Hl) as Hinc.
        replace (k + S (Z.to_nat r - S k))%nat with (Z.to_nat r) in Hinc by lia.
        specialize (Hinc Hl'). lia. }
    rewrite Hrk.
    destruct (Z.ltb_spec (Z.of_nat k) (Z.of_nat (length (_lines d)))); [|lia].
    rewrite lineAtIndex_nat, Hl. unfold newPosition.
    destruct (Z.ltb_spec (Z.of_nat k) 0); [lia|].
    destruct (Z.ltb_spec (offset l + ch - offset l) 0); [lia|].
    unfold pos. do 2 f_equal. lia.
Qed.

(** C2, for the pair of conversions that the mutations use. After any
    sequence of appends and edits on a new document, [computePosition] and
    [convertToOffset] undo each other: for every offset [o] between 0 and
    the length of the text, [computePosition(o)] returns a position that
    [convertToOffset] takes back to [o]; and a position on a line of the
    document, up to the end of that line, converts to an offset whose
    position it is. The public [offsetAt], the other conversion from
    positions to offsets of the class, throws for every position. *)
Theorem computePosition_convertToOffset_inverse
    (fileName : string) (ms : list Mutation) :
  let d := after ms (newDocument fileName) in
  (∀ o, validOffset d o →
        ∃ p, computePosition d o = Ok p ∧ convertToOffset d p = Ok o) ∧
  (∀ (k : nat) l ch,
        _lines d !! k = Some l → 0 ≤ ch ≤ Js.length (text l) →
        let pos := {| line := Z.of_nat k; character := ch |} in
        convertToOffset d pos = Ok (offset l + ch) ∧
        computePosition d (offset l + ch) = Ok pos) ∧
  (∀ p, offsetAt d p = Throw NotImplemented).
Proof.
  intros d.
  assert (Hd : indexed d) by (apply after_indexed; left; apply newDocument_untouched).
  split; [intros; by apply indexed_convertible|].
  split; [intros; by apply convertToOffset_computePosition | done].
Qed.

(** ** The first mutation *)

Lemma createSerializableRange_eta s e :
  createSerializableRange s e = {| range_start := s; range_end := e |}.
Proof. by destruct s, e. Qed.

(** C1, as the code has it. On a new document the first range edit and the
    first append are two different operations. [editLines] puts a line feed
    in front of the typed text, moves [_editOffset] by 1, past that line
    feed only, clears [_firstEdit], and reports one change at offset 0 with
    the separator and the text, the replaced length being the one the
    editor gave. [addLines] makes the fragment the text with no separator,
    moves [_editOffset] by the length of the fragment, leaves [_firstEdit]
    set, and reports one insertion of the fragment at offset 0, position
    (0, 0), with replaced length 0. *)
Theorem first_edit_and_first_append
    (fileName : string) (change : IModelContentChange)
    (changes : list IModelContentChange) (code : string) :
  let d := newDocument fileName in
  let typed := Js.newline +:+ Js.removeCR (edit_text change) in
  let edited := editLines (change :: changes) d in
  let appended := addLines code d in
  (_contents edited.1 = typed ∧
   _editOffset edited.1 = 1 ∧
   _firstEdit edited.1 = false ∧
   ∃ r, edited.2 = Ok [ {| change_range := r;
                           change_rangeOffset := 0;
                           change_rangeLength := edit_rangeLength change;
                           change_text := typed |} ] ∧
        convertToOffset edited.1 (range_start r) = Ok 0 ∧
        convertToOffset edited.1 (range_end r) = Ok (Js.length typed)) ∧
  (_contents appended.1 = Js.removeCR code ∧
   _editOffset appended.1 = Js.length (Js.removeCR code) ∧
   _firstEdit appended.1 = true ∧
   appended.2 = Ok [ {| change_range :=
                          {| range_start := {| line := 0; character := 0 |};
                             range_end := {| line := 0; character := 0 |} |};
                        change_rangeOffset := 0;
                        change_rangeLength := 0;
                        change_text := Js.removeCR code |} ]).
Proof.
  intros d typed edited appended. split.
  - subst edited d. run_method.
    change (EmptyString +:+ Js.newline +:+ Js.removeCR (edit_text change)) with typed.
    fold typed.
    set (d2 := set_lines _ _).
    assert (Hd2 : indexed d2) by (by right).
    assert (Hc : _contents d2 = typed) by done.
    destruct (indexed_convertible d2 0 Hd2) as (p0 & -> & Hp0).
    { split; [lia | apply length_nonneg]. }
    destruct (indexed_convertible d2 (0 + Js.length typed) Hd2) as (p1 & -> & Hp1).
    { unfold validOffset. rewrite Hc. pose proof (length_nonneg typed). lia. }
    simpl. repeat split; try done.
    eexists. split; [reflexivity|]. rewrite createSerializableRange_eta. simpl.
    split; [done|]. by rewrite Hp1.
  - subst appended d. run_method.
    unfold Js.substr. simpl. rewrite append_empty_r. done.
Qed.

(** ** The first-edit flag *)

Lemma addLines_firstEdit code d : _firstEdit (addLines code d).1 = _firstEdit d.
Proof. run_method. by destruct (computePosition _ _). Qed.

Lemma editLines_firstEdit change changes d :
  _firstEdit (editLines (change :: changes) d).1 = false.
Proof.
  run_method. destruct (_firstEdit d) eqn:Hd; simpl.
  - repeat (case_match; simpl; auto).
  - repeat (case_match; simpl; auto).
Qed.

Lemma editLines_nil d : editLines [] d = (set_version (_version d + 1) d, Ok []).
Proof. reflexivity. Qed.

Lemma perform_firstEdit_cleared m d :
  _firstEdit d = false → _firstEdit (perform m d).1 = false.
Proof.
  intros Hd. destruct m as [code | [|change changes]].
  - unfold perform. by rewrite addLines_firstEdit.
  - unfold perform. by rewrite editLines_nil.
  - apply editLines_firstEdit.
Qed.

Lemma after_firstEdit_cleared ms d :
  _firstEdit d = false → _firstEdit (after ms d) = false.
Proof.
  revert d. induction ms as [|m ms IH]; intros d Hd; [done|].
  rewrite after_cons. by apply IH, perform_firstEdit_cleared.
Qed.

(** C3, as the code has it. [_firstEdit] belongs to [editLines]: an append
    never changes it, whatever the state of the document, so a first append
    leaves it set; an edit with a change in its batch clears it, an edit
    with an empty batch leaves it as it was; once cleared it stays cleared
    through every later append and edit, and an edit then takes the branch
    that is relative to the edit offset. *)
Theorem firstEdit_cleared_by_edit_only (d : HistoryDocument) :
  (∀ code, _firstEdit (addLines code d).1 = _firstEdit d) ∧
  (∀ change changes, _firstEdit (editLines (change :: changes) d).1 = false) ∧
  _firstEdit (editLines [] d).1 = _firstEdit d ∧
  (_firstEdit d = false →
   (∀ ms, _firstEdit (after ms d) = false) ∧
   (∀ change changes,
      editLines (change :: changes) d =
      editLinesAtOffset change (Js.removeCR (edit_text change))
        (set_version (_version d + 1) d))).
Proof.
  split; [intros; apply addLines_firstEdit|].
  split; [intros; apply editLines_firstEdit|].
  split; [done|].
  intros Hd. split; [intros; by apply after_firstEdit_cleared|].
  intros change changes. unfold editLines at 1.
  unfold mbind, M_bind, this, assign. simpl. by rewrite Hd.
Qed.

(** ** The version *)

Lemma perform_version m d : version (perform m d).1 = version d + 1.
Proof.
  unfold version. destruct m as [code | [|change changes]]; run_method.
  - by destruct (computePosition _ _).
  - done.
  - destruct (_firstEdit d); simpl; repeat (case_match; simpl; auto).
Qed.

Lemma after_version ms d : version (after ms d) = version d + Z.of_nat (length ms).
Proof.
  revert d. induction ms as [|m ms IH]; intros d; simpl length.
  - simpl. lia.
  - rewrite after_cons, IH, perform_version. lia.
Qed.

(** C4, as the code has it. The version of a new document is 0 and every
    call of [addLines] and of [editLines] adds exactly 1 to it, before
    anything else is looked at: also a call of [editLines] with an empty
    batch, which changes nothing else and returns no change, and a call
    that throws. After [n] calls on a new document the version is [n]. *)
Theorem version_counts_calls (fileName : string) :
  version (newDocument fileName) = 0 ∧
  (∀ m d, version (perform m d).1 = version d + 1) ∧
  (∀ d, editLines [] d = (set_version (_version d + 1) d, Ok [])) ∧
  (∀ ms, version (after ms (newDocument fileName)) = Z.of_nat (length ms)).
Proof.
  split; [done|]. split; [apply perform_version|]. split; [apply editLines_nil|].
  intros ms. by rewrite after_version.
Qed.

(** ** Appending after a first append *)

(** C6. On a new document, after a first append of "a" the text is "a";
    appending "b" then gives the text "a", line feed, "b", and returns one
    change record: an insertion, of replaced length 0, at offset 1 and
    position (0, 1), right after "a", of the text line feed, "b". *)
Theorem append_b_after_a (fileName : string) :
  let d := (addLines "a" (newDocument fileName)).1 in
  _contents d = "a" ∧
  _contents (addLines "b" d).1 = "a" +:+ Js.newline +:+ "b" ∧
  (addLines "b" d).2 =
    Ok [ {| change_range :=
              {| range_start := {| line := 0; character := 1 |};
                 range_end := {| line := 0; character := 1 |} |};
            change_rangeOffset := 1;
            change_rangeLength := 0;
            change_text := Js.newline +:+ "b" |} ].
Proof. repeat split. Qed.

(** ** Reading text by range *)

Lemma convertToOffset_beyond d pos :
  lineCount d ≤ line pos → convertToOffset d pos = Ok (Js.length (_contents d)).
Proof.
  unfold lineCount, convertToOffset. intros Hpos.
  by destruct (Z.ltb_spec (line pos) (Z.of_nat (length (_lines d)))); [lia|].
Qed.

Lemma convertToOffset_total d pos :
  0 ≤ line pos → ∃ o, convertToOffset d pos = Ok o.
Proof.
  intros Hpos. unfold convertToOffset, lineAtIndex.
  destruct (Z.ltb_spec (line pos) (Z.of_nat (length (_lines d)))) as [Hlt|Hge]; [|eauto].
  destruct (Z.ltb_spec (line pos) 0); [lia|].
  destruct (_lines d !! Z.to_nat (line pos)) as [l|] eqn:Hl; [eauto|].
  apply lookup_ge_None in Hl. lia.
Qed.

(** C10. [convertToOffset] does not fail on a position of the host, whose
    line is not negative, and it clamps: for every position whose line is
    the number of lines or more, the offset is the length of the text. So
    [getText] returns a piece of the text for every range of such
    positions, however far beyond the end, and the whole text for no
    range. This holds in every state of the document. *)
Theorem convertToOffset_clamps (d : HistoryDocument) :
  (∀ pos, lineCount d ≤ line pos →
          convertToOffset d pos = Ok (Js.length (_contents d))) ∧
  (∀ pos, 0 ≤ line pos → ∃ o, convertToOffset d pos = Ok o) ∧
  getText d None = Ok (_contents d) ∧
  (∀ r, 0 ≤ line (range_start r) → 0 ≤ line (range_end r) →
        ∃ s, getText d (Some r) = Ok s ∧ isSubstringOf s (_contents d)).
Proof.
  split; [apply convertToOffset_beyond|].
  split; [apply convertToOffset_total|].
  split; [done|].
  intros r Hs He. unfold getText.
  destruct (convertToOffset_total d (range_start r) Hs) as [so ->].
  destruct (convertToOffset_total d (range_end r) He) as [eo ->].
  simpl. eexists. split; [reflexivity | apply substr_occurs].
Qed.

(** ** Concrete runs *)

(** C1 fails as it is stated: on a new document, typing "ab" as the first
    edit and appending "ab" do not leave the same text, nor the same edit
    offset, nor the same flag. *)
Lemma first_edit_is_not_an_append :
  let d := newDocument "history.py" in
  let edited := (editLines [typing 1 1 "ab"] d).1 in
  let appended := (addLines "ab" d).1 in
  _contents edited = Js.newline +:+ "ab" ∧ _contents appended = "ab" ∧
  _editOffset edited = 1 ∧ _editOffset appended = 2 ∧
  _firstEdit edited = false ∧ _firstEdit appended = true ∧
  _contents edited ≠ _contents appended ∧
  _editOffset edited - _editOffset d ≠ _editOffset appended - _editOffset d.
Proof. repeat split; discriminate. Qed.

(** C2 fails for the public conversions: in the document made of the
    fragments "a" and "b", whose text is "a", line feed, "b", offset 3 is
    valid; [positionAt] sends it to (1, 2), [offsetAt] throws on that
    position, and [convertToOffset] takes it to 4. *)
Lemma public_conversions_not_inverse :
  let d := after [AddLines "a"; AddLines "b"] (newDocument "history.py") in
  validOffset d 3 ∧
  positionAt d 3 = Ok {| line := 1; character := 2 |} ∧
  offsetAt d {| line := 1; character := 2 |} = Throw NotImplemented ∧
  convertToOffset d {| line := 1; character := 2 |} = Ok 4 ∧
  ¬ (∃ p, positionAt d 3 = Ok p ∧ offsetAt d p = Ok 3) ∧
  ¬ (∃ p, positionAt d 3 = Ok p ∧ convertToOffset d p = Ok 3).
Proof.
  repeat split; try discriminate.
  - intros (p & _ & H). discriminate H.
  - intros (p & Hp & H). vm_compute in Hp. injection Hp as <-. discriminate H.
Qed.

Lemma computePosition_convertToOffset_inverse_witness :
  let d := after [AddLines "a"; AddLines "b"] (newDocument "history.py") in
  validOffset d 3 ∧
  ∃ p, computePosition d 3 = Ok p ∧ convertToOffset d p = Ok 3.
Proof.
  assert (H : validOffset
                (after [AddLines "a"; AddLines "b"] (newDocument "history.py")) 3).
  { split; discriminate. }
  split; [exact H|].
  exact (proj1 (computePosition_convertToOffset_inverse
                  "history.py" [AddLines "a"; AddLines "b"]) 3 H).
Defined.

(** C3 fails as it is stated: after a first append the flag is still set,
    and the edit that follows takes the first-edit branch, which appends a
    line feed and the typed text at the end. *)
Lemma append_keeps_firstEdit :
  let d := (addLines "a" (newDocument "history.py")).1 in
  _firstEdit d = true ∧
  editLines [typing 1 1 "x"] d =
    editLinesFirst (typing 1 1 "x") "x" (set_version (_version d + 1) d) ∧
  _contents (editLines [typing 1 1 "x"] d).1 = "a" +:+ Js.newline +:+ "x".
Proof. repeat split. Qed.

Lemma firstEdit_cleared_by_edit_only_witness :
  let d := (editLines [typing 1 1 "x"] (newDocument "history.py")).1 in
  _firstEdit d = false ∧
  _firstEdit (after [AddLines "a"; EditLines [typing 1 2 "y"]] d) = false.
Proof.
  split; [reflexivity|].
  exact (proj1 (proj2 (proj2 (proj2
           (firstEdit_cleared_by_edit_only
              (editLines [typing 1 1 "x"] (newDocument "history.py")).1)))
           eq_refl)
           [AddLines "a"; EditLines [typing 1 2 "y"]]).
Defined.

(** C4 fails as it is stated: an edit with an empty batch changes nothing
    and returns no change, and the version has moved from 0 to 1. *)
Lemma empty_edit_increments_version :
  let d := newDocument "history.py" in
  version d = 0 ∧
  (editLines [] d).2 = Ok [] ∧
  _contents (editLines [] d).1 = _contents d ∧
  _lines (editLines [] d).1 = _lines d ∧
  version (editLines [] d).1 = 1.
Proof. repeat split. Qed.

(** An edit at column 0 asks the host for a position of character -1 and
    fails there; the version has been incremented before. *)
Example failed_edit_increments_version :
  let d := (editLines [typing 1 1 "x"] (newDocument "history.py")).1 in
  (editLines [typing 1 0 "y"] d).2 = Throw IllegalArgument ∧
  _contents (editLines [typing 1 0 "y"] d).1 = _contents d ∧
  version (editLines [typing 1 0 "y"] d).1 = version d + 1.
Proof. repeat split. Qed.

Lemma line_invariant_witness :
  let d := after [AddLines "a"; EditLines [typing 1 1 "xy"]]
                 (newDocument "history.py") in
  _lines d = createLines (_contents d).
Proof.
  exact (proj2 (proj2 (proj2 (proj2
           (line_invariant "history.py" [AddLines "a"; EditLines [typing 1 1 "xy"]]))))
           eq_refl).
Defined.

Lemma convertToOffset_clamps_witness :
  let d := after [AddLines "a"; AddLines "b"] (newDocument "history.py") in
  let beyond := {| range_start := {| line := 5; character := 0 |};
                   range_end := {| line := 7; character := 3 |} |} in
  lineCount d ≤ 5 ∧
  convertToOffset d (range_start beyond) = Ok 3 ∧
  ∃ s, getText d (Some beyond) = Ok s ∧ isSubstringOf s (_contents d).
Proof.
  assert (H5 : lineCount (after [AddLines "a"; AddLines "b"] (newDocument "history.py"))
               ≤ 5) by discriminate.
  split; [exact H5|].
  split.
  - exact (proj1 (convertToOffset_clamps
             (after [AddLines "a"; AddLines "b"] (newDocument "history.py")))
             {| line := 5; character := 0 |} H5).
  - apply (proj2 (proj2 (proj2 (convertToOffset_clamps
             (after [AddLines "a"; AddLines "b"] (newDocument "history.py")))))).
    + discriminate.
    + discriminate.
Defined.

(** A negative line is not a position of the host; the conversion reads
    [offset] of [undefined] there. *)
Example convertToOffset_negative_line :
  convertToOffset (after [AddLines "a"] (newDocument "history.py"))
    {| line := -1; character := 0 |} = Throw TypeError.
Proof. reflexivity. Qed.

(** ** Normalizing the server's result *)

(** C9. An array of items becomes the list of the same items, complete; an
    object with [isIncomplete] and [items] becomes the list of its items
    with its flag; [null] becomes the empty incomplete list. Whenever a
    result other than [null] is converted, it is the presence of
    [isIncomplete] that tells which of the two it was, and the items come
    out as they went in. *)
Theorem convertToMonacoCompletionList_normalizes {Item : Type} :
  (∀ array : list Item,
     convertToMonacoCompletionList (ResultArray array) =
     Ok {| suggestions := array; incomplete := false |}) ∧
  (∀ (b : bool) (items : list Item),
     convertToMonacoCompletionList (ResultObject (Some b) (Some items)) =
     Ok {| suggestions := items; incomplete := b |}) ∧
  convertToMonacoCompletionList (@ResultNull Item) = Ok emptyCompletionList ∧
  (∀ (result : ServerResult Item) list,
     result ≠ ResultNull →
     convertToMonacoCompletionList result = Ok list →
     if hasOwnIsIncomplete result
     then ∃ b, result = ResultObject (Some b) (Some (suggestions list)) ∧
               incomplete list = b
     else result = ResultArray (suggestions list) ∧ incomplete list = false).
Proof.
  unfold convertToMonacoCompletionList, convertToMonacoCompletionItem.
  split; [intros; simpl; by rewrite map_id|].
  split; [intros; simpl; by rewrite map_id|].
  split; [done|].
  intros [|array|[b|] [items|]] list Hnull; simpl; try done.
  - intros [= <-]. simpl. by rewrite map_id.
  - intros [= <-]. simpl. rewrite map_id. eauto.
Qed.

Lemma convertToMonacoCompletionList_normalizes_witness :
  let wrapper : ServerResult string := ResultObject (Some true) (Some ["A"]) in
  wrapper ≠ ResultNull ∧
  ∃ b, wrapper = ResultObject (Some b) (Some ["A"]) ∧ true = b.
Proof.
  assert (Hnull : ResultObject (Some true) (Some ["A"]) ≠ @ResultNull string)
    by discriminate.
  split; [exact Hnull|].
  exact (proj2 (proj2 (proj2 convertToMonacoCompletionList_normalizes))
           (ResultObject (Some true) (Some ["A"]))
           {| suggestions := ["A"]; incomplete := true |} Hnull eq_refl).
Defined.

(** ** The dispatcher *)

Section Dispatcher.
Context {Item : Type}.
Implicit Types (p : Provider Item) (e : Event Item) (env : Settlement Item).
Implicit Types (request : IProvideCompletionItemsRequest).


Lemma find_madeWith_None token (calls : list (nat * IProvideCompletionItemsRequest)) :
  List.find (madeWith token) calls = None → token ∉ calls.*1.
Proof.
  induction calls as [|c calls IH]; simpl; [intros _; apply not_elem_of_nil|].
  unfold madeWith at 1. case_bool_decide as Hc; [done|].
  intros H. apply not_elem_of_cons. split; [congruence | by apply IH].
Qed.

Lemma find_madeWith_elem token request
    (calls : list (nat * IProvideCompletionItemsRequest)) :
  NoDup calls.*1 → (token, request) ∈ calls →
  List.find (madeWith token) calls = Some (token, request).
Proof.
  induction calls as [|c calls IH]; simpl; intros Hnd Hin.
  - by apply elem_of_nil in Hin.
  - apply NoDup_cons in Hnd as [Hc Hnd]. unfold madeWith at 1.
    apply elem_of_cons in Hin as [<- | Hin].
    + by rewrite bool_decide_eq_true_2.
    + case_bool_decide as Hct; [|by apply IH].
      exfalso. apply Hc. rewrite Hct.
      apply (list_elem_of_fmap_2 fst) in Hin. done.
Qed.




(** What a cancellation leaves as it was. *)
Lemma cancel_frame p (request : ICancelCompletionItemsRequest) :
  let cancelled := (handleCompletionItemsCancel request p).1 in
  posted cancelled = posted p ∧ awaited cancelled = awaited p ∧
  cancellationSources cancelled = cancellationSources p ∧
  document cancelled = document p ∧
  length (sources cancelled) = length (sources p).
Proof.
  unfold handleCompletionItemsCancel.
  destruct (getProperty _ _); simpl; by rewrite ?length_alter.
Qed.

Lemma handle_wellFormed p e : wellFormed p → wellFormed (handle p e).1.
Proof.
  intros [Hnd Hlt]. destruct e as [request | request | token env]; simpl.
  - destruct (cancel_frame p request) as (_ & Hawaited & _ & _ & Hlen).
    split; [by rewrite Hawaited|]. rewrite Hawaited, Hlen. done.
  - split; simpl.
    + rewrite fmap_app. apply NoDup_app. split; [done|]. split.
      * intros token Htoken. simpl. intros Hin. apply list_elem_of_singleton in Hin.
        apply list_elem_of_fmap in Htoken as (call & -> & Hcall).
        specialize (Hlt call Hcall). lia.
      * apply NoDup_singleton.
    + intros call Hcall. rewrite length_app. simpl.
      apply elem_of_app in Hcall as [Hcall | Hcall].
      * specialize (Hlt call Hcall). lia.
      * apply list_elem_of_singleton in Hcall as ->. simpl. lia.
  - unfold settle. case_match; [|done]. case_match. subst. split; simpl.
    + clear -Hnd. induction (awaited p) as [|c calls IH]; simpl; [constructor|].
      simpl in Hnd. apply NoDup_cons in Hnd as [Hc Hnd].
      destruct (negb (madeWith token c)); [|by apply IH]. simpl.
      apply NoDup_cons. split; [|by apply IH].
      intros Hin. apply Hc. apply list_elem_of_fmap in Hin as (c' & -> & Hc').
      apply list_elem_of_In, filter_In in Hc' as [Hc' _].
      apply list_elem_of_fmap_2, list_elem_of_In. done.
    + intros call Hcall. apply Hlt.
      apply list_elem_of_In, filter_In in Hcall as [Hcall _]. by apply list_elem_of_In.
Qed.

Lemma newProvider_wellFormed doc : wellFormed (newProvider (Item:=Item) doc).
Proof. split; [constructor | intros call Hcall; by apply elem_of_nil in Hcall]. Qed.

Lemma run_snoc es e p : run (es ++ [e]) p = (handle (run es p) e).1.
Proof. unfold run. by rewrite fold_left_app. Qed.


Lemma run_app es es' p : run (es ++ es') p = run es' (run es p).
Proof. unfold run. by rewrite fold_left_app. Qed.


End Dispatcher.

Section Responses.
Context {Item : Type}.
Implicit Types (p : Provider Item) (e : Event Item) (env : Settlement Item).
Implicit Types (request : IProvideCompletionItemsRequest).


Lemma responseFor_list request (settled : outcome (CompletionList Item)) :
  response_list (responseFor request settled) =
  match settled with Ok list => list | Throw _ => emptyCompletionList end.
Proof. by destruct settled. Qed.

Lemma responseFor_eta request (settled : outcome (CompletionList Item)) :
  responseFor request settled =
  {| response_list := match settled with
                      | Ok list => list
                      | Throw _ => emptyCompletionList
                      end;
     response_id := request_id request |}.
Proof. by destruct settled. Qed.

(** A call whose request to the server fails settles with a failure or
    with the empty list; either way the response holds the empty list. *)
Lemma failed_reply_list p (position : MonacoPosition) env :
  succeeded (reply env) = false →
  match provideCompletionItems p position env with
  | Ok list => list
  | Throw _ => emptyCompletionList
  end = emptyCompletionList.
Proof.
  intros Hreply. unfold provideCompletionItems.
  destruct (languageClient env) as [[|]|]; simpl; try done.
  destruct (document p) as [doc|]; simpl; [|done].
  destruct (convertToDocumentPosition _ _ _); simpl; [|done].
  by destruct (reply env).
Qed.

(** A call that reaches the server and gets a result settles with the
    conversion of that result. *)
Lemma replied_response p doc (position : MonacoPosition) env result docPos :
  languageClient env = Ok true → document p = Some doc →
  convertToDocumentPosition doc (pos_lineNumber position) (pos_column position)
    = Ok docPos →
  reply env = Ok result →
  provideCompletionItems p position env = convertToMonacoCompletionList result.
Proof.
  intros Hclient Hdoc Hpos Hreply. unfold provideCompletionItems.
  rewrite Hclient, Hdoc. simpl. rewrite Hpos. simpl. by rewrite Hreply.
Qed.

Lemma settle_awaited p token request env :
  wellFormed p → (token, request) ∈ awaited p →
  posted (settle token env p) =
    posted p ++ [responseFor request
                   (provideCompletionItems p (request_position request) env)] ∧
  awaited (settle token env p) =
    List.filter (fun call => negb (madeWith token call)) (awaited p) ∧
  cancellationSources (settle token env p) = cancellationSources p ∧
  sources (settle token env p) = sources p.
Proof.
  intros [Hnd Hlt] Hin. unfold settle.
  pose proof (find_madeWith_elem _ _ _ Hnd Hin) as Hfind. by rewrite Hfind.
Qed.






End Responses.


Section Cancellation.
Context {Item : Type}.
Implicit Types (p : Provider Item) (e : Event Item) (env : Settlement Item).

Lemma cancel_undefined p id :
  getProperty (cancellationSources p) id = Undefined →
  handle p (CancelCompletionItemsRequest {| cancel_id := id |}) = (p, Ok ()).
Proof. intros Hid. simpl. unfold handleCompletionItemsCancel. simpl. by rewrite Hid. Qed.

Lemma cancel_inherited p id :
  getProperty (cancellationSources p) id = Inherited →
  handle p (CancelCompletionItemsRequest {| cancel_id := id |}) = (p, Throw TypeError).
Proof. intros Hid. simpl. unfold handleCompletionItemsCancel. simpl. by rewrite Hid. Qed.

(** What an id reads while the prototype is the one of every object. *)
Lemma getProperty_plain p id :
  prototype (cancellationSources p) = None →
  entries (cancellationSources p) !! id = None →
  getProperty (cancellationSources p) id =
  if bool_decide (id ∈ objectMembers) then Inherited else Undefined.
Proof.
  intros Hproto Hid. unfold getProperty. rewrite Hid, Hproto.
  case_bool_decide as Hkey; [|done]. subst id.
  rewrite bool_decide_eq_true_2; [done|]. unfold objectMembers. set_solver.
Qed.

(** A source is read from an entry, or under [__proto__] from a prototype
    that was replaced. *)
Lemma getProperty_Source (table : SourceTable) id token :
  getProperty table id = Source token →
  entries table !! id = Some token ∨
  (id = "__proto__" ∧ prototype table = Some token).
Proof.
  unfold getProperty.
  destruct (entries table !! id) as [token'|]; [intros [= <-]; by left|].
  case_bool_decide as Hid.
  - destruct (prototype table); [intros [= <-]; by right | done].
  - case_bool_decide; [done|].
    destruct (prototype table); [by case_bool_decide | done].
Qed.

Lemma setProperty_plain (table : SourceTable) id token :
  id ≠ "__proto__" →
  setProperty id token table =
  {| entries := <[id := token]> (entries table); prototype := prototype table |}.
Proof. intros Hid. unfold setProperty. by rewrite bool_decide_eq_false_2. Qed.

Lemma getProperty_entry p id token :
  entries (cancellationSources p) !! id = Some token →
  getProperty (cancellationSources p) id = Source token.
Proof. intros Hid. unfold getProperty. by rewrite Hid. Qed.

Lemma cancel_twice p id :
  let cancelling := handle p (CancelCompletionItemsRequest {| cancel_id := id |}) in
  handle cancelling.1 (CancelCompletionItemsRequest {| cancel_id := id |}) =
  (cancelling.1, cancelling.2).
Proof.
  simpl. unfold handleCompletionItemsCancel. simpl.
  destruct (getProperty (cancellationSources p) id) as [|token|] eqn:Hid;
    simpl; rewrite Hid; [done| |done].
  f_equal. f_equal. rewrite list_alter_alter_eq. by apply list_alter_ext.
Qed.

Lemma cancel_entry p id token :
  entries (cancellationSources p) !! id = Some token →
  (token < length (sources p))%nat →
  let cancelling := handle p (CancelCompletionItemsRequest {| cancel_id := id |}) in
  cancelling.2 = Ok () ∧
  sources cancelling.1 !! token =
  Some {| isCancellationRequested := true; isDisposed := true |}.
Proof.
  intros Hid Hlt. simpl. unfold handleCompletionItemsCancel. simpl.
  rewrite (getProperty_entry p id token Hid). simpl. split; [done|].
  apply lookup_lt_is_Some in Hlt as [s Hs].
  by rewrite list_lookup_alter_eq, Hs.
Qed.

(** No event takes an entry out of [cancellationSources]. *)
Lemma entry_stays p e id :
  is_Some (entries (cancellationSources p) !! id) →
  is_Some (entries (cancellationSources (handle p e).1) !! id).
Proof.
  intros Hid. destruct e as [request | request | token env]; simpl.
  - by destruct (cancel_frame p request) as (_ & _ & -> & _).
  - unfold setProperty. case_bool_decide; simpl; [done|].
    destruct (decide (request_id request = id)) as [->|Hne].
    + rewrite lookup_insert_eq. eauto.
    + by rewrite lookup_insert_ne.
  - unfold settle. case_match; [|done]. by case_match.
Qed.

Lemma entry_stays_run es p id :
  is_Some (entries (cancellationSources p) !! id) →
  is_Some (entries (cancellationSources (run es p)) !! id).
Proof.
  intros Hid. induction es as [|e es IH] using rev_ind; [done|].
  rewrite run_snoc. by apply entry_stays.
Qed.

Lemma handle_distinctSources p e : distinctSources p → distinctSources (handle p e).1.
Proof.
  intros (Hlt & Hinj & Hproto & Hkey).
  destruct e as [request | request | token env]; simpl.
  - destruct (cancel_frame p request) as (_ & _ & Htable & _ & Hlen).
    unfold distinctSources. rewrite Htable, Hlen. done.
  - unfold distinctSources, handleCompletionItemsRequest, setProperty.
    cbn [fst cancellationSources sources]. rewrite length_app. cbn [length].
    destruct (decide (request_id request = "__proto__")) as [Hid|Hid];
      [rewrite (bool_decide_eq_true_2 _ Hid) | rewrite (bool_decide_eq_false_2 _ Hid)];
      cbn [entries prototype].
    + split; [intros id token Hentry; specialize (Hlt _ _ Hentry); lia|].
      split; [done|]. split; [|done].
      intros token [= <-]. split; [lia|].
      intros id Hentry. specialize (Hlt _ _ Hentry). lia.
    + split.
      { intros id token.
        destruct (decide (request_id request = id)) as [->|Hne].
        - rewrite lookup_insert_eq. intros [= <-]. lia.
        - rewrite lookup_insert_ne by done. intros Hentry.
          specialize (Hlt _ _ Hentry). lia. }
      split.
      { intros id1 id2 token H1 H2.
        destruct (decide (request_id request = id1)) as [E1|N1];
          destruct (decide (request_id request = id2)) as [E2|N2].
        - congruence.
        - rewrite <- E1, lookup_insert_eq in H1. rewrite lookup_insert_ne in H2 by done.
          injection H1 as <-. specialize (Hlt _ _ H2). lia.
        - rewrite <- E2, lookup_insert_eq in H2. rewrite lookup_insert_ne in H1 by done.
          injection H2 as <-. specialize (Hlt _ _ H1). lia.
        - rewrite lookup_insert_ne in H1, H2 by done. by eapply Hinj. }
      split; [|by rewrite lookup_insert_ne].
      intros token Htoken. destruct (Hproto token Htoken) as [Hlen Hfree].
      split; [lia|]. intros id.
      destruct (decide (request_id request = id)) as [->|Hne].
      * rewrite lookup_insert_eq. intros [= <-]. lia.
      * rewrite lookup_insert_ne by done. apply Hfree.
  - unfold settle. case_match; [|done]. by case_match.
Qed.

Lemma handle_ownCalls p e :
  wellFormed p → distinctSources p → ownCalls p → ownCalls (handle p e).1.
Proof.
  intros [_ Hcalls] (Hlt & _) Hown.
  destruct e as [request | request | token env]; simpl.
  - destruct (cancel_frame p request) as (_ & Hawaited & Htable & _).
    unfold ownCalls. rewrite Htable, Hawaited. done.
  - intros id token request' Hentry Hcall. simpl in *.
    apply elem_of_app in Hcall as [Hcall | Hcall].
    + specialize (Hcalls _ Hcall). simpl in Hcalls.
      unfold setProperty in Hentry. case_bool_decide; simpl in Hentry; [by eapply Hown|].
      destruct (decide (request_id request = id)) as [Heq|Hne].
      * subst id. rewrite lookup_insert_eq in Hentry. injection Hentry as <-. lia.
      * rewrite lookup_insert_ne in Hentry by done. by eapply Hown.
    + apply list_elem_of_singleton in Hcall. injection Hcall as -> ->.
      unfold setProperty in Hentry. case_bool_decide; simpl in Hentry.
      * specialize (Hlt _ _ Hentry). lia.
      * destruct (decide (request_id request = id)) as [Heq|Hne]; [done|].
        rewrite lookup_insert_ne in Hentry by done. specialize (Hlt _ _ Hentry). lia.
  - unfold settle.
    destruct (List.find (madeWith token) (awaited p)) as [[token' request]|]; [|done].
    intros id token'' request' Hentry Hcall. simpl in *.
    apply list_elem_of_In, filter_In in Hcall as [Hcall _].
    apply list_elem_of_In in Hcall. by eapply Hown.
Qed.

(** What holds of the provider after any events. *)
Lemma run_invariants es doc :
  let p := run es (newProvider (Item:=Item) doc) in
  wellFormed p ∧ distinctSources p ∧ ownCalls p.
Proof.
  induction es as [|e es IH] using rev_ind.
  - split; [apply newProvider_wellFormed|]. split.
    + repeat split; intros *; simpl; try by rewrite lookup_empty. done.
    + intros id token request. simpl. by rewrite lookup_empty.
  - simpl in *. rewrite run_snoc. destruct IH as (Hw & Hd & Ho).
    split; [by apply handle_wellFormed|].
    split; [by apply handle_distinctSources | by apply handle_ownCalls].
Qed.

(** The prototype is replaced by a request with the id [__proto__] only. *)
Lemma run_plainIds es doc :
  plainIds es → prototype (cancellationSources (run es (newProvider (Item:=Item) doc))) = None.
Proof.
  induction es as [|e es IH] using rev_ind; [done|].
  unfold plainIds in *. rewrite Forall_app, Forall_singleton. intros [Hes He].
  rewrite run_snoc. specialize (IH Hes).
  destruct e as [request | request | token env]; simpl.
  - by destruct (cancel_frame (run es (newProvider doc)) request) as (_ & _ & -> & _).
  - unfold setProperty. by rewrite bool_decide_eq_false_2.
  - unfold settle. case_match; [|done]. by case_match.
Qed.

End Cancellation.

(** C7, as the code has it, for the provider after any requests,
    cancellations and settlements. An id reads [undefined] when it has no
    entry and is not the name of a member that every object inherits (the
    prototype being the one of every object, as it is when no request came
    with the id [__proto__]); cancelling such an id changes nothing and
    returns, the first time and the second. Cancelling any id a second time
    in a row changes nothing more and ends as the first time did, and a
    cancellation never posts a response, never ends a call and never
    touches an entry. An entry of [cancellationSources] is never removed:
    it is still there after any further events, the settling of its request
    and its cancellation included. Cancelling an id that has an entry
    returns and leaves its source cancelled and disposed. The call made for
    that id, when it settles after the cancellation, gets exactly one
    response with that id: the empty incomplete list when the request to
    the server fails, as it does when the server honours the cancellation,
    and otherwise, the server having answered, the conversion of the
    server's result. *)
Theorem cancel_is_repeatable_and_entries_stay {Item : Type}
    (doc : option HistoryDocument) (es : list (Event Item)) (id : string) :
  let p := run es (newProvider doc) in
  let cancelling := handle p (CancelCompletionItemsRequest {| cancel_id := id |}) in
  let cancelled := cancelling.1 in
  (plainIds es → prototype (cancellationSources p) = None) ∧
  (prototype (cancellationSources p) = None →
   entries (cancellationSources p) !! id = None → id ∉ objectMembers →
   getProperty (cancellationSources p) id = Undefined) ∧
  (getProperty (cancellationSources p) id = Undefined →
   cancelling = (p, Ok ()) ∧
   handle cancelled (CancelCompletionItemsRequest {| cancel_id := id |}) = (p, Ok ())) ∧
  handle cancelled (CancelCompletionItemsRequest {| cancel_id := id |}) =
    (cancelled, cancelling.2) ∧
  (posted cancelled = posted p ∧ awaited cancelled = awaited p ∧
   cancellationSources cancelled = cancellationSources p) ∧
  (∀ es', is_Some (entries (cancellationSources p) !! id) →
          is_Some (entries (cancellationSources (run es' p)) !! id)) ∧
  (∀ token, entries (cancellationSources p) !! id = Some token →
     cancelling.2 = Ok () ∧
     sources cancelled !! token =
     Some {| isCancellationRequested := true; isDisposed := true |}) ∧
  (∀ token request env,
     entries (cancellationSources p) !! id = Some token →
     (token, request) ∈ awaited p →
     let r := handle cancelled (Settled token env) in
     request_id request = id ∧
     ∃ list,
       posted r.1 = posted p ++ [ {| response_list := list; response_id := id |} ] ∧
       (honoursCancellation cancelled token env → list = emptyCompletionList) ∧
       (succeeded (reply env) = false → list = emptyCompletionList) ∧
       (∀ d result docPos,
          languageClient env = Ok true → document p = Some d →
          convertToDocumentPosition d (pos_lineNumber (request_position request))
                                      (pos_column (request_position request))
            = Ok docPos →
          reply env = Ok result →
          list = match convertToMonacoCompletionList result with
                 | Ok converted => converted
                 | Throw _ => emptyCompletionList
                 end)).
Proof.
  intros p cancelling cancelled.
  destruct (run_invariants es doc) as (Hw & Hd & Ho). fold p in Hw, Hd, Ho.
  pose proof Hd as (Hlt & _).
  destruct (cancel_frame p {| cancel_id := id |}) as (Hposted & Hawaited & Htable & Hdoc & _).
  change (handleCompletionItemsCancel {| cancel_id := id |} p).1 with cancelled
    in Hposted, Hawaited, Htable, Hdoc.
  split; [apply run_plainIds|].
  split.
  { intros Hproto Hid Hkey. rewrite getProperty_plain by done.
    by rewrite bool_decide_eq_false_2. }
  split.
  { intros Hid. pose proof (cancel_undefined p id Hid) as Hsame.
    subst cancelled cancelling. rewrite Hsame. split; [done|]. simpl.
    by apply cancel_undefined. }
  split; [apply cancel_twice|].
  split; [done|].
  split; [intros; by apply entry_stays_run|].
  split.
  { intros token Hid. apply cancel_entry; [done|]. by eapply Hlt. }
  intros token request env Hid Hcall r.
  split; [by eapply Ho|].
  assert (Hwc : wellFormed cancelled) by (by apply handle_wellFormed).
  assert (Hcallc : (token, request) ∈ awaited cancelled) by (by rewrite Hawaited).
  destruct (settle_awaited cancelled token request env Hwc Hcallc) as (Hr & _).
  eexists. split.
  { subst r. simpl. rewrite Hr, Hposted, responseFor_eta.
    by rewrite (Ho _ _ _ Hid Hcall). }
  assert (Hfailed : succeeded (reply env) = false →
                    match provideCompletionItems cancelled (request_position request) env with
                    | Ok list => list
                    | Throw _ => emptyCompletionList
                    end = emptyCompletionList) by apply failed_reply_list.
  split.
  { intros Hhonours. apply Hfailed, Hhonours.
    destruct (cancel_entry p id token Hid) as [_ Hsource]; [by eapply Hlt|].
    eauto. }
  split; [done|].
  intros d result docPos Hclient Hd' Hpos Hreply.
  rewrite Hd' in Hdoc. symmetry in Hdoc.
  by rewrite (replied_response cancelled d _ env result docPos).
Qed.

(** C7 fails as it is stated: request "1" is received, cancelled, and then
    answered by the server all the same. Its entry is in
    [cancellationSources] after the cancellation and after the response,
    and the response posted is the server's list, not the empty one. *)
Lemma entry_survives_cancel_and_response :
  let doc := after [AddLines "a"] (newDocument "history.py") in
  let env := {| languageClient := Ok true; reply := Ok (ResultArray ["A"]) |} in
  let p1 := run [ProvideCompletionItemsRequest (requestAtStart "1");
                 CancelCompletionItemsRequest {| cancel_id := "1" |}]
                (newProvider (Some doc)) in
  let p2 := (handle p1 (Settled 0 env)).1 in
  entries (cancellationSources p1) !! "1" = Some 0%nat ∧
  sources p1 !! 0%nat = Some {| isCancellationRequested := true; isDisposed := true |} ∧
  awaited p1 = [(0%nat, requestAtStart "1")] ∧
  entries (cancellationSources p2) !! "1" = Some 0%nat ∧
  awaited p2 = [] ∧
  posted p2 = [ {| response_list := {| suggestions := ["A"]; incomplete := false |};
                   response_id := "1" |} ] ∧
  posted p2 ≠ [ {| response_list := emptyCompletionList; response_id := "1" |} ].
Proof. vm_compute. repeat split; discriminate. Qed.

(** Cancelling an id that no request has used and that names a member of
    every object does not return. *)
Example cancel_of_an_inherited_name :
  let p : Provider string := newProvider None in
  handle p (CancelCompletionItemsRequest {| cancel_id := "constructor" |})
  = (p, Throw TypeError).
Proof. reflexivity. Qed.

(** A request with the id [__proto__] stores no entry: its source becomes
    the prototype, where a cancellation with that id finds it. *)
Example request_with_the_id_proto :
  let p : Provider string :=
    run [ProvideCompletionItemsRequest (requestAtStart "__proto__")] (newProvider None) in
  let r := handle p (CancelCompletionItemsRequest {| cancel_id := "__proto__" |}) in
  entries (cancellationSources p) !! "__proto__" = None ∧
  prototype (cancellationSources p) = Some 0%nat ∧
  awaited p = [(0%nat, requestAtStart "__proto__")] ∧
  r.2 = Ok () ∧
  sources r.1 = [ {| isCancellationRequested := true; isDisposed := true |} ].
Proof. by vm_compute. Qed.

Lemma cancel_is_repeatable_and_entries_stay_witness :
  let doc := after [AddLines "a"] (newDocument "history.py") in
  let p : Provider string :=
    run [ProvideCompletionItemsRequest (requestAtStart "1")] (newProvider (Some doc)) in
  let cancelled :=
    (handle p (CancelCompletionItemsRequest {| cancel_id := "1" |})).1 in
  let env := {| languageClient := Ok true; reply := Throw RequestFailed |} in
  entries (cancellationSources p) !! "1" = Some 0%nat ∧
  (0%nat, requestAtStart "1") ∈ awaited p ∧
  request_id (requestAtStart "1") = "1" ∧
  ∃ list,
    posted (handle cancelled (Settled 0 env)).1 =
      posted p ++ [ {| response_list := list; response_id := "1" |} ] ∧
    (honoursCancellation cancelled 0 env → list = emptyCompletionList) ∧
    (succeeded (reply env) = false → list = emptyCompletionList) ∧
    (∀ d result docPos,
       languageClient env = Ok true → document p = Some d →
       convertToDocumentPosition d 1 1 = Ok docPos →
       reply env = Ok result →
       list = match convertToMonacoCompletionList result with
              | Ok converted => converted
              | Throw _ => emptyCompletionList
              end).
Proof.
  assert (Hin : (0%nat, requestAtStart "1") ∈
                awaited (run [ProvideCompletionItemsRequest (Item:=string)
                                (requestAtStart "1")]
                             (newProvider
                                (Some (after [AddLines "a"] (newDocument "history.py")))))).
  { simpl. apply list_elem_of_here. }
  split; [reflexivity|]. split; [exact Hin|].
  exact (proj2 (proj2 (proj2 (proj2 (proj2 (proj2 (proj2
           (cancel_is_repeatable_and_entries_stay
              (Some (after [AddLines "a"] (newDocument "history.py")))
              [ProvideCompletionItemsRequest (requestAtStart "1")] "1")))))))
           0%nat (requestAtStart "1")
           {| languageClient := Ok true; reply := Throw RequestFailed |}
           eq_refl Hin).
Defined.


(** * Further properties of the code *)

Lemma mapLines_linesFrom split i prev :
  mapLines split i prev =
  linesFrom split i (match prev with
                     | Some p => offset p + Js.length (text p) + 1
                     | None => 0
                     end).
Proof.
  revert i prev. induction split as [|s rest IH]; intros i prev; [done|].
  simpl. rewrite IH. simpl. f_equal.
  - unfold createTextLine. f_equal. destruct prev; simpl; lia.
  - f_equal. destruct prev; simpl; lia.
Qed.

Lemma createLines_linesFrom contents :
  createLines contents = linesFrom (splitLines contents) 0 0.
Proof. apply mapLines_linesFrom. Qed.

Lemma linesFrom_app l1 l2 i off :
  linesFrom (l1 ++ l2) i off =
  linesFrom l1 i off ++ linesFrom l2 (i + Z.of_nat (length l1)) (off + span l1).
Proof.
  revert i off. induction l1 as [|s l1 IH]; intros i off.
  - simpl. by rewrite !Z.add_0_r.
  - simpl. rewrite IH. rewrite Nat2Z.inj_succ.
    replace (i + 1 + Z.of_nat (length l1)) with (i + Z.succ (Z.of_nat (length l1))) by lia.
    replace (off + Js.length s + 1 + span l1) with (off + (Js.length s + 1 + span l1)) by lia.
    done.
Qed.

Lemma span_splitLines s : span (splitLines s) = Js.length s + 1.
Proof.
  induction s as [|c s IH]; [done|].
  simpl splitLines. destruct (Ascii.eqb c Js.LF).
  - simpl span. rewrite IH. unfold Js.length. simpl String.length. lia.
  - destruct (splitLines s) as [|p ps].
    + simpl in *. unfold Js.length in *. simpl String.length in *. lia.
    + simpl span in *. unfold Js.length in *. simpl String.length in *. lia.
Qed.

Lemma splitLines_app a b :
  splitLines (a +:+ Js.newline +:+ b) = splitLines a ++ splitLines b.
Proof.
  induction a as [|c a IH].
  - rewrite append_nil_l. unfold Js.newline. rewrite append_cons, append_nil_l.
    simpl. done.
  - rewrite append_cons. simpl splitLines. rewrite IH.
    destruct (Ascii.eqb c Js.LF); [done|].
    destruct (splitLines a) as [|p ps] eqn:Ha; [by apply splitLines_nonempty in Ha|].
    done.
Qed.

Lemma length_splitLines s : length (splitLines s) = S (Js.countLF s).
Proof.
  induction s as [|c s IH]; [done|].
  simpl. destruct (Ascii.eqb c Js.LF); simpl; [by rewrite IH|].
  destruct (splitLines s) as [|p ps]; simpl in *; lia.
Qed.

(** The lines of a text with a line feed in it: those of what is before
    the line feed, then those of what is after, which start after it. *)
Lemma createLines_app a b :
  createLines (a +:+ Js.newline +:+ b) =
  createLines a ++
  linesFrom (splitLines b) (Z.of_nat (length (splitLines a))) (Js.length a + 1).
Proof.
  rewrite !createLines_linesFrom, splitLines_app, linesFrom_app, span_splitLines.
  do 2 f_equal; lia.
Qed.

(** ** Pieces of a concatenation *)

Lemma substring_0_0 s : String.substring 0 0 s = EmptyString.
Proof. by destruct s. Qed.

Lemma substring_whole s : String.substring 0 (String.length s) s = s.
Proof. induction s as [|c s IH]; simpl; [done | by rewrite IH]. Qed.

Lemma substring_app_l a b (k : nat) :
  String.substring 0 (String.length a + k) (a +:+ b) = a +:+ String.substring 0 k b.
Proof.
  induction a as [|c a IH]; [done|].
  rewrite !append_cons. simpl. by rewrite IH.
Qed.

Lemma substring_app_r a b (n m : nat) :
  String.substring (String.length a + n) m (a +:+ b) = String.substring n m b.
Proof. induction a as [|c a IH]; [done|]. rewrite append_cons. simpl. apply IH. Qed.

Lemma substring_beyond (n m : nat) s :
  (String.length s ≤ n)%nat → String.substring n m s = EmptyString.
Proof.
  revert n m. induction s as [|c s IH]; intros n m Hn; simpl in *.
  - by destruct n, m.
  - destruct n as [|n]; [lia|]. apply IH. lia.
Qed.

(** [s.substr(0, k)] and [s.substr(k)] on a concatenation. *)
Lemma substr_take_app a b k :
  0 ≤ k →
  Js.substr (a +:+ b) 0 (Some (Js.length a + k)) = a +:+ Js.substr b 0 (Some k).
Proof.
  intros Hk. unfold Js.substr. rewrite length_append.
  pose proof (length_nonneg a) as Ha. pose proof (length_nonneg b) as Hb.
  destruct (Z.ltb_spec 0 0); [lia|]. rewrite !Z.sub_0_r.
  replace (Z.min (Z.max (Js.length a + k) 0) (Js.length a + Js.length b))
    with (Js.length a + Z.min k (Js.length b)) by lia.
  replace (Z.min (Z.max k 0) (Js.length b)) with (Z.min k (Js.length b)) by lia.
  destruct (Z.leb_spec (Js.length a + Z.min k (Js.length b)) 0) as [Hle|Hgt].
  - assert (Hlen : Js.length a = 0) by lia.
    destruct a as [|c a]; [|unfold Js.length in Hlen; simpl in Hlen; lia].
    destruct (Z.leb_spec (Z.min k (Js.length b)) 0); [done|]. simpl in *. lia.
  - unfold Js.length at 1. rewrite Z2Nat.inj_add by lia. rewrite Nat2Z.id.
    rewrite substring_app_l. simpl Z.to_nat.
    destruct (Z.leb_spec (Z.min k (Js.length b)) 0) as [Hz|Hz]; [|done].
    replace (Z.to_nat (Z.min k (Js.length b))) with 0%nat by lia.
    by rewrite substring_0_0.
Qed.

Lemma substr_drop_app a b k :
  0 ≤ k →
  Js.substr (a +:+ b) (Js.length a + k) None = Js.substr b k None.
Proof.
  intros Hk. unfold Js.substr. rewrite length_append.
  pose proof (length_nonneg a) as Ha.
  destruct (Z.ltb_spec (Js.length a + k) 0); [lia|].
  destruct (Z.ltb_spec k 0); [lia|].
  replace (Js.length a + Js.length b - (Js.length a + k)) with (Js.length b - k) by lia.
  destruct (Z.leb_spec (Js.length b - k) 0); [done|].
  unfold Js.length at 1. rewrite Z2Nat.inj_add by lia. rewrite Nat2Z.id.
  apply substring_app_r.
Qed.

Lemma substr_empty start len : Js.substr EmptyString start len = EmptyString.
Proof.
  unfold Js.substr. case_match; [done|].
  by destruct (Z.to_nat _), (Z.to_nat _).
Qed.

Lemma substr_take_all s k : Js.length s ≤ k → Js.substr s 0 (Some k) = s.
Proof.
  intros Hk. pose proof (substr_take_app s EmptyString (k - Js.length s)) as H.
  rewrite append_empty_r in H. replace (Js.length s + (k - Js.length s)) with k in H by lia.
  rewrite H by lia. by rewrite substr_empty, append_empty_r.
Qed.

Lemma substr_take_0 s : Js.substr s 0 (Some 0) = EmptyString.
Proof.
  unfold Js.substr. pose proof (length_nonneg s).
  destruct (Z.ltb_spec 0 0); [lia|].
  by destruct (Z.leb_spec (Z.min (Z.max 0 0) (Js.length s - 0)) 0); [|lia].
Qed.

Lemma substr_drop_0 s : Js.substr s 0 None = s.
Proof.
  unfold Js.substr. destruct (Z.ltb_spec 0 0); [lia|]. rewrite Z.sub_0_r.
  destruct (Z.leb_spec (Js.length s) 0) as [Hle|Hgt].
  - destruct s; [done|]. unfold Js.length in Hle. simpl in Hle. lia.
  - unfold Js.length. rewrite Nat2Z.id. apply substring_whole.
Qed.

Lemma substr_drop_all s k : Js.length s ≤ k → Js.substr s k None = EmptyString.
Proof.
  intros Hk. unfold Js.substr. pose proof (length_nonneg s).
  destruct (Z.ltb_spec k 0); [lia|].
  by destruct (Z.leb_spec (Js.length s - k) 0); [|lia].
Qed.

Lemma substr_take_prefix a b : Js.substr (a +:+ b) 0 (Some (Js.length a)) = a.
Proof.
  pose proof (substr_take_app a b 0) as H. rewrite Z.add_0_r in H.
  rewrite H by lia. by rewrite substr_take_0, append_empty_r.
Qed.

Lemma substr_drop_prefix a b : Js.substr (a +:+ b) (Js.length a) None = b.
Proof.
  pose proof (substr_drop_app a b 0) as H. rewrite Z.add_0_r in H.
  rewrite H by lia. apply substr_drop_0.
Qed.

(** A text is what is before an offset followed by what is after it. *)
Lemma substr_take_drop s k :
  0 ≤ k → Js.substr s 0 (Some k) +:+ Js.substr s k None = s.
Proof.
  revert k. induction s as [|c s IH]; intros k Hk.
  - rewrite substr_take_all, substr_drop_all; [done| |]; simpl; unfold Js.length; simpl; lia.
  - destruct (decide (k = 0)) as [->|Hne].
    + by rewrite substr_take_0, substr_drop_0.
    + change (String c s) with (String c EmptyString +:+ s).
      replace k with (Js.length (String c EmptyString) + (k - 1))
        by (unfold Js.length; simpl; lia).
      rewrite substr_take_app, substr_drop_app by lia.
      rewrite append_assoc. by rewrite IH by lia.
Qed.

Lemma length_substr_take s k :
  0 ≤ k ≤ Js.length s → Js.length (Js.substr s 0 (Some k)) = k.
Proof.
  revert k. induction s as [|c s IH]; intros k Hk.
  - assert (k = 0) as -> by (simpl in Hk; unfold Js.length in Hk; simpl in Hk; lia).
    by rewrite substr_take_0.
  - destruct (decide (k = 0)) as [->|Hne]; [by rewrite substr_take_0|].
    change (String c s) with (String c EmptyString +:+ s).
    replace k with (Js.length (String c EmptyString) + (k - 1))
      by (unfold Js.length; simpl; lia).
    rewrite substr_take_app by lia. rewrite length_append, IH.
    + unfold Js.length. simpl. lia.
    + unfold Js.length in *. simpl String.length in *. lia.
Qed.

(** ** The edit offset and the edit cell *)

Lemma linesFrom_shift split i off a b :
  linesFrom split (i + a) (off + b) = map (shift i off) (linesFrom split a b).
Proof.
  revert a b. induction split as [|s rest IH]; intros a b; [done|].
  simpl. f_equal.
  replace (i + a + 1) with (i + (a + 1)) by lia.
  replace (off + b + Js.length s + 1) with (off + (b + Js.length s + 1)) by lia.
  apply IH.
Qed.

Lemma length_createLines t : length (createLines t) = length (splitLines t).
Proof. apply mapLines_length. Qed.

(** The lines of a document whose text is [pre], a line feed, [cell]. *)
Lemma lines_of_placed pre cell :
  createLines (pre +:+ Js.newline +:+ cell) =
  createLines pre ++
  map (shift (Z.of_nat (length (splitLines pre))) (Js.length pre + 1)) (createLines cell).
Proof.
  rewrite createLines_app. f_equal.
  rewrite (createLines_linesFrom cell), <- linesFrom_shift. f_equal; lia.
Qed.

Lemma lookup_cell_line pre cell (i : nat) :
  createLines (pre +:+ Js.newline +:+ cell) !! (length (splitLines pre) + i)%nat =
  shift (Z.of_nat (length (splitLines pre))) (Js.length pre + 1) <$> createLines cell !! i.
Proof.
  rewrite lines_of_placed, lookup_app_r by (rewrite length_createLines; lia).
  rewrite length_createLines, list_lookup_fmap. f_equal. f_equal. lia.
Qed.

Lemma length_lines_of_placed pre cell :
  length (createLines (pre +:+ Js.newline +:+ cell)) =
  (length (splitLines pre) + length (splitLines cell))%nat.
Proof. by rewrite lines_of_placed, length_app, length_map, !length_createLines. Qed.

(** A position of the edit cell, counted from the line of the edit offset,
    converts to the edit offset plus its offset in the cell. *)
Lemma convertToOffset_in_cell d pre cell i j :
  _lines d = createLines (_contents d) →
  _contents d = pre +:+ Js.newline +:+ cell →
  0 ≤ i →
  ∃ x, convertToOffset (standalone cell) {| line := i; character := j |} = Ok x ∧
       convertToOffset d {| line := Z.of_nat (length (splitLines pre)) + i;
                            character := j |} = Ok (Js.length pre + 1 + x) ∧
       (0 ≤ j → 0 ≤ x).
Proof.
  intros Hl Hc Hi. unfold convertToOffset. rewrite Hl, Hc. simpl.
  rewrite length_lines_of_placed, length_createLines.
  replace i with (Z.of_nat (Z.to_nat i)) by lia.
  replace (Z.of_nat (length (splitLines pre)) + Z.of_nat (Z.to_nat i))
    with (Z.of_nat (length (splitLines pre) + Z.to_nat i)) by lia.
  rewrite !lineAtIndex_nat, lookup_cell_line.
  destruct (Z.ltb_spec (Z.of_nat (Z.to_nat i)) (Z.of_nat (length (splitLines cell))))
    as [Hlt|Hge].
  - destruct (Z.ltb_spec (Z.of_nat (length (splitLines pre) + Z.to_nat i))
                (Z.of_nat (length (splitLines pre) + length (splitLines cell)))); [|lia].
    destruct (createLines cell !! Z.to_nat i) as [l|] eqn:Hline.
    + simpl. eexists. split; [reflexivity|]. split; [f_equal; lia|].
      intros Hj.
      assert (0 ≤ offset l); [|lia].
      destruct (Z.to_nat i) as [|n] eqn:Hn.
      * by rewrite (createLines_startsAtZero cell l Hline).
      * destruct (createLines cell !! 0%nat) as [l0|] eqn:Hl0.
        -- pose proof (consecutive_increasing (createLines cell) n 0 l0 l
                         (createLines_consecutive cell) Hl0 Hline) as Hinc.
           rewrite (createLines_startsAtZero cell l0 Hl0) in Hinc.
           pose proof (length_nonneg (text l0)). lia.
        -- apply lookup_ge_None in Hl0. apply lookup_lt_Some in Hline. lia.
    + apply lookup_ge_None in Hline. rewrite length_createLines in Hline. lia.
  - destruct (Z.ltb_spec (Z.of_nat (length (splitLines pre) + Z.to_nat i))
                (Z.of_nat (length (splitLines pre) + length (splitLines cell)))); [lia|].
    eexists. split; [reflexivity|]. split.
    + f_equal. rewrite !length_append, length_newline. lia.
    + intros _. apply length_nonneg.
Qed.

(** The position of the edit offset is the start of the first line of the
    edit cell. *)
Lemma computePosition_editOffset d pre cell :
  _lines d = createLines (_contents d) →
  _contents d = pre +:+ Js.newline +:+ cell →
  computePosition d (Js.length pre + 1) =
  Ok {| line := Z.of_nat (length (splitLines pre)); character := 0 |}.
Proof.
  intros Hl Hc.
  assert (Hd : indexed d) by (by right).
  destruct (createLines cell !! 0%nat) as [l0|] eqn:Hl0.
  - pose proof (lookup_cell_line pre cell 0) as Hline.
    rewrite Hl0, Nat.add_0_r, <- Hc, <- Hl in Hline. simpl in Hline.
    pose proof (convertToOffset_computePosition d _ _ 0 Hd Hline) as [_ Hpos].
    { pose proof (length_nonneg (text l0)). simpl. lia. }
    simpl in Hpos. rewrite (createLines_startsAtZero cell l0 Hl0) in Hpos.
    rewrite <- Hpos. f_equal. lia.
  - apply lookup_ge_None in Hl0. simpl in Hl0.
    pose proof (createLines_nonempty cell). destruct (createLines cell); [done | simpl in *; lia].
Qed.

Lemma texts_before_edit d :
  _firstEdit d = true → _editOffset d = Js.length (_contents d) →
  executedText d = _contents d ∧ editCellText d = EmptyString.
Proof.
  intros Hf Ho. unfold executedText, editCellText. rewrite Hf, Ho.
  split; [apply substr_take_all | apply substr_drop_all]; lia.
Qed.

Lemma texts_after_edit d pre cell :
  _firstEdit d = false → _contents d = pre +:+ Js.newline +:+ cell →
  _editOffset d = Js.length pre + 1 →
  executedText d = pre ∧ editCellText d = cell.
Proof.
  intros Hf Hc Ho. unfold executedText, editCellText. rewrite Hf, Ho, Hc. split.
  - replace (Js.length pre + 1 - 1) with (Js.length pre) by lia.
    apply substr_take_prefix.
  - rewrite <- append_assoc.
    replace (Js.length pre + 1) with (Js.length (pre +:+ Js.newline))
      by (by rewrite length_append, length_newline).
    apply substr_drop_prefix.
Qed.

Lemma addLines_placed d code :
  placed d →
  let r := addLines code d in
  placed r.1 ∧
  (∃ pos, r.2 = Ok [ {| change_range := {| range_start := pos; range_end := pos |};
                        change_rangeOffset := Js.length (executedText d);
                        change_rangeLength := 0;
                        change_text := appendedCode d code |} ] ∧
          convertToOffset d pos = Ok (Js.length (executedText d))) ∧
  _contents r.1 =
    executedText d +:+ appendedCode d code +:+
    (if _firstEdit d then EmptyString else Js.newline +:+ editCellText d) ∧
  executedText r.1 = executedText d +:+ appendedCode d code ∧
  editCellText r.1 = editCellText d ∧
  _editOffset r.1 = _editOffset d + Js.length (appendedCode d code) ∧
  _firstEdit r.1 = _firstEdit d.
Proof.
  intros [Hd Hshape] r. subst r. unfold appendedCode.
  destruct (_firstEdit d) eqn:Hf.
  - (* before the first edit *)
    destruct (texts_before_edit d Hf Hshape) as [Hex Hcell].
    set (newCode := if Js.length (_contents d) =? 0 then _ else _).
    destruct (indexed_convertible d (_editOffset d) Hd) as (pos & Hpos & Hback).
    { rewrite Hshape. pose proof (length_nonneg (_contents d)). unfold validOffset. lia. }
    run_method. rewrite Hf. fold newCode.
    rewrite (computePosition_lines _ d) by done. rewrite Hpos. simpl.
    rewrite Hex, Hcell, Hshape. rewrite substr_take_all, substr_drop_all by lia.
    rewrite append_empty_r.
    assert (Hlen : Js.length (_contents d) + Js.length newCode
                   = Js.length (_contents d +:+ newCode)) by (by rewrite length_append).
    split; [|split; [|split; [|split; [|split; [|split]]]]].
    + split; [by right|]. simpl. by rewrite Hf.
    + exists pos. rewrite createSerializableRange_eta, <- Hshape. done.
    + simpl. by rewrite ?append_empty_r.
    + unfold executedText. simpl. rewrite Hf, Hlen. apply substr_take_all. lia.
    + unfold editCellText. simpl. rewrite Hlen. apply substr_drop_all. lia.
    + simpl. done.
    + simpl. done.
  - (* after it *)
    destruct Hshape as (pre & cell & Hc & Ho).
    destruct (texts_after_edit d pre cell Hf Hc Ho) as [Hex Hcell].
    assert (Hnonempty : (Js.length (_contents d) =? 0) = false).
    { apply Z.eqb_neq. rewrite Hc, !length_append, length_newline.
      pose proof (length_nonneg pre). pose proof (length_nonneg cell). lia. }
    rewrite Hnonempty.
    destruct (indexed_convertible d (Js.length pre) Hd) as (pos & Hpos & Hback).
    { unfold validOffset. rewrite Hc, !length_append, length_newline.
      pose proof (length_nonneg pre). pose proof (length_nonneg cell). lia. }
    run_method. rewrite Hf, Hnonempty, Ho.
    replace (Js.length pre + 1 - 1) with (Js.length pre) by lia.
    rewrite (computePosition_lines _ d) by done. rewrite Hpos. simpl.
    rewrite Hc. rewrite substr_take_prefix, substr_drop_prefix.
    rewrite Hex, Hcell.
    set (n := Js.removeCR code).
    assert (Hnew : pre +:+ (Js.newline +:+ n) +:+ Js.newline +:+ cell =
                   (pre +:+ Js.newline +:+ n) +:+ Js.newline +:+ cell)
      by (by rewrite !append_assoc).
    assert (Hlen : Js.length (pre +:+ Js.newline +:+ n) = Js.length pre + 1 + Js.length n)
      by (rewrite !length_append, length_newline; lia).
    split; [|split; [|split; [|split; [|split; [|split]]]]].
    + split; [by right|]. simpl. rewrite Hf.
      exists (pre +:+ Js.newline +:+ n), cell. split; [done|].
      rewrite Hlen, length_append, length_newline. lia.
    + exists pos. by rewrite createSerializableRange_eta.
    + done.
    + unfold executedText. simpl. rewrite Hf, Hnew.
      replace (Js.length pre + 1 + Js.length (Js.newline +:+ n) - 1)
        with (Js.length (pre +:+ Js.newline +:+ n))
        by (rewrite Hlen, length_append, length_newline; lia).
      apply substr_take_prefix.
    + unfold editCellText. simpl. rewrite Hnew, <- (append_assoc _ Js.newline cell).
      replace (Js.length pre + 1 + Js.length (Js.newline +:+ n))
        with (Js.length ((pre +:+ Js.newline +:+ n) +:+ Js.newline))
        by (rewrite length_append, Hlen, !length_append, !length_newline; lia).
      apply substr_drop_prefix.
    + simpl. done.
    + simpl. done.
Qed.

Lemma editLines_cons d change changes :
  editLines (change :: changes) d =
  (if _firstEdit d then editLinesFirst else editLinesAtOffset)
    change (Js.removeCR (edit_text change)) (set_version (_version d + 1) d).
Proof.
  unfold editLines at 1. unfold mbind, M_bind, this, assign. simpl.
  by destruct (_firstEdit d).
Qed.

Lemma placed_set_version v d : placed d → placed (set_version v d).
Proof. by intros [[Hu | Hl] Hshape]; (split; [by (left + right) | done]). Qed.

Lemma editLinesFirst_placed d change :
  placed d → _firstEdit d = true →
  let typed := Js.removeCR (edit_text change) in
  let r := editLinesFirst change typed d in
  placed r.1 ∧
  (∃ range, r.2 = Ok [ {| change_range := range;
                          change_rangeOffset := Js.length (_contents d);
                          change_rangeLength := edit_rangeLength change;
                          change_text := Js.newline +:+ typed |} ]) ∧
  _contents r.1 = _contents d +:+ Js.newline +:+ typed ∧
  executedText r.1 = executedText d ∧
  editCellText r.1 = typed ∧
  _editOffset r.1 = _editOffset d + 1 ∧
  _firstEdit r.1 = false ∧
  _version r.1 = _version d.
Proof.
  intros [Hd Hshape] Hf typed r. subst r. rewrite Hf in Hshape.
  destruct (texts_before_edit d Hf Hshape) as [Hex Hcell].
  run_method. rewrite Hshape.
  set (d2 := set_lines _ _).
  assert (Hd2 : indexed d2) by (by right).
  assert (Hc2 : _contents d2 = _contents d +:+ Js.newline +:+ typed) by done.
  pose proof (length_nonneg (_contents d)). pose proof (length_nonneg typed).
  destruct (indexed_convertible d2 (Js.length (_contents d)) Hd2) as (p0 & -> & _).
  { unfold validOffset. rewrite Hc2, !length_append, length_newline. lia. }
  destruct (indexed_convertible d2 (Js.length (_contents d) + Js.length (Js.newline +:+ typed)) Hd2)
    as (p1 & -> & _).
  { unfold validOffset. rewrite Hc2, !length_append, length_newline. lia. }
  simpl.
  split; [|split; [|split; [|split; [|split; [|split; [|split]]]]]]; try done.
  - split; [done|]. simpl. exists (_contents d), typed. done.
  - eauto.
  - rewrite Hex. eapply texts_after_edit; [done | apply Hc2 | simpl; lia].
  - eapply texts_after_edit; [done | apply Hc2 | simpl; lia].
Qed.

Lemma editLinesAtOffset_placed d change :
  placed d → _firstEdit d = false → oneBased change →
  let typed := Js.removeCR (edit_text change) in
  let cell := editCellText d in
  let base := computePosition d (_editOffset d) in
  let r := editLinesAtOffset change typed d in
  ∃ ln f t,
    base = Ok {| line := ln; character := 0 |} ∧
    convertToOffset (standalone cell)
      {| line := startLineNumber (edit_range change) - 1;
         character := startColumn (edit_range change) - 1 |} = Ok f ∧
    convertToOffset (standalone cell)
      {| line := endLineNumber (edit_range change) - 1;
         character := endColumn (edit_range change) - 1 |} = Ok t ∧
    0 ≤ f ∧ 0 ≤ t ∧
    r.2 = Ok [ {| change_range :=
                    {| range_start :=
                         {| line := ln + startLineNumber (edit_range change) - 1;
                            character := startColumn (edit_range change) - 1 |};
                       range_end :=
                         {| line := ln + endLineNumber (edit_range change) - 1;
                            character := endColumn (edit_range change) - 1 |} |};
                  change_rangeOffset := _editOffset d + f;
                  change_rangeLength := t - f;
                  change_text := typed |} ] ∧
    placed r.1 ∧
    executedText r.1 = executedText d ∧
    editCellText r.1 =
      Js.substr cell 0 (Some f) +:+ typed +:+ Js.substr cell t None ∧
    _editOffset r.1 = _editOffset d ∧
    _firstEdit r.1 = false ∧
    _version r.1 = _version d.
Proof.
  intros [Hd Hshape] Hf (Hsl & Hsc & Hel & Hec) typed cell base r.
  subst r base cell. rewrite Hf in Hshape. destruct Hshape as (pre & body & Hc & Ho).
  destruct (texts_after_edit d pre body Hf Hc Ho) as [Hex Hcell].
  assert (Hl : _lines d = createLines (_contents d)).
  { destruct Hd as [(_ & _ & _ & Hu) | Hl]; [congruence | done]. }
  set (ln := Z.of_nat (length (splitLines pre))).
  pose proof (computePosition_editOffset d pre body Hl Hc) as Hbase.
  rewrite <- Ho in Hbase. fold ln in Hbase.
  destruct (convertToOffset_in_cell d pre body
              (startLineNumber (edit_range change) - 1)
              (startColumn (edit_range change) - 1) Hl Hc) as (f & Hf0 & Hf1 & Hf2); [lia|].
  destruct (convertToOffset_in_cell d pre body
              (endLineNumber (edit_range change) - 1)
              (endColumn (edit_range change) - 1) Hl Hc) as (t & Ht0 & Ht1 & Ht2); [lia|].
  fold ln in Hf1, Ht1. specialize (Hf2 ltac:(lia)). specialize (Ht2 ltac:(lia)).
  exists ln, f, t. rewrite Hcell.
  split; [done|]. split; [done|]. split; [done|]. split; [done|]. split; [done|].
  run_method. rewrite Hbase. simpl.
  assert (Hln : 0 ≤ ln) by (unfold ln; lia).
  unfold newPosition.
  destruct (Z.ltb_spec (ln + startLineNumber (edit_range change) - 1) 0); [lia|].
  destruct (Z.ltb_spec (startColumn (edit_range change) - 1) 0); [lia|].
  destruct (Z.ltb_spec (ln + endLineNumber (edit_range change) - 1) 0); [lia|].
  destruct (Z.ltb_spec (endColumn (edit_range change) - 1) 0); [lia|].
  simpl.
  replace (ln + startLineNumber (edit_range change) - 1)
    with (ln + (startLineNumber (edit_range change) - 1)) by lia.
  replace (ln + endLineNumber (edit_range change) - 1)
    with (ln + (endLineNumber (edit_range change) - 1)) by lia.
  rewrite Hf1, Ht1. simpl.
  assert (Hbefore : Js.substr (_contents d) 0 (Some (Js.length pre + 1 + f)) =
                    pre +:+ Js.newline +:+ Js.substr body 0 (Some f)).
  { rewrite Hc, <- append_assoc.
    replace (Js.length pre + 1) with (Js.length (pre +:+ Js.newline))
      by (by rewrite length_append, length_newline).
    rewrite substr_take_app by done. by rewrite append_assoc. }
  assert (Hafter : Js.substr (_contents d) (Js.length pre + 1 + t) None =
                   Js.substr body t None).
  { rewrite Hc, <- append_assoc.
    replace (Js.length pre + 1) with (Js.length (pre +:+ Js.newline))
      by (by rewrite length_append, length_newline).
    by rewrite substr_drop_app. }
  rewrite Hbefore, Hafter.
  set (body' := Js.substr body 0 (Some f) +:+ typed +:+ Js.substr body t None).
  assert (Hnew : (pre +:+ Js.newline +:+ Js.substr body 0 (Some f)) +:+ typed +:+
                 Js.substr body t None = pre +:+ Js.newline +:+ body')
    by (unfold body'; by rewrite !append_assoc).
  rewrite Hnew.
  split; [|split; [|split; [|split; [|split; [|split]]]]]; try done.
  - rewrite createSerializableRange_eta, Ho.
    by replace (Js.length pre + 1 + t - (Js.length pre + 1 + f)) with (t - f) by lia.
  - split; [by right|]. simpl. rewrite Hf. exists pre, body'. done.
  - rewrite Hex. eapply texts_after_edit; [done | reflexivity | done].
  - eapply texts_after_edit; [done | reflexivity | done].
Qed.

Lemma perform_placed m d : placed d → fromEditor m → placed (perform m d).1.
Proof.
  intros Hd Hm. destruct m as [code | [|change changes]].
  - apply (addLines_placed d code Hd).
  - by apply placed_set_version.
  - unfold perform. rewrite editLines_cons.
    pose proof (placed_set_version (_version d + 1) d Hd) as Hd'.
    destruct (_firstEdit d) eqn:Hf.
    + by apply (editLinesFirst_placed _ change Hd').
    + destruct (editLinesAtOffset_placed _ change Hd' Hf Hm)
        as (ln & f & t & _ & _ & _ & _ & _ & _ & Hplaced & _). done.
Qed.

Lemma newDocument_placed fileName : placed (newDocument fileName).
Proof. split; [left; apply newDocument_untouched | done]. Qed.

Lemma after_placed ms d : placed d → Forall fromEditor ms → placed (after ms d).
Proof.
  revert d. induction ms as [|m ms IH]; intros d Hd Hms; [done|].
  inversion Hms; subst. rewrite after_cons. apply IH; [|done]. by apply perform_placed.
Qed.

Lemma placed_text d :
  placed d →
  _contents d = executedText d +:+
                (if _firstEdit d then EmptyString else Js.newline +:+ editCellText d) ∧
  _editOffset d = Js.length (executedText d) + (if _firstEdit d then 0 else 1) ∧
  (_firstEdit d = true → editCellText d = EmptyString).
Proof.
  intros [Hd Hshape]. destruct (_firstEdit d) eqn:Hf.
  - destruct (texts_before_edit d Hf Hshape) as [-> ->].
    rewrite append_empty_r. split; [done|]. split; [lia | done].
  - destruct Hshape as (pre & cell & Hc & Ho).
    destruct (texts_after_edit d pre cell Hf Hc Ho) as [-> ->]. done.
Qed.

Lemma newDocument_appendsAtEnd fileName : appendsAtEnd (newDocument fileName).
Proof. split; [left; apply newDocument_untouched | done]. Qed.

(** What a mutation returns describes what it did; a mutation that throws
    has left the text as it was. *)
Lemma perform_replay m d :
  appendsAtEnd d → sizedChange m →
  appendsAtEnd (perform m d).1 ∧
  match (perform m d).2 with
  | Ok changes => fold_left applyChange changes (_contents d) = _contents (perform m d).1
  | Throw _ => _contents (perform m d).1 = _contents d
  end.
Proof.
  intros [Hd Hend] Hm. split.
  { split; [by apply perform_indexed|]. intros Hf'.
    destruct m as [code | [|change changes]].
    - unfold perform in *. rewrite addLines_firstEdit in Hf'. specialize (Hend Hf').
      assert (Hp : placed d) by (split; [done | by rewrite Hf']).
      destruct (addLines_placed d code Hp) as ([_ Hshape] & _ & _ & _ & _ & _ & Hflag).
      rewrite Hflag, Hf' in Hshape. done.
    - simpl in *. auto.
    - unfold perform in Hf'. by rewrite editLines_firstEdit in Hf'. }
  destruct m as [code | [|change changes]].
  - unfold perform. run_method.
    destruct (computePosition _ _) as [pos|e]; simpl; [|done].
    unfold applyChange. simpl. by rewrite Z.add_0_r.
  - done.
  - unfold perform. rewrite editLines_cons. destruct (_firstEdit d) eqn:Hf.
    + assert (Hp : placed (set_version (_version d + 1) d)).
      { split; [destruct Hd as [Hd|Hd]; by (left + right)|]. simpl. rewrite Hf. auto. }
      destruct (editLinesFirst_placed _ change Hp Hf)
        as (_ & (range & ->) & Hc & _). simpl in Hc |- *. rewrite Hc.
      unfold applyChange. simpl. simpl in Hm.
      rewrite substr_take_all, substr_drop_all by lia.
      by rewrite append_empty_r.
    + run_method.
      destruct (computePosition _ _) as [editPos|]; simpl; [|done].
      destruct (newPosition _ _) as [from|]; simpl; [|done].
      destruct (newPosition _ _) as [to|]; simpl; [|done].
      destruct (convertToOffset _ from) as [fromOffset|]; simpl; [|done].
      destruct (convertToOffset _ to) as [toOffset|]; simpl; [|done].
      unfold applyChange. simpl.
      by replace (fromOffset + (toOffset - fromOffset)) with toOffset by lia.
Qed.

(** Until the first edit no mutation throws. *)
Lemma perform_before_first_edit m d :
  appendsAtEnd d → _firstEdit d = true → ∃ changes, (perform m d).2 = Ok changes.
Proof.
  intros [Hd Hend] Hf. specialize (Hend Hf).
  assert (Hp : placed d) by (split; [done | by rewrite Hf]).
  destruct m as [code | [|change changes]].
  - unfold perform. destruct (addLines_placed d code Hp) as (_ & (pos & -> & _) & _). eauto.
  - simpl. eauto.
  - unfold perform. rewrite editLines_cons, Hf.
    destruct (editLinesFirst_placed _ change
                (placed_set_version (_version d + 1) d Hp) Hf)
      as (_ & (range & ->) & _). eauto.
Qed.

Section Following.
Variable PYTHON_LANGUAGE : string.
Variable toString : Uri.t → string.

Lemma deliver_document m s d :
  sync_document s = Some d →
  sync_document (deliver PYTHON_LANGUAGE toString true m s).1 = Some (perform (mutationOf m) d).1.
Proof.
  intros Hs. destruct m as [request | request]; simpl;
    unfold addCell, editCell, broadcast; rewrite Hs;
    (destruct (addLines _ d) as [d' [changes|e]] || destruct (editLines _ d) as [d' [changes|e]]);
    simpl; try done; by destruct (sentOpenDocument s).
Qed.

Lemma deliver_following m s mirror :
  following s mirror → sizedChange (mutationOf m) →
  let r := deliver PYTHON_LANGUAGE toString true m s in
  sentOpenDocument r.1 = true ∧
  following r.1 (match r.2 with
                 | Ok (Some n) => receive mirror n
                 | _ => mirror
                 end) ∧
  match r.2 with
  | Ok (Some n) =>
      isChange n = sentOpenDocument s ∧
      ∃ d, sync_document s = Some d ∧ notifiedVersion n = version d + 1
  | Ok None => False
  | Throw _ => sentOpenDocument s = true
  end.
Proof.
  intros (d & Hs & Hd & Hmirror) Hm r.
  destruct (perform_replay (mutationOf m) d Hd Hm) as [Hd' Hreplay].
  pose proof (perform_version (mutationOf m) d) as Hv.
  assert (Hr : r = match perform (mutationOf m) d with
                   | (d', Ok changes) =>
                       broadcast PYTHON_LANGUAGE toString true changes
                         {| sync_document := Some d'; sentOpenDocument := sentOpenDocument s |}
                   | (d', Throw e) =>
                       ({| sync_document := Some d'; sentOpenDocument := sentOpenDocument s |},
                        Throw e)
                   end).
  { subst r. destruct m as [request | request]; simpl; unfold addCell, editCell; by rewrite Hs. }
  rewrite Hr. clear Hr r.
  destruct (perform (mutationOf m) d) as [d' [changes|e]] eqn:Hperform; simpl in *.
  - unfold broadcast. simpl. destruct (sentOpenDocument s) eqn:Hsent; simpl.
    + destruct Hmirror as (mr & -> & Htext & Hver). split; [done|]. split.
      * exists d'. split; [done|]. split; [done|]. simpl.
        eexists. split; [reflexivity|]. simpl. rewrite Htext. split; [done | lia].
      * split; [done|]. exists d. split; [done|]. simpl. done.
    + destruct Hmirror as [-> Hf]. split; [done|]. split.
      * exists d'. split; [done|]. split; [done|]. simpl.
        eexists. split; [reflexivity|]. simpl. split; [done | lia].
      * split; [done|]. exists d. split; [done|]. simpl. done.
  - destruct (sentOpenDocument s) eqn:Hsent.
    + destruct Hmirror as (mr & -> & Htext & Hver). split; [done|]. split; [|done].
      exists d'. split; [done|]. split; [done|]. simpl.
      eexists. split; [reflexivity|]. rewrite Hreplay. split; [done | lia].
    + destruct Hmirror as [-> Hf].
      destruct (perform_before_first_edit (mutationOf m) d Hd Hf) as [changes Hok].
      rewrite Hperform in Hok. done.
Qed.

End Following.

Lemma perform_uri m d : _uri (perform m d).1 = _uri d.
Proof.
  destruct m as [code | [|change changes]]; run_method.
  - by destruct (computePosition _ _).
  - done.
  - destruct (_firstEdit d); simpl; repeat (case_match; simpl; auto).
Qed.

Section First.
Variable PYTHON_LANGUAGE : string.
Variable toString : Uri.t → string.

(** The first notification opens the document with what the mutation
    left. *)
Lemma deliver_first m s d d' changes :
  sync_document s = Some d → sentOpenDocument s = false →
  perform (mutationOf m) d = (d', Ok changes) →
  deliver PYTHON_LANGUAGE toString true m s =
  ({| sync_document := Some d'; sentOpenDocument := true |},
   Ok (Some (DidOpenTextDocument
               {| item_uri := toString (_uri d');
                  item_languageId := PYTHON_LANGUAGE;
                  item_version := version d';
                  item_text := _contents d' |}))).
Proof.
  intros Hs Hsent Hp.
  destruct m as [request | request]; simpl in *; unfold addCell, editCell;
    rewrite Hs, Hp; unfold broadcast; simpl; by rewrite Hsent.
Qed.

End First.

Section FollowingAll.
Variable PYTHON_LANGUAGE : string.
Variable toString : Uri.t → string.

Lemma deliverAll_cons m ms s :
  deliverAll PYTHON_LANGUAGE toString true (m :: ms) s =
  let r := deliver PYTHON_LANGUAGE toString true m s in
  let rs := deliverAll PYTHON_LANGUAGE toString true ms r.1 in
  (rs.1, match r.2 with Ok (Some n) => n :: rs.2 | _ => rs.2 end).
Proof.
  cbn [deliverAll]. destruct (deliver PYTHON_LANGUAGE toString true m s) as [s' sent]. cbn [fst snd].
  by destruct (deliverAll PYTHON_LANGUAGE toString true ms s') as [s'' later].
Qed.

Lemma deliverAll_document ms s d :
  sync_document s = Some d →
  sync_document (deliverAll PYTHON_LANGUAGE toString true ms s).1 =
  Some (after (map mutationOf ms) d).
Proof.
  revert s d. induction ms as [|m ms IH]; intros s d Hs; [done|].
  rewrite deliverAll_cons. cbn [fst].
  change (after (map mutationOf (m :: ms)) d)
    with (after (map mutationOf ms) (perform (mutationOf m) d).1).
  apply IH. by apply deliver_document.
Qed.

Lemma deliverAll_following ms s mirror :
  following s mirror → Forall (fun m => sizedChange (mutationOf m)) ms →
  let r := deliverAll PYTHON_LANGUAGE toString true ms s in
  following r.1 (fold_left receive r.2 mirror) ∧
  (ms ≠ [] → sentOpenDocument r.1 = true).
Proof.
  revert s mirror. induction ms as [|m ms IH]; intros s mirror Hs Hms; [done|].
  inversion Hms as [|? ? Hm Hrest]; subst.
  rewrite deliverAll_cons.
  destruct (deliver_following PYTHON_LANGUAGE toString m s mirror Hs Hm) as (Hopen & Hnext & Hsent).
  destruct (deliver PYTHON_LANGUAGE toString true m s) as [s' [[n|]|e]]; simpl in *; [|done|].
  - destruct (IH s' (receive mirror n) Hnext Hrest) as [Hfollow Hkeep].
    split; [done|]. intros _. destruct ms as [|m' ms]; [done|]. by apply Hkeep.
  - destruct (IH s' mirror Hnext Hrest) as [Hfollow Hkeep].
    split; [done|]. intros _. destruct ms as [|m' ms]; [done|]. by apply Hkeep.
Qed.

(** Once the document is open every notification is a change, and the
    versions grow from the version of the document. *)
Lemma deliverAll_changes ms s d :
  sync_document s = Some d → appendsAtEnd d → sentOpenDocument s = true →
  Forall (fun m => sizedChange (mutationOf m)) ms →
  let r := deliverAll PYTHON_LANGUAGE toString true ms s in
  Forall (fun n => isChange n = true) r.2 ∧ growingFrom (version d) r.2.
Proof.
  revert s d. induction ms as [|m ms IH]; intros s d Hs Hd Hopen Hms; [done|].
  inversion Hms as [|? ? Hm Hrest]; subst.
  rewrite deliverAll_cons.
  assert (Hfollow : following s (Some {| mirror_text := _contents d;
                                         mirror_version := version d |})).
  { exists d. split; [done|]. split; [done|]. rewrite Hopen. eexists. split; [done|].
    simpl. split; [done | lia]. }
  destruct (deliver_following PYTHON_LANGUAGE toString m s _ Hfollow Hm) as (Hopen' & _ & Hsent).
  pose proof (deliver_document PYTHON_LANGUAGE toString m s d Hs) as Hdoc.
  destruct (perform_replay (mutationOf m) d Hd Hm) as [Hd' _].
  pose proof (perform_version (mutationOf m) d) as Hv.
  destruct (IH _ _ Hdoc Hd' Hopen' Hrest) as [Hall Hgrow].
  destruct (deliver PYTHON_LANGUAGE toString true m s) as [s' [[n|]|e]]; simpl in *; [|done|].
  - destruct Hsent as [Hchange (d0 & Hd0 & Hn)].
    rewrite Hs in Hd0. injection Hd0 as <-. rewrite Hopen in Hchange.
    split; [by constructor|]. split; [lia|]. by rewrite Hn, <- Hv.
  - split; [done|].
    clear -Hgrow Hv. destruct (deliverAll _ _ _ _ _).2 as [|n ns]; [done|].
    simpl in *. split; [lia | apply Hgrow].
Qed.

End FollowingAll.

(** X9. The receiver of the notifications has the text of the document.
    Messages that append code and messages that edit the cell are handled
    one after the other, the client being there, from a new document that
    was not opened yet. If the editor's replaced lengths are not negative,
    then as soon as one message was handled the copy that a receiver builds
    from the notifications alone (the text of the open notification, then
    every change record applied by its offset and length) is the text of
    the document, whatever the edits were and even where an edit threw;
    the version it holds is at most the version of the document. *)
Theorem mirror_follows_document (PYTHON_LANGUAGE : string)
    (toString : Uri.t → string) (fileName : string) (ms : list CellMessage) :
  Forall (fun m => sizedChange (mutationOf m)) ms → ms ≠ [] →
  let start := {| sync_document := Some (newDocument fileName);
                  sentOpenDocument := false |} in
  let d := after (map mutationOf ms) (newDocument fileName) in
  let r := deliverAll PYTHON_LANGUAGE toString true ms start in
  sync_document r.1 = Some d ∧
  sentOpenDocument r.1 = true ∧
  ∃ m, fold_left receive r.2 None = Some m ∧
       mirror_text m = _contents d ∧
       mirror_version m ≤ version d.
Proof.
  intros Hms Hne start d r.
  assert (Hstart : following start None).
  { exists (newDocument fileName). split; [done|].
    split; [apply newDocument_appendsAtEnd | done]. }
  pose proof (deliverAll_document PYTHON_LANGUAGE toString ms start _ eq_refl) as Hdoc.
  destruct (deliverAll_following PYTHON_LANGUAGE toString ms start None Hstart Hms)
    as [(d' & Hd' & _ & Hmirror) Hopen].
  fold r in Hdoc, Hd', Hmirror, Hopen. specialize (Hopen Hne).
  rewrite Hopen in Hmirror. rewrite Hdoc in Hd'. injection Hd' as <-.
  split; [done|]. split; [done|]. done.
Qed.

(** X10. One open, then changes. Under the same conditions the first
    notification is the opening of the document, sent for the first
    message: it carries the uri that [Uri.file] made of the file name, as
    the host's [toString] writes it, the language id, version 1 and the
    text that this message left. Every later notification is a change, and
    the versions of the notifications grow strictly. *)
Theorem one_open_then_changes (PYTHON_LANGUAGE : string)
    (toString : Uri.t → string) (fileName : string)
    (m : CellMessage) (ms : list CellMessage) :
  Forall (fun m => sizedChange (mutationOf m)) (m :: ms) →
  let start := {| sync_document := Some (newDocument fileName);
                  sentOpenDocument := false |} in
  let d1 := (perform (mutationOf m) (newDocument fileName)).1 in
  let r := deliverAll PYTHON_LANGUAGE toString true (m :: ms) start in
  ∃ later,
    r.2 = DidOpenTextDocument {| item_uri := toString (Uri.file fileName);
                                 item_languageId := PYTHON_LANGUAGE;
                                 item_version := 1;
                                 item_text := _contents d1 |} :: later ∧
    Forall (fun n => isChange n = true) later ∧
    growingFrom 1 later.
Proof.
  intros Hms start d1 r. inversion Hms as [|? ? Hm Hrest]; subst.
  subst r. rewrite deliverAll_cons.
  pose proof (newDocument_appendsAtEnd fileName) as Hnew.
  destruct (perform_before_first_edit (mutationOf m) (newDocument fileName) Hnew eq_refl)
    as [changes Hok].
  destruct (perform_replay (mutationOf m) (newDocument fileName) Hnew Hm) as [Hd1 _].
  pose proof (perform_version (mutationOf m) (newDocument fileName)) as Hv.
  assert (Hr : deliver PYTHON_LANGUAGE toString true m start =
               ({| sync_document := Some d1; sentOpenDocument := true |},
                Ok (Some (DidOpenTextDocument
                            {| item_uri := toString (Uri.file fileName);
                               item_languageId := PYTHON_LANGUAGE;
                               item_version := 1;
                               item_text := _contents d1 |})))).
  { pose proof (perform_uri (mutationOf m) (newDocument fileName)) as Huri.
    fold d1 in Hv, Huri. simpl in Hv, Huri.
    rewrite (deliver_first PYTHON_LANGUAGE toString m start (newDocument fileName) d1 changes);
      [by rewrite Huri, Hv | done | done |].
    subst d1. by destruct (perform _ _) as [d' o]; simpl in *; subst. }
  rewrite Hr. simpl.
  eexists. split; [reflexivity|].
  assert (Hv1 : version d1 = 1) by (subst d1; by rewrite Hv).
  rewrite <- Hv1.
  by apply (deliverAll_changes PYTHON_LANGUAGE toString ms
              {| sync_document := Some d1; sentOpenDocument := true |} d1).
Qed.

(** ** positionAt *)


Lemma countLF_hasLF s : Js.countLF s = 0%nat ↔ Js.hasLF s = false.
Proof.
  induction s as [|c s IH]; simpl; [done|].
  destruct (Ascii.eqb c Js.LF); simpl; [split; [lia | done] | done].
Qed.

Lemma countLF_app a b : Js.countLF (a +:+ b) = (Js.countLF a + Js.countLF b)%nat.
Proof.
  induction a as [|c a IH]; [done|]. rewrite append_cons. simpl.
  destruct (Ascii.eqb c Js.LF); lia.
Qed.

(** A text with a line feed is cut at its last one. *)
Lemma last_line_feed s :
  Js.countLF s ≠ 0%nat →
  ∃ a b, s = a +:+ Js.newline +:+ b ∧ Js.hasLF b = false ∧
         Js.countLF s = S (Js.countLF a).
Proof.
  induction s as [|c s IH]; [done|]. intros Hs.
  destruct (decide (Js.countLF s = 0%nat)) as [Hz|Hnz].
  - simpl in Hs. destruct (Ascii.eqb c Js.LF) eqn:Hc; [|done].
    apply Ascii.eqb_eq in Hc as ->.
    exists EmptyString, s. split; [done|]. split; [by apply countLF_hasLF|].
    simpl. by rewrite Hz.
  - destruct (IH Hnz) as (a & b & -> & Hb & Hcount).
    exists (String c a), b. split; [by rewrite append_cons|]. split; [done|].
    simpl in *. destruct (Ascii.eqb c Js.LF); lia.
Qed.

Lemma hasLF_app a b : Js.hasLF (a +:+ b) = Js.hasLF a || Js.hasLF b.
Proof.
  induction a as [|c a IH]; [done|]. rewrite append_cons. simpl.
  by rewrite IH, orb_assoc.
Qed.

(** Among the code units of a text the line terminators are the line
    feed and the carriage return. *)
Lemma isLineTerminator_LF_CR c :
  Js.isLineTerminator c = Ascii.eqb c Js.LF || Ascii.eqb c Js.CR.
Proof. destruct c as [[] [] [] [] [] [] [] []]; vm_compute; reflexivity. Qed.


Lemma hasOtherTerminator_CR s : Js.hasOtherTerminator s = Js.hasCR s.
Proof.
  induction s as [|c s IH]; simpl; [done|]. rewrite IH, isLineTerminator_LF_CR.
  destruct (Ascii.eqb c Js.LF) eqn:Hc; simpl; [|by rewrite andb_true_r].
  apply Ascii.eqb_eq in Hc as ->. reflexivity.
Qed.

(** The text of the document holds line feeds and no other line
    terminator. *)
Lemma after_line_feeds_only fileName ms :
  Js.hasOtherTerminator (_contents (after ms (newDocument fileName))) = false.
Proof. rewrite hasOtherTerminator_CR. apply after_no_CR. Qed.








(** The first line of a text that starts with a piece without line feed
    starts with that piece. *)
Lemma splitLines_prefix a b :
  Js.hasLF a = false →
  ∃ piece pieces, splitLines b = piece :: pieces ∧
                  splitLines (a +:+ b) = (a +:+ piece) :: pieces.
Proof.
  induction a as [|c a IH]; intros Ha.
  - destruct (splitLines b) as [|p ps] eqn:Hb; [by apply splitLines_nonempty in Hb|].
    exists p, ps. by rewrite append_nil_l.
  - simpl in Ha. apply orb_false_elim in Ha as [Hc Ha].
    destruct (IH Ha) as (p & ps & Hb & Hab). exists p, ps. split; [done|].
    rewrite append_cons. simpl. by rewrite Hc, Hab.
Qed.

Lemma createLines_first_line a b :
  Js.hasLF a = false →
  ∃ l, createLines (a +:+ b) !! 0%nat = Some l ∧ offset l = 0 ∧
       Js.length a ≤ Js.length (text l).
Proof.
  intros Ha. destruct (splitLines_prefix a b Ha) as (p & ps & _ & Hab).
  unfold createLines. rewrite Hab. simpl. eexists. split; [reflexivity|].
  simpl. split; [done|]. rewrite length_append. pose proof (length_nonneg p). lia.
Qed.

(** Where [computePosition] puts an offset: on the line that counts the
    line feeds before the offset, as many characters in as follow the last
    of them. *)
Lemma computePosition_by_text d o :
  _lines d = createLines (_contents d) → validOffset d o →
  let before := Js.substr (_contents d) 0 (Some o) in
  (Js.hasLF before = false ∧
   computePosition d o = Ok {| line := 0; character := o |}) ∨
  (∃ a b, before = a +:+ Js.newline +:+ b ∧ Js.hasLF b = false ∧
          computePosition d o =
          Ok {| line := Z.of_nat (Js.countLF before); character := Js.length b |}).
Proof.
  intros Hl [Ho0 Ho1] before.
  assert (Hd : indexed d) by (by right).
  pose proof (substr_take_drop (_contents d) o Ho0) as Hcut. fold before in Hcut.
  pose proof (length_substr_take (_contents d) o (conj Ho0 Ho1)) as Hlen. fold before in Hlen.
  destruct (decide (Js.countLF before = 0%nat)) as [Hz|Hnz].
  - left. apply countLF_hasLF in Hz. split; [done|].
    destruct (createLines_first_line before (Js.substr (_contents d) o None) Hz)
      as (l & Hline & Hoff & Htext).
    rewrite Hcut, <- Hl in Hline.
    destruct (convertToOffset_computePosition d 0 l o Hd Hline) as [_ Hpos]; [lia|].
    rewrite Hoff in Hpos. simpl in Hpos. done.
  - right. destruct (last_line_feed before Hnz) as (a & b & Hab & Hb & Hcount).
    exists a, b. split; [done|]. split; [done|].
    destruct (createLines_first_line b (Js.substr (_contents d) o None) Hb)
      as (l & Hline & Hoff & Htext).
    pose proof (lookup_cell_line a (b +:+ Js.substr (_contents d) o None) 0) as Hcell.
    rewrite Hline in Hcell. simpl in Hcell.
    rewrite <- !append_assoc in Hcell. rewrite (append_assoc a) in Hcell.
    rewrite <- Hab, Hcut, <- Hl, Nat.add_0_r in Hcell.
    pose proof (length_nonneg b).
    destruct (convertToOffset_computePosition d _ _ (Js.length b) Hd Hcell) as [_ Hpos].
    { simpl. lia. }
    simpl in Hpos. rewrite Hoff in Hpos.
    replace (Js.length a + 1 + 0 + Js.length b) with o in Hpos.
    + rewrite Hpos. do 2 f_equal. rewrite Hcount, length_splitLines. done.
    + rewrite <- Hlen, Hab, !length_append, length_newline. lia.
Qed.



(** ** Reading a line back *)

Lemma substr_middle_app a s n :
  Js.substr (a +:+ s) (Js.length a) (Some n) = Js.substr s 0 (Some n).
Proof.
  unfold Js.substr. rewrite length_append. pose proof (length_nonneg a).
  destruct (Z.ltb_spec (Js.length a) 0); [lia|]. destruct (Z.ltb_spec 0 0); [lia|].
  replace (Js.length a + Js.length s - Js.length a) with (Js.length s - 0) by lia.
  destruct (Z.leb_spec (Z.min (Z.max n 0) (Js.length s - 0)) 0); [done|].
  unfold Js.length at 1. rewrite Nat2Z.id.
  rewrite <- (Nat.add_0_r (String.length a)). apply substring_app_r.
Qed.

(** Where a line record lies in the text joined from the pieces. *)
Lemma linesFrom_text split i off (k : nat) l :
  linesFrom split i off !! k = Some l →
  ∃ a b, String.concat Js.newline split = a +:+ text l +:+ b ∧
         off + Js.length a = offset l ∧
         b = if bool_decide (S k < length split)%nat
             then Js.newline +:+ String.concat Js.newline (drop (S k) split)
             else EmptyString.
Proof.
  revert i off k. induction split as [|s rest IH]; intros i off k; [done|].
  destruct k as [|k]; simpl linesFrom; simpl lookup.
  - intros [= <-]. simpl text. simpl offset. exists EmptyString.
    destruct rest as [|s' rest].
    + exists EmptyString. simpl. rewrite append_empty_r. split; [done|].
      split; [unfold Js.length; simpl; lia | done].
    + eexists. rewrite concat_cons, append_nil_l. split; [reflexivity|].
      split; [unfold Js.length; simpl; lia|]. rewrite bool_decide_eq_true_2 by (simpl; lia). done.
  - intros Hl. destruct (IH _ _ _ Hl) as (a & b & Hcat & Hoff & Hb).
    destruct rest as [|s' rest]; [done|].
    exists (s +:+ Js.newline +:+ a), b. rewrite concat_cons, Hcat.
    split; [by rewrite !append_assoc|]. split.
    + rewrite !length_append, length_newline. lia.
    + rewrite Hb. simpl length. simpl drop.
      destruct (bool_decide (S k < S (length rest))%nat) eqn:H1;
        [rewrite bool_decide_eq_true_2 | rewrite bool_decide_eq_false_2]; try done;
        [apply bool_decide_eq_true in H1 | apply bool_decide_eq_false in H1]; lia.
Qed.

(** X11. Reading a line back. After any sequence of appends and edits on a
    new document, [getText] of the range of a line is the text of that
    line, and [getText] of its range with the line break is that text
    followed by a line feed, except for the last line, where it is the text
    alone. *)
Theorem getText_of_a_line (fileName : string) (ms : list Mutation)
    (k : nat) (l : HistoryLine) :
  let d := after ms (newDocument fileName) in
  _lines d !! k = Some l →
  getText d (Some (range l)) = Ok (text l) ∧
  getText d (Some (rangeIncludingLineBreak l)) =
    Ok (text l +:+ (if bool_decide (S k < length (_lines d))%nat
                    then Js.newline else EmptyString)).
Proof.
  intros d Hline.
  assert (Hd : indexed d) by (apply after_indexed; left; apply newDocument_untouched).
  destruct Hd as [(Hl & _) | Hl]; [by rewrite Hl in Hline|].
  pose proof (createLines_numbered (_contents d) k l ltac:(by rewrite <- Hl)) as Hnum.
  pose proof Hline as Hline'. rewrite Hl, createLines_linesFrom in Hline'.
  destruct (linesFrom_text _ _ _ _ _ Hline') as (a & b & Hcat & Hoff & Hb).
  rewrite concat_splitLines in Hcat. simpl in Hoff.
  assert (Hlen : length (_lines d) = length (splitLines (_contents d)))
    by (by rewrite Hl, length_createLines).
  pose proof (lookup_lt_Some _ _ _ Hline) as Hk.
  assert (Hconv : ∀ ch, convertToOffset d {| line := lineNumber l; character := ch |}
                        = Ok (Js.length a + ch)).
  { intros ch. unfold convertToOffset. simpl. rewrite Hnum.
    destruct (Z.ltb_spec (Z.of_nat k) (Z.of_nat (length (_lines d)))); [|lia].
    rewrite lineAtIndex_nat, Hline. f_equal. lia. }
  unfold getText, range, rangeIncludingLineBreak. simpl. rewrite !Hconv. simpl.
  rewrite Hcat. split.
  - replace (Js.length a + Js.length (text l) - (Js.length a + 0))
      with (Js.length (text l)) by lia.
    rewrite Z.add_0_r, substr_middle_app. f_equal. apply substr_take_prefix.
  - replace (Js.length a + (Js.length (text l) + 1) - (Js.length a + 0))
      with (Js.length (text l) + 1) by lia.
    rewrite Z.add_0_r, substr_middle_app, substr_take_app by lia. do 2 f_equal.
    rewrite Hb, Hlen.
    destruct (bool_decide (S k < length (splitLines (_contents d)))%nat).
    + change 1 with (Js.length Js.newline). apply substr_take_prefix.
    + apply substr_empty.
Qed.

(** X12. Counting lines. Once a mutation changed the text, the number of
    lines is the number of line feeds of the text plus 1, and [lineAt]
    finds a line exactly for the numbers from 0 up to that count, the same
    line for a number and for a position on that line. *)
Theorem lineCount_counts_line_feeds (fileName : string) (ms : list Mutation) :
  let d := after ms (newDocument fileName) in
  existsb isEffective ms = true →
  lineCount d = Z.of_nat (Js.countLF (_contents d)) + 1 ∧
  (∀ n, is_Some (lineAt d (inr n)) ↔ 0 ≤ n < lineCount d) ∧
  (∀ p, lineAt d (inl p) = lineAt d (inr (line p))).
Proof.
  intros d Hms.
  assert (Hl : _lines d = createLines (_contents d)).
  { apply after_effective; [left; apply newDocument_untouched | done]. }
  split; [|split; [|done]].
  - unfold lineCount. rewrite Hl, length_createLines, length_splitLines. lia.
  - intros n. unfold lineAt, lineAtIndex, lineCount.
    destruct (Z.ltb_spec n 0) as [Hneg|Hpos].
    + split; [by intros [? ?] | lia].
    + rewrite lookup_lt_is_Some. lia.
Qed.

Lemma length_trimLeft s :
  Js.length (trimLeft s) = Js.length s - Z.of_nat (leadingWhiteSpace s).
Proof.
  unfold Js.length. induction s as [|c s IH]; simpl; [done|].
  destruct (isWhiteSpace c); simpl String.length; lia.
Qed.

Lemma trimLeft_allWhiteSpace s : allWhiteSpace s = true ↔ trimLeft s = EmptyString.
Proof.
  induction s as [|c s IH]; simpl; [done|].
  destruct (isWhiteSpace c); simpl; [done|]. split; discriminate.
Qed.

Lemma trimRight_empty s : trimRight s = EmptyString ↔ allWhiteSpace s = true.
Proof.
  induction s as [|c s IH]; simpl; [done|].
  destruct (trimRight s) as [|k ks] eqn:Hs.
  - destruct (isWhiteSpace c); simpl; [by rewrite <- IH | split; discriminate].
  - split; [discriminate|]. intros [_ Hall]%andb_true_iff.
    apply IH in Hall. discriminate.
Qed.

Lemma trimLeft_suffix_allWhiteSpace s :
  allWhiteSpace (trimLeft s) = true → allWhiteSpace s = true.
Proof.
  induction s as [|c s IH]; simpl; [done|].
  destruct (isWhiteSpace c) eqn:Hc; simpl; [done|]. by rewrite Hc.
Qed.

Lemma length_zero s : Js.length s = 0 ↔ s = EmptyString.
Proof.
  split; [|by intros ->]. destruct s; [done|]. unfold Js.length. simpl. lia.
Qed.

Lemma leadingWhiteSpace_le s : (leadingWhiteSpace s ≤ String.length s)%nat.
Proof. induction s as [|c s IH]; simpl; [lia|]. destruct (isWhiteSpace c); lia. Qed.

Lemma leadingWhiteSpace_all s :
  leadingWhiteSpace s = String.length s ↔ allWhiteSpace s = true.
Proof.
  induction s as [|c s IH]; simpl; [done|].
  destruct (isWhiteSpace c); simpl; [|split; [lia | done]].
  rewrite <- IH. lia.
Qed.

(** X14. Blank lines and indentation. For every line record,
    [firstNonWhitespaceCharacterIndex] is the number of white space
    characters that the text starts with, negated, so it is never
    positive. [isEmptyOrWhitespace] holds exactly when every character of the text is
    white space, that is when the index is minus the length of the text. *)
Theorem whitespace_of_a_line (l : HistoryLine) :
  firstNonWhitespaceCharacterIndex l = - Z.of_nat (leadingWhiteSpace (text l)) ∧
  - Js.length (text l) ≤ firstNonWhitespaceCharacterIndex l ≤ 0 ∧
  (isEmptyOrWhitespace l = true ↔ allWhiteSpace (text l) = true) ∧
  (isEmptyOrWhitespace l = true ↔
   firstNonWhitespaceCharacterIndex l = - Js.length (text l)).
Proof.
  unfold firstNonWhitespaceCharacterIndex, isEmptyOrWhitespace.
  rewrite length_trimLeft.
  pose proof (leadingWhiteSpace_le (text l)) as Hle.
  assert (Hblank : (Js.length (text l) =? 0) || (Js.length (trim (text l)) =? 0) = true
                   ↔ allWhiteSpace (text l) = true).
  { rewrite orb_true_iff, !Z.eqb_eq, !length_zero. unfold trim. rewrite trimRight_empty.
    split.
    - intros [-> | Hall]; [done | by apply trimLeft_suffix_allWhiteSpace].
    - intros Hall. right. apply trimLeft_allWhiteSpace in Hall. by rewrite Hall. }
  split; [lia|]. split; [unfold Js.length; lia|]. split; [done|].
  rewrite Hblank, <- leadingWhiteSpace_all. unfold Js.length. lia.
Qed.

(** ** The code and the cell *)

(** X1. The text is the appended code, then the edit cell. After any
    sequence of appends and of edits that come from the editor, the text of
    the document is the appended code alone as long as no edit was made,
    and from the first edit on the appended code, a line feed and the text
    of the edit cell; the edit offset is the length of the appended code,
    plus 1 for that line feed. *)
Theorem text_is_code_then_cell (fileName : string) (ms : list Mutation) :
  Forall fromEditor ms →
  let d := after ms (newDocument fileName) in
  _contents d = executedText d +:+
                (if _firstEdit d then EmptyString else Js.newline +:+ editCellText d) ∧
  _editOffset d = Js.length (executedText d) + (if _firstEdit d then 0 else 1) ∧
  (_firstEdit d = true → editCellText d = EmptyString).
Proof.
  intros Hms d. apply placed_text, after_placed; [apply newDocument_placed | done].
Qed.

(** X2. An append does not touch the edit cell. After any sequence of
    appends and of edits that come from the editor, [addLines] does not
    throw. It adds the fragment, after a line feed unless
    the text is empty, at the end of the appended code: the appended code
    grows by it, the text of the edit cell is what it was, and the edit
    offset moves by the length of what was added. The one change record
    returned is an insertion of that text at the end of the appended code,
    and its position converts, in the document as it was, to that offset. *)
Theorem append_keeps_the_edit_cell (fileName : string) (ms : list Mutation)
    (code : string) :
  Forall fromEditor ms →
  let d := after ms (newDocument fileName) in
  let r := addLines code d in
  (∃ pos, r.2 = Ok [ {| change_range := {| range_start := pos; range_end := pos |};
                        change_rangeOffset := Js.length (executedText d);
                        change_rangeLength := 0;
                        change_text := appendedCode d code |} ] ∧
          convertToOffset d pos = Ok (Js.length (executedText d))) ∧
  executedText r.1 = executedText d +:+ appendedCode d code ∧
  editCellText r.1 = editCellText d ∧
  _editOffset r.1 = _editOffset d + Js.length (appendedCode d code).
Proof.
  intros Hms d r.
  assert (Hd : placed d) by (apply after_placed; [apply newDocument_placed | done]).
  destruct (addLines_placed d code Hd) as (_ & Hr & _ & Hex & Hcell & Ho & _). done.
Qed.

(** X3. The first edit opens the edit cell. After any sequence of appends
    and of edits that come from the editor, in a document that was not
    edited yet, [editLines] with a change does not throw: it leaves the
    appended code as it was and puts after it a line feed and the typed
    text, which is the text of the edit cell from then on. The change
    record starts at the end of the former text. *)
Theorem first_edit_opens_the_cell (fileName : string) (ms : list Mutation)
    (change : IModelContentChange) (changes : list IModelContentChange) :
  Forall fromEditor ms →
  let d := after ms (newDocument fileName) in
  _firstEdit d = true →
  let typed := Js.removeCR (edit_text change) in
  let r := editLines (change :: changes) d in
  (∃ range, r.2 = Ok [ {| change_range := range;
                          change_rangeOffset := Js.length (_contents d);
                          change_rangeLength := edit_rangeLength change;
                          change_text := Js.newline +:+ typed |} ]) ∧
  _contents r.1 = _contents d +:+ Js.newline +:+ typed ∧
  executedText r.1 = executedText d ∧
  executedText d = _contents d ∧
  editCellText r.1 = typed.
Proof.
  intros Hms d Hf typed r.
  assert (Hd : placed d) by (apply after_placed; [apply newDocument_placed | done]).
  pose proof (placed_set_version (_version d + 1) d Hd) as Hd'.
  subst r. rewrite editLines_cons, Hf.
  destruct (editLinesFirst_placed _ change Hd' Hf) as (_ & Hr & Hc & Hex & Hcell & _).
  split; [done|]. split; [done|]. split; [done|]. split; [|done].
  destruct Hd as [_ Hshape]. rewrite Hf in Hshape.
  by destruct (texts_before_edit d Hf Hshape).
Qed.

(** X4. A later edit acts on the edit cell alone. After any sequence of
    appends and of edits that come from the editor, in a document that
    was edited before, an edit whose first change is one-based does not
    throw. The line of the edit offset is the first line of the edit cell,
    and the range of the change is read from there: with [f] and [t] the
    offsets of its start and end in the text of the cell taken as a
    document of its own, the new text of the cell is the old one with the
    characters from [f] to [t] replaced by the typed text. The appended
    code and the edit offset stay as they were, and the change record
    gives the range shifted to the lines of the document, the offset
    shifted by the edit offset and the length [t - f]. *)
Theorem later_edit_acts_on_the_cell (fileName : string) (ms : list Mutation)
    (change : IModelContentChange) (changes : list IModelContentChange) :
  Forall fromEditor ms →
  let d := after ms (newDocument fileName) in
  _firstEdit d = false → oneBased change →
  let typed := Js.removeCR (edit_text change) in
  let cell := editCellText d in
  let r := editLines (change :: changes) d in
  ∃ ln f t,
    computePosition d (_editOffset d) = Ok {| line := ln; character := 0 |} ∧
    convertToOffset (standalone cell)
      {| line := startLineNumber (edit_range change) - 1;
         character := startColumn (edit_range change) - 1 |} = Ok f ∧
    convertToOffset (standalone cell)
      {| line := endLineNumber (edit_range change) - 1;
         character := endColumn (edit_range change) - 1 |} = Ok t ∧
    r.2 = Ok [ {| change_range :=
                    {| range_start :=
                         {| line := ln + startLineNumber (edit_range change) - 1;
                            character := startColumn (edit_range change) - 1 |};
                       range_end :=
                         {| line := ln + endLineNumber (edit_range change) - 1;
                            character := endColumn (edit_range change) - 1 |} |};
                  change_rangeOffset := _editOffset d + f;
                  change_rangeLength := t - f;
                  change_text := typed |} ] ∧
    executedText r.1 = executedText d ∧
    editCellText r.1 =
      Js.substr cell 0 (Some f) +:+ typed +:+ Js.substr cell t None ∧
    _editOffset r.1 = _editOffset d.
Proof.
  intros Hms d Hf Hchange typed cell r.
  assert (Hd : placed d) by (apply after_placed; [apply newDocument_placed | done]).
  pose proof (placed_set_version (_version d + 1) d Hd) as Hd'.
  subst r. rewrite editLines_cons, Hf.
  destruct (editLinesAtOffset_placed _ change Hd' Hf Hchange)
    as (ln & f & t & Hbase & Hfrom & Hto & _ & _ & Hr & _ & Hex & Hcell & Ho & _).
  exists ln, f, t. done.
Qed.

(** X7. The cursor of a completion request. After any sequence of appends
    and of edits that come from the editor, in a document that was
    edited before, a one-based position of the editor is translated by
    [convertToDocumentPosition] to the position that many lines below the
    first line of the edit cell, and that position converts to the edit
    offset plus the offset of the editor's position in the text of the
    cell; line 1, column 1 is the edit offset itself. *)
Theorem cursor_is_relative_to_the_cell (fileName : string) (ms : list Mutation)
    (ln ch : Z) :
  Forall fromEditor ms →
  let d := after ms (newDocument fileName) in
  _firstEdit d = false → 1 ≤ ln → 1 ≤ ch →
  ∃ pos x,
    convertToDocumentPosition d ln ch = Ok pos ∧
    character pos = ch - 1 ∧
    convertToOffset (standalone (editCellText d))
      {| line := ln - 1; character := ch - 1 |} = Ok x ∧
    convertToOffset d pos = Ok (_editOffset d + x) ∧
    (ln = 1 → x = ch - 1).
Proof.
  intros Hms d Hf Hln Hch.
  assert (Hd : placed d) by (apply after_placed; [apply newDocument_placed | done]).
  destruct Hd as [Hd Hshape]. rewrite Hf in Hshape.
  destruct Hshape as (pre & cell & Hc & Ho).
  destruct (texts_after_edit d pre cell Hf Hc Ho) as [_ Hcell].
  assert (Hl : _lines d = createLines (_contents d)).
  { destruct Hd as [(_ & _ & _ & Hu) | Hl]; [congruence | done]. }
  pose proof (computePosition_editOffset d pre cell Hl Hc) as Hbase. rewrite <- Ho in Hbase.
  destruct (convertToOffset_in_cell d pre cell (ln - 1) (ch - 1) Hl Hc)
    as (x & Hx0 & Hx1 & _); [lia|].
  unfold convertToDocumentPosition. rewrite Hbase. simpl. unfold newPosition.
  destruct (Z.ltb_spec (ln - 1 + Z.of_nat (length (splitLines pre))) 0); [lia|].
  destruct (Z.ltb_spec (ch - 1) 0); [lia|].
  eexists _, x. split; [reflexivity|]. simpl. split; [done|].
  rewrite Hcell. split; [done|]. split.
  - rewrite Ho, <- Hx1. f_equal. f_equal. lia.
  - intros ->. unfold convertToOffset, standalone in Hx0. simpl in Hx0.
    destruct (createLines cell) as [|l0 ls] eqn:Hlines;
      [by apply createLines_nonempty in Hlines|].
    simpl in Hx0.
    pose proof (createLines_startsAtZero cell l0) as Hz. rewrite Hlines in Hz.
    rewrite (Hz eq_refl) in Hx0.
    destruct (Z.ltb_spec 0 (Z.of_nat (S (length ls)))) as [_|Hbad]; [|lia].
    injection Hx0 as <-. lia.
Qed.

(** ** Cancelling one request among several *)

(** X15. What a cancellation reaches, after any sequence of requests,
    cancellations and settlements. Cancelling an id leaves the source of
    every other id as it was. When a request comes with an id that already
    has an entry, the entry is overwritten with a new source that is
    neither cancelled nor disposed, and the source of the earlier request
    can no longer be reached: no cancellation, for whatever id, changes it
    any more. And an id that reads a member that the object inherits is
    not taken for unknown: its cancellation throws a [TypeError] and
    changes nothing; while the prototype is the one of every object, these
    are the names of the members of every object that have no entry. *)
Theorem cancel_reaches_one_source {Item : Type}
    (doc : option HistoryDocument) (es : list (Event Item)) :
  let p := run es (newProvider doc) in
  (∀ id1 id2 token,
     id1 ≠ id2 → entries (cancellationSources p) !! id2 = Some token →
     sources (handle p (CancelCompletionItemsRequest {| cancel_id := id1 |})).1 !! token =
     sources p !! token) ∧
  (∀ request earlier,
     entries (cancellationSources p) !! request_id request = Some earlier →
     let p' := (handle p (ProvideCompletionItemsRequest request)).1 in
     entries (cancellationSources p') !! request_id request = Some (length (sources p)) ∧
     sources p' !! length (sources p) = Some newSource ∧
     ∀ id, sources (handle p' (CancelCompletionItemsRequest {| cancel_id := id |})).1
             !! earlier =
           sources p !! earlier) ∧
  (∀ id, getProperty (cancellationSources p) id = Inherited →
         handle p (CancelCompletionItemsRequest {| cancel_id := id |})
         = (p, Throw TypeError)) ∧
  (∀ id, prototype (cancellationSources p) = None →
         entries (cancellationSources p) !! id = None → id ∈ objectMembers →
         getProperty (cancellationSources p) id = Inherited).
Proof.
  intros p. destruct (run_invariants es doc) as (_ & (Hlt & Hinj & Hproto & Hkey) & _).
  fold p in Hlt, Hinj, Hproto, Hkey.
  split; [|split; [|split]].
  - intros id1 id2 token Hne Hid2. simpl. unfold handleCompletionItemsCancel. simpl.
    destruct (getProperty (cancellationSources p) id1) as [|token1|] eqn:Hid1; [done| |done].
    simpl. apply list_lookup_alter_ne. intros ->.
    destruct (getProperty_Source _ _ _ Hid1) as [Hentry | [_ Hprototype]].
    + by apply Hne, (Hinj id1 id2 token).
    + by destruct (Hproto _ Hprototype) as [_ Hfree]; apply (Hfree id2).
  - intros request earlier Hearlier p'.
    assert (Hplain : request_id request ≠ "__proto__") by (intros Heq; congruence).
    pose proof (Hlt _ _ Hearlier) as Hlen.
    assert (Htable : cancellationSources p' =
                     {| entries := <[request_id request := length (sources p)]>
                                     (entries (cancellationSources p));
                        prototype := prototype (cancellationSources p) |})
      by (by apply setProperty_plain).
    assert (Hsources : sources p' = sources p ++ [newSource]) by done.
    split; [rewrite Htable; simpl; by rewrite lookup_insert_eq|].
    split; [by rewrite Hsources, lookup_app_r, Nat.sub_diag by lia|].
    intros id. simpl. unfold handleCompletionItemsCancel. cbn [cancel_id].
    destruct (getProperty (cancellationSources p') id) as [|token|] eqn:Hid;
      cbn [fst sources]; rewrite Hsources; [by rewrite lookup_app_l| |by rewrite lookup_app_l].
    rewrite list_lookup_alter_ne; [by rewrite lookup_app_l|].
    intros ->. apply getProperty_Source in Hid. rewrite Htable in Hid. simpl in Hid.
    destruct Hid as [Hentry | [_ Hprototype]].
    + destruct (decide (request_id request = id)) as [Heq|Hne].
      * subst id. rewrite lookup_insert_eq in Hentry. injection Hentry as Heq. lia.
      * rewrite lookup_insert_ne in Hentry by done.
        by apply Hne, (Hinj (request_id request) id earlier).
    + by destruct (Hproto _ Hprototype) as [_ Hfree]; apply (Hfree (request_id request)).
  - intros id Hid. by apply cancel_inherited.
  - intros id Hprototype Hid Hmember. rewrite getProperty_plain by done.
    by rewrite bool_decide_eq_true_2.
Qed.

(** ** When a mutation throws *)

(** From 0 on every offset has a position, also beyond the text. *)
Lemma computePosition_from_0 d o :
  indexed d → 0 ≤ o → ∃ p, computePosition d o = Ok p ∧ 0 ≤ line p.
Proof.
  intros Hd Ho. destruct (indexed_laws d Hd) as (Hzero & _).
  unfold computePosition. set (r := computeLine _ _ _ _).
  destruct (computeLine_stops (length (_lines d)) (_lines d) o 0)
    as [Hr | (Hlt & l & Hl & Hle)]; fold r in Hr || fold r in Hlt, Hl.
  - rewrite Hr. destruct (_lines d) as [|l0 ls] eqn:Hls.
    + simpl. eexists. split; [reflexivity | done].
    + change (lineAtIndex (l0 :: ls) 0) with (Some l0).
      assert (Hoff : offset l0 = 0) by (by apply Hzero).
      destruct (Z.ltb_spec 0 (Z.of_nat (length (l0 :: ls)))); [|simpl in *; lia].
      rewrite Hoff. unfold newPosition. destruct (Z.ltb_spec 0 0); [lia|].
      destruct (Z.ltb_spec (o - 0) 0); [lia|]. eexists. split; [reflexivity | done].
  - destruct (lineAtIndex_Some _ _ _ Hl) as [Hrange _].
    destruct (Z.ltb_spec r (Z.of_nat (length (_lines d)))); [|lia].
    rewrite Hl. unfold newPosition.
    destruct (Z.ltb_spec r 0); [lia|].
    destruct (Z.ltb_spec (o - offset l) 0); [lia|].
    eexists. split; [reflexivity | simpl; lia].
Qed.

Lemma addLines_offsetInRange d code :
  offsetInRange d →
  (∃ changes, (addLines code d).2 = Ok changes) ∧ offsetInRange (addLines code d).1.
Proof.
  intros (Hd & Ho & Hend & Hone). destruct (_firstEdit d) eqn:Hf.
  - assert (Hp : placed d) by (split; [done | rewrite Hf; auto]).
    destruct (addLines_placed d code Hp)
      as ([Hd' Hshape] & (pos & Hr & _) & _ & _ & _ & Ho' & Hf').
    split; [eauto|]. rewrite Hf', Hf in Hshape.
    split; [done|]. rewrite Ho', Hf', Hf.
    pose proof (length_nonneg (appendedCode d code)).
    split; [lia|]. split; [intros _; by rewrite <- Ho' | done].
  - specialize (Hone eq_refl).
    destruct (computePosition_from_0 d (_editOffset d - 1) Hd) as (pos & Hpos & _); [lia|].
    run_method. rewrite Hf. rewrite (computePosition_lines _ d) by done.
    rewrite Hpos. simpl. split; [eauto|].
    split; [by right|]. simpl. rewrite Hf.
    pose proof (length_nonneg (if Js.length (_contents d) =? 0 then Js.removeCR code
                               else Js.newline +:+ Js.removeCR code)).
    split; [lia|]. split; [done | intros _; lia].
Qed.

Lemma editLinesAtOffset_editOffset d change typed :
  _editOffset (editLinesAtOffset change typed d).1 = _editOffset d.
Proof. run_method. repeat (case_match; simpl; auto). Qed.

Lemma editLines_offsetInRange d changes :
  offsetInRange d → offsetInRange (editLines changes d).1.
Proof.
  intros (Hd & Ho & Hend & Hone).
  pose proof (perform_indexed (EditLines changes) d Hd) as Hd'. simpl in Hd'.
  destruct changes as [|change rest]; [done|].
  split; [done|].
  rewrite (editLines_firstEdit change rest d).
  rewrite editLines_cons. destruct (_firstEdit d) eqn:Hf.
  - assert (Hp : placed (set_version (_version d + 1) d)).
    { split; [destruct Hd as [Hd|Hd]; by (left + right)|]. simpl. rewrite Hf. auto. }
    destruct (editLinesFirst_placed _ change Hp Hf) as (_ & _ & _ & _ & _ & -> & _).
    simpl. split; [lia|]. split; [done | intros _; lia].
  - rewrite editLinesAtOffset_editOffset. simpl.
    split; [done|]. split; [done | auto].
Qed.

(** What [editLines] does when it throws. *)
Lemma editLines_throws d changes e :
  offsetInRange d → (editLines changes d).2 = Throw e →
  e = IllegalArgument ∧
  (editLines changes d).1 = set_version (_version d + 1) d ∧
  _firstEdit d = false ∧
  ∃ change rest, changes = change :: rest ∧ ¬ oneBased change.
Proof.
  intros (Hd & Ho & Hend & Hone). destruct changes as [|change rest]; [done|].
  rewrite editLines_cons. destruct (_firstEdit d) eqn:Hf.
  - assert (Hp : placed (set_version (_version d + 1) d)).
    { split; [destruct Hd as [Hd|Hd]; by (left + right)|]. simpl. rewrite Hf. auto. }
    destruct (editLinesFirst_placed _ change Hp Hf) as (_ & (range & ->) & _). done.
  - assert (Hd' : indexed (set_version (_version d + 1) d))
      by (destruct Hd as [Hd|Hd]; by (left + right)).
    destruct (computePosition_from_0 (set_version (_version d + 1) d) (_editOffset d) Hd' Ho)
      as (editPos & Hpos & Hline).
    run_method. rewrite Hpos. simpl. unfold newPosition.
    destruct (Z.ltb_spec (line editPos + startLineNumber (edit_range change) - 1) 0).
    { simpl. intros [= <-]. repeat split; try done.
      exists change, rest. split; [done|]. intros (? & ? & ? & ?). lia. }
    destruct (Z.ltb_spec (startColumn (edit_range change) - 1) 0).
    { simpl. intros [= <-]. repeat split; try done.
      exists change, rest. split; [done|]. intros (? & ? & ? & ?). lia. }
    simpl.
    destruct (Z.ltb_spec (line editPos + endLineNumber (edit_range change) - 1) 0).
    { simpl. intros [= <-]. repeat split; try done.
      exists change, rest. split; [done|]. intros (? & ? & ? & ?). lia. }
    destruct (Z.ltb_spec (endColumn (edit_range change) - 1) 0).
    { simpl. intros [= <-]. repeat split; try done.
      exists change, rest. split; [done|]. intros (? & ? & ? & ?). lia. }
    simpl.
    set (from := {| line := _; character := startColumn _ - 1 |}).
    set (to := {| line := _; character := endColumn _ - 1 |}).
    destruct (convertToOffset_total (set_version (_version d + 1) d) from) as [fo Hfo];
      [simpl; lia|].
    destruct (convertToOffset_total (set_version (_version d + 1) d) to) as [too Hto];
      [simpl; lia|].
    rewrite Hfo. simpl. rewrite Hto. simpl. done.
Qed.

Lemma perform_offsetInRange m d : offsetInRange d → offsetInRange (perform m d).1.
Proof.
  intros Hd. destruct m as [code | changes];
    [by apply addLines_offsetInRange | by apply editLines_offsetInRange].
Qed.

Lemma after_offsetInRange fileName ms : offsetInRange (after ms (newDocument fileName)).
Proof.
  assert (H : ∀ d, offsetInRange d → offsetInRange (after ms d)).
  { induction ms as [|m ms IH]; intros d Hd; [done|].
    rewrite after_cons. by apply IH, perform_offsetInRange. }
  apply H. split; [left; apply newDocument_untouched|]. simpl. done.
Qed.

(** X6. When a mutation throws. After any sequence of appends and edits on
    a new document, [addLines] does not throw, and neither does an edit
    with an empty batch nor the first edit with a change. If a mutation
    throws, it is an edit made after the first one whose first change is
    not one-based; what is thrown is the rejection of a negative line or
    character by the constructor of a position; and the document is left
    with its version incremented and nothing else changed. *)
Theorem only_a_later_edit_throws (fileName : string) (ms : list Mutation)
    (m : Mutation) (e : Error) :
  let d := after ms (newDocument fileName) in
  (perform m d).2 = Throw e →
  e = IllegalArgument ∧
  (perform m d).1 = set_version (_version d + 1) d ∧
  _firstEdit d = false ∧
  ∃ change rest, m = EditLines (change :: rest) ∧ ¬ oneBased change.
Proof.
  intros d Hthrow. pose proof (after_offsetInRange fileName ms) as Hd. fold d in Hd.
  destruct m as [code | changes].
  - destruct (addLines_offsetInRange d code Hd) as [[changes Hok] _].
    simpl in Hthrow. congruence.
  - destruct (editLines_throws d changes e Hd Hthrow)
      as (He & Hstate & Hf & change & rest & -> & Hchange).
    split; [done|]. split; [done|]. split; [done|]. eauto.
Qed.

(** ** The cursor before the first edit *)

Lemma last_line_ends_the_text t (k : nat) l :
  createLines t !! k = Some l → S k = length (createLines t) →
  offset l + Js.length (text l) = Js.length t.
Proof.
  intros Hl Hk. rewrite createLines_linesFrom in Hl.
  destruct (linesFrom_text _ _ _ _ _ Hl) as (a & b & Hcat & Hoff & Hb).
  rewrite concat_splitLines in Hcat. rewrite length_createLines in Hk.
  rewrite bool_decide_eq_false_2 in Hb by lia. subst b.
  rewrite Hcat, append_empty_r, length_append. lia.
Qed.

(** X8. The cursor before the first edit. As long as code was appended and
    no edit was made, the edit offset is the end of the text, on the last
    line; [convertToDocumentPosition] then counts the lines of the editor
    from that last line and its columns from the start of the line, so that
    line 1, column [ch] is character [ch - 1] of the last line of the
    appended code. *)
Theorem cursor_before_the_first_edit (fileName : string) (ms : list Mutation)
    (ch : Z) :
  let d := after ms (newDocument fileName) in
  existsb isEffective ms = true → _firstEdit d = true → 1 ≤ ch →
  ∃ last,
    _lines d !! Z.to_nat (lineCount d - 1) = Some last ∧
    computePosition d (_editOffset d) =
      Ok {| line := lineCount d - 1; character := Js.length (text last) |} ∧
    convertToDocumentPosition d 1 ch =
      Ok {| line := lineCount d - 1; character := ch - 1 |} ∧
    convertToOffset d {| line := lineCount d - 1; character := ch - 1 |} =
      Ok (offset last + ch - 1).
Proof.
  intros d Hms Hf Hch.
  assert (Hl : _lines d = createLines (_contents d)).
  { apply after_effective; [left; apply newDocument_untouched | done]. }
  assert (Hd : indexed d) by (by right).
  destruct (after_offsetInRange fileName ms) as (_ & _ & Hend & _). fold d in Hend.
  specialize (Hend Hf).
  unfold lineCount.
  destruct (_lines d) as [|l0 ls] eqn:Hlines using rev_ind;
    [symmetry in Hl; by apply createLines_nonempty in Hl|].
  clear IHls. rewrite length_app. simpl length.
  replace (Z.to_nat (Z.of_nat (length ls + 1) - 1)) with (length ls) by lia.
  replace (Z.of_nat (length ls + 1) - 1) with (Z.of_nat (length ls)) by lia.
  assert (Hlast : _lines d !! length ls = Some l0).
  { rewrite Hlines, lookup_app_r, Nat.sub_diag by lia. done. }
  exists l0. rewrite <- Hlines. split; [done|].
  assert (Hsum : offset l0 + Js.length (text l0) = Js.length (_contents d)).
  { apply (last_line_ends_the_text _ (length ls)); rewrite <- Hl.
    - by rewrite <- Hlines.
    - rewrite length_app. simpl. lia. }
  pose proof (length_nonneg (text l0)).
  destruct (convertToOffset_computePosition d _ _ (Js.length (text l0)) Hd Hlast)
    as [_ Hpos]; [lia|]. simpl in Hpos. rewrite Hsum, <- Hend in Hpos.
  split; [done|].
  unfold convertToDocumentPosition. rewrite Hpos. simpl. unfold newPosition.
  destruct (Z.ltb_spec (1 - 1 + Z.of_nat (length ls)) 0); [lia|].
  destruct (Z.ltb_spec (ch - 1) 0); [lia|].
  split; [do 2 f_equal; lia|].
  unfold convertToOffset. simpl. rewrite Hlines at 1. rewrite length_app. simpl length.
  destruct (Z.ltb_spec (Z.of_nat (length ls)) (Z.of_nat (length ls + 1))); [|lia].
  rewrite lineAtIndex_nat, Hlast. f_equal. lia.
Qed.

(** ** Where completions come from *)

(** X16. Completions come from the server only. Whatever state the provider
    is in: if the response to a request holds anything but the empty
    incomplete list, then the language client was there, the provider had
    its document, and the server answered the request with a result of
    which the list is the conversion. *)
Theorem completions_come_from_the_server {Item : Type}
    (p : Provider Item) (request : IProvideCompletionItemsRequest)
    (env : Settlement Item) :
  let response :=
    responseFor request (provideCompletionItems p (request_position request) env) in
  response_list response ≠ emptyCompletionList →
  languageClient env = Ok true ∧
  is_Some (document p) ∧
  ∃ result, reply env = Ok result ∧ result ≠ ResultNull ∧
            convertToMonacoCompletionList result = Ok (response_list response).
Proof.
  intros response Hlist. subst response. revert Hlist.
  unfold provideCompletionItems.
  destruct (languageClient env) as [[|]|]; simpl; try done.
  destruct (document p) as [doc|]; simpl; [|done].
  destruct (convertToDocumentPosition _ _ _); simpl; [|done].
  destruct (reply env) as [result|]; simpl; [|done].
  destruct (convertToMonacoCompletionList result) as [list|] eqn:Hconv; simpl; [|done].
  intros Hlist. split; [done|]. split; [eauto|]. exists result.
  split; [done|]. split; [|done]. intros ->. simpl in Hconv. congruence.
Qed.

(** ** Concrete runs of the further properties *)

Lemma text_is_code_then_cell_witness :
  let ms := [AddLines "a"; EditLines [typing 1 1 "xy"]] in
  let d := after ms (newDocument "history.py") in
  Forall fromEditor ms ∧ _editOffset d = Js.length (executedText d) + 1.
Proof.
  assert (H : Forall fromEditor [AddLines "a"; EditLines [typing 1 1 "xy"]])
    by from_editor.
  split; [exact H|].
  exact (proj1 (proj2 (text_is_code_then_cell "history.py" _ H))).
Defined.

Lemma append_keeps_the_edit_cell_witness :
  let ms := [AddLines "a"; EditLines [typing 1 1 "xy"]] in
  let d := after ms (newDocument "history.py") in
  Forall fromEditor ms ∧ editCellText (addLines "b" d).1 = editCellText d.
Proof.
  assert (H : Forall fromEditor [AddLines "a"; EditLines [typing 1 1 "xy"]])
    by from_editor.
  split; [exact H|].
  exact (proj1 (proj2 (proj2 (append_keeps_the_edit_cell "history.py" _ "b" H)))).
Defined.

Lemma first_edit_opens_the_cell_witness :
  let ms := [AddLines "a"] in
  let d := after ms (newDocument "history.py") in
  Forall fromEditor ms ∧ _firstEdit d = true ∧
  editCellText (editLines [typing 1 1 "xy"] d).1 = "xy".
Proof.
  assert (H : Forall fromEditor [AddLines "a"]) by from_editor.
  split; [exact H|]. split; [reflexivity|].
  exact (proj2 (proj2 (proj2 (proj2
           (first_edit_opens_the_cell "history.py" _ (typing 1 1 "xy") [] H eq_refl))))).
Defined.

Lemma later_edit_acts_on_the_cell_witness :
  let ms := [AddLines "a"; EditLines [typing 1 1 "xy"]] in
  let d := after ms (newDocument "history.py") in
  Forall fromEditor ms ∧ _firstEdit d = false ∧ oneBased (typing 1 2 "z") ∧
  ∃ ln f t,
    computePosition d (_editOffset d) = Ok {| line := ln; character := 0 |} ∧
    convertToOffset (standalone (editCellText d)) {| line := 0; character := 1 |} = Ok f ∧
    convertToOffset (standalone (editCellText d)) {| line := 0; character := 1 |} = Ok t ∧
    (editLines [typing 1 2 "z"] d).2 =
      Ok [ {| change_range :=
                {| range_start := {| line := ln + 1 - 1; character := 1 |};
                   range_end := {| line := ln + 1 - 1; character := 1 |} |};
              change_rangeOffset := _editOffset d + f;
              change_rangeLength := t - f;
              change_text := "z" |} ] ∧
    executedText (editLines [typing 1 2 "z"] d).1 = executedText d ∧
    editCellText (editLines [typing 1 2 "z"] d).1 =
      Js.substr (editCellText d) 0 (Some f) +:+ "z" +:+ Js.substr (editCellText d) t None ∧
    _editOffset (editLines [typing 1 2 "z"] d).1 = _editOffset d.
Proof.
  assert (H : Forall fromEditor [AddLines "a"; EditLines [typing 1 1 "xy"]])
    by from_editor.
  assert (Hc : oneBased (typing 1 2 "z")) by (unfold oneBased; simpl; lia).
  split; [exact H|]. split; [reflexivity|]. split; [exact Hc|].
  exact (later_edit_acts_on_the_cell "history.py" _ (typing 1 2 "z") [] H eq_refl Hc).
Defined.

Lemma cursor_is_relative_to_the_cell_witness :
  let ms := [AddLines "a"; EditLines [typing 1 1 "xy"]] in
  let d := after ms (newDocument "history.py") in
  Forall fromEditor ms ∧ _firstEdit d = false ∧
  ∃ pos x,
    convertToDocumentPosition d 1 2 = Ok pos ∧
    character pos = 2 - 1 ∧
    convertToOffset (standalone (editCellText d))
      {| line := 1 - 1; character := 2 - 1 |} = Ok x ∧
    convertToOffset d pos = Ok (_editOffset d + x) ∧
    (1 = 1 → x = 2 - 1).
Proof.
  assert (H : Forall fromEditor [AddLines "a"; EditLines [typing 1 1 "xy"]])
    by from_editor.
  split; [exact H|]. split; [reflexivity|].
  apply (cursor_is_relative_to_the_cell "history.py" _ 1 2 H eq_refl); lia.
Defined.

Lemma only_a_later_edit_throws_witness :
  let d := after [EditLines [typing 1 1 "x"]] (newDocument "history.py") in
  let m := EditLines [typing 1 0 "y"] in
  (perform m d).2 = Throw IllegalArgument ∧
  (perform m d).1 = set_version (_version d + 1) d.
Proof.
  split; [reflexivity|].
  exact (proj1 (proj2 (only_a_later_edit_throws "history.py"
           [EditLines [typing 1 1 "x"]] (EditLines [typing 1 0 "y"])
           IllegalArgument eq_refl))).
Defined.

Lemma mirror_follows_document_witness :
  let ms := [RemoteAddCode {| remote_code := "a"; remote_file := "history.py" |};
             EditCell {| cell_changes := [typing 1 1 "xy"] |}] in
  let start := {| sync_document := Some (newDocument "history.py");
                  sentOpenDocument := false |} in
  let d := after (map mutationOf ms) (newDocument "history.py") in
  Forall (fun m => sizedChange (mutationOf m)) ms ∧
  ∃ m, fold_left receive (deliverAll "python" fileUriString true ms start).2 None = Some m ∧
       mirror_text m = _contents d ∧ mirror_version m ≤ version d.
Proof.
  assert (H : Forall (fun m => sizedChange (mutationOf m))
                [RemoteAddCode {| remote_code := "a"; remote_file := "history.py" |};
                 EditCell {| cell_changes := [typing 1 1 "xy"] |}])
    by (repeat constructor; simpl; lia).
  split; [exact H|].
  refine (proj2 (proj2 (mirror_follows_document "python" fileUriString "history.py" _ H _))).
  discriminate.
Defined.

Lemma one_open_then_changes_witness :
  let m := RemoteAddCode {| remote_code := "a"; remote_file := "history.py" |} in
  let ms := [EditCell {| cell_changes := [typing 1 1 "xy"] |}] in
  let start := {| sync_document := Some (newDocument "history.py");
                  sentOpenDocument := false |} in
  Forall (fun m => sizedChange (mutationOf m)) (m :: ms) ∧
  ∃ later,
    (deliverAll "python" fileUriString true (m :: ms) start).2 =
      DidOpenTextDocument {| item_uri := "file:///history.py";
                             item_languageId := "python";
                             item_version := 1; item_text := "a" |} :: later ∧
    Forall (fun n => isChange n = true) later ∧ growingFrom 1 later.
Proof.
  assert (H : Forall (fun m => sizedChange (mutationOf m))
                [RemoteAddCode {| remote_code := "a"; remote_file := "history.py" |};
                 EditCell {| cell_changes := [typing 1 1 "xy"] |}])
    by (repeat constructor; simpl; lia).
  split; [exact H|].
  exact (one_open_then_changes "python" fileUriString "history.py" _ _ H).
Defined.


(** A carriage return on the last line before the offset: no match, and
    the character is 0 where [computePosition] finds 3. *)
Example positionAt_after_a_carriage_return :
  let d := standalone (String "a" (String Js.CR "b")) in
  indexed d ∧ validOffset d 3 ∧
  computePosition d 3 = Ok {| line := 0; character := 3 |} ∧
  positionAt d 3 = Ok {| line := 0; character := 0 |}.
Proof. split; [by right|]. by vm_compute. Qed.

Lemma getText_of_a_line_witness :
  let d := after [AddLines "a"; AddLines "b"] (newDocument "history.py") in
  let l := {| text := "b"; lineNumber := 1; offset := 2 |} in
  _lines d !! 1%nat = Some l ∧ getText d (Some (range l)) = Ok "b".
Proof.
  split; [reflexivity|].
  exact (proj1 (getText_of_a_line "history.py" [AddLines "a"; AddLines "b"] 1
                  {| text := "b"; lineNumber := 1; offset := 2 |} eq_refl)).
Defined.

Lemma lineCount_counts_line_feeds_witness :
  let ms := [AddLines "a"; AddLines "b"] in
  let d := after ms (newDocument "history.py") in
  existsb isEffective ms = true ∧
  lineCount d = Z.of_nat (Js.countLF (_contents d)) + 1.
Proof.
  split; [reflexivity|].
  exact (proj1 (lineCount_counts_line_feeds "history.py"
                  [AddLines "a"; AddLines "b"] eq_refl)).
Defined.

Lemma whitespace_of_a_line_witness :
  let l := {| text := "  "; lineNumber := 0; offset := 0 |} in
  allWhiteSpace (text l) = true ∧ isEmptyOrWhitespace l = true.
Proof.
  split; [reflexivity|].
  exact (proj2 (proj1 (proj2 (proj2 (whitespace_of_a_line
           {| text := "  "; lineNumber := 0; offset := 0 |})))) eq_refl).
Defined.

Lemma cancel_reaches_one_source_witness :
  let p : Provider string :=
    run [ProvideCompletionItemsRequest (requestAtStart "1");
         ProvideCompletionItemsRequest (requestAtStart "2")] (newProvider None) in
  "1" ≠ "2" ∧ entries (cancellationSources p) !! "2" = Some 1%nat ∧
  sources (handle p (CancelCompletionItemsRequest {| cancel_id := "1" |})).1 !! 1%nat =
  sources p !! 1%nat.
Proof.
  assert (Hne : "1" ≠ "2") by discriminate.
  split; [exact Hne|]. split; [reflexivity|].
  exact (proj1 (cancel_reaches_one_source (Item:=string) None
           [ProvideCompletionItemsRequest (requestAtStart "1");
            ProvideCompletionItemsRequest (requestAtStart "2")])
           "1" "2" 1%nat Hne eq_refl).
Defined.

Lemma cursor_before_the_first_edit_witness :
  let ms := [AddLines "a"] in
  let d := after ms (newDocument "history.py") in
  existsb isEffective ms = true ∧ _firstEdit d = true ∧
  ∃ last,
    _lines d !! Z.to_nat (lineCount d - 1) = Some last ∧
    computePosition d (_editOffset d) =
      Ok {| line := lineCount d - 1; character := Js.length (text last) |} ∧
    convertToDocumentPosition d 1 1 =
      Ok {| line := lineCount d - 1; character := 1 - 1 |} ∧
    convertToOffset d {| line := lineCount d - 1; character := 1 - 1 |} =
      Ok (offset last + 1 - 1).
Proof.
  split; [reflexivity|]. split; [reflexivity|].
  apply (cursor_before_the_first_edit "history.py" [AddLines "a"] 1 eq_refl eq_refl).
  lia.
Defined.

Lemma completions_come_from_the_server_witness :
  let p : Provider string :=
    newProvider (Some (after [AddLines "a"] (newDocument "history.py"))) in
  let env := {| languageClient := Ok true; reply := Ok (ResultArray ["A"]) |} in
  let response :=
    responseFor (requestAtStart "1")
      (provideCompletionItems p (request_position (requestAtStart "1")) env) in
  response_list response ≠ emptyCompletionList ∧ languageClient env = Ok true.
Proof.
  assert (H : response_list
                (responseFor (requestAtStart "1")
                   (provideCompletionItems
                      (newProvider (Item:=string)
                         (Some (after [AddLines "a"] (newDocument "history.py"))))
                      (request_position (requestAtStart "1"))
                      {| languageClient := Ok true; reply := Ok (ResultArray ["A"]) |}))
              ≠ emptyCompletionList) by (vm_compute; discriminate).
  split; [exact H|].
  exact (proj1 (completions_come_from_the_server _ _ _ H)).
Defined.

(** ** The range of a change record *)

Lemma lineCount_indexed d :
  indexed d →
  lineCount d = if decide (_lines d = []) then 0
                else Z.of_nat (Js.countLF (_contents d)) + 1.
Proof.
  intros [(Hl & _) | Hl]; unfold lineCount.
  - rewrite Hl. done.
  - destruct (decide _) as [Hnil|_].
    + rewrite Hl in Hnil. by apply createLines_nonempty in Hnil.
    + rewrite Hl, length_createLines, length_splitLines. lia.
Qed.

Lemma editLinesAtOffset_spans d change typed d' c :
  editLinesAtOffset change typed d = (d', Ok [c]) → spans d c (_contents d').
Proof.
  run_method.
  destruct (computePosition _ _) as [editPos|]; simpl; [|done].
  destruct (newPosition _ _) as [from|]; simpl; [|done].
  destruct (newPosition _ _) as [to|]; simpl; [|done].
  destruct (convertToOffset d from) as [fromOffset|] eqn:Hfrom; simpl; [|done].
  destruct (convertToOffset d to) as [toOffset|] eqn:Hto; simpl; [|done].
  intros [= <- <-]. exists fromOffset, toOffset.
  rewrite createSerializableRange_eta. simpl. done.
Qed.

Lemma addLines_spans d code :
  placed d →
  ∃ c, (addLines code d).2 = Ok [c] ∧ spans d c (_contents (addLines code d).1).
Proof.
  intros Hd. destruct (addLines_placed d code Hd) as (_ & (pos & Hr & Hpos) & Hc & _).
  destruct (placed_text d Hd) as (Htext & _).
  eexists. split; [exact Hr|]. exists (Js.length (executedText d)), (Js.length (executedText d)).
  simpl. split; [done|]. split; [done|]. split; [done|].
  rewrite Hc. unfold splice.
  remember (executedText d) as ex. remember (appendedCode d code) as added.
  remember (if _firstEdit d then EmptyString else Js.newline +:+ editCellText d) as rest.
  rewrite Htext. by rewrite substr_take_prefix, substr_drop_prefix.
Qed.

Lemma editLinesFirst_spans d change :
  placed d → _firstEdit d = true →
  let r := editLinesFirst change (Js.removeCR (edit_text change)) d in
  ∃ c, r.2 = Ok [c] ∧ spans d c (_contents r.1).
Proof.
  intros Hd Hf r. subst r. pose proof Hd as [Hi Hshape]. rewrite Hf in Hshape.
  set (typed := Js.removeCR (edit_text change)).
  set (c2 := _contents d +:+ Js.newline +:+ typed).
  pose proof (length_nonneg (_contents d)) as Hc0. pose proof (length_nonneg typed) as Ht0.
  assert (Hlen2 : Js.length c2 = Js.length (_contents d) + 1 + Js.length typed)
    by (unfold c2; rewrite !length_append, length_newline; lia).
  run_method. rewrite Hshape. fold typed. fold c2.
  set (d2 := set_lines _ _).
  assert (Hl2 : _lines d2 = createLines (_contents d2)) by done.
  assert (Hc2 : _contents d2 = c2) by done.
  (* the start of the range: the end of the former text *)
  assert (Hstart : ∃ p, computePosition d2 (Js.length (_contents d)) = Ok p ∧
                        convertToOffset d p = Ok (Js.length (_contents d))).
  { destruct (computePosition_by_text d2 (Js.length (_contents d)) Hl2)
      as [[Hlf Hpos] | (a & b & Hab & Hb & Hpos)].
    - unfold validOffset. rewrite Hc2. lia.
    - eexists. split; [exact Hpos|]. unfold convertToOffset. simpl.
      destruct Hi as [(Hl & Hc & _) | Hl].
      + rewrite Hl. simpl. done.
      + rewrite Hc2 in Hlf. unfold c2 in Hlf. rewrite substr_take_prefix in Hlf.
        destruct (createLines_first_line (_contents d) EmptyString Hlf)
          as (l & Hline & Hoff & _).
        rewrite append_empty_r, <- Hl in Hline.
        destruct (Z.ltb_spec 0 (Z.of_nat (length (_lines d)))) as [_|Hbad].
        * change 0 with (Z.of_nat 0). rewrite lineAtIndex_nat, Hline. f_equal. lia.
        * apply lookup_lt_Some in Hline. lia.
    - rewrite Hc2 in Hab, Hpos. unfold c2 in Hab, Hpos.
      rewrite substr_take_prefix in Hab, Hpos.
      eexists. split; [exact Hpos|].
      assert (Hl : _lines d = createLines (_contents d)).
      { destruct Hi as [(_ & Hc & _) | Hl]; [|done]. rewrite Hc in Hab.
        destruct a; discriminate. }
      unfold convertToOffset. simpl.
      assert (Hcount : Js.countLF (_contents d) = length (splitLines a)).
      { rewrite Hab, !countLF_app, length_splitLines. simpl.
        apply countLF_hasLF in Hb. rewrite Hb. lia. }
      rewrite Hcount.
      pose proof (lookup_cell_line a b 0) as Hcell.
      rewrite <- Hab, <- Hl, Nat.add_0_r in Hcell.
      destruct (createLines b !! 0%nat) as [l0|] eqn:Hl0.
      + simpl in Hcell. pose proof (lookup_lt_Some _ _ _ Hcell).
        destruct (Z.ltb_spec (Z.of_nat (length (splitLines a)))
                    (Z.of_nat (length (_lines d)))); [|lia].
        rewrite lineAtIndex_nat, Hcell. simpl.
        rewrite (createLines_startsAtZero b l0 Hl0).
        f_equal. apply (f_equal Js.length) in Hab.
        rewrite !length_append, length_newline in Hab. lia.
      + apply lookup_ge_None in Hl0. pose proof (createLines_nonempty b).
        destruct (createLines b); [done | simpl in *; lia]. }
  (* its end: beyond the lines of the former text *)
  assert (Hend : ∃ p, computePosition d2
                        (Js.length (_contents d) + Js.length (Js.newline +:+ typed)) = Ok p ∧
                      convertToOffset d p = Ok (Js.length (_contents d))).
  { assert (Hall : Js.length (_contents d) + Js.length (Js.newline +:+ typed) = Js.length c2)
      by (rewrite Hlen2, length_append, length_newline; lia).
    rewrite Hall.
    destruct (computePosition_by_text d2 (Js.length c2) Hl2)
      as [[Hlf Hpos] | (a & b & Hab & Hb & Hpos)].
    - unfold validOffset. rewrite Hc2. lia.
    - rewrite Hc2, substr_take_all in Hlf by lia. unfold c2 in Hlf.
      rewrite !hasLF_app in Hlf. simpl in Hlf. by rewrite orb_true_r in Hlf.
    - rewrite Hc2, substr_take_all in Hpos by lia.
      eexists. split; [exact Hpos|]. apply convertToOffset_beyond. cbn [line].
      rewrite (lineCount_indexed d Hi). unfold c2. rewrite !countLF_app.
      change (Js.countLF Js.newline) with 1%nat.
      destruct (decide _); lia. }
  destruct Hstart as (p0 & -> & Hp0). destruct Hend as (p1 & -> & Hp1). simpl.
  eexists. split; [reflexivity|]. exists (Js.length (_contents d)), (Js.length (_contents d)).
  destruct p0, p1; simpl in *.
  split; [done|]. split; [done|]. split; [done|].
  unfold splice. by rewrite substr_take_all, substr_drop_all, append_empty_r by lia.
Qed.

(** X5. The range of a change record. After any sequence of appends and
    of edits that come from the editor, a further such mutation that does
    not throw returns, unless it is an edit with an empty batch, one change
    record whose range tells what was done to the document as it was: its
    start converts to the offset of the record, and the new text is the
    former text with what lies between its start and its end replaced by
    the text of the record. For the first edit the end of the range is past
    the last line of the former text and converts to its end. *)
Theorem range_spans_the_replaced_text (fileName : string) (ms : list Mutation)
    (m : Mutation) (changes : list TextDocumentContentChangeEvent) :
  Forall fromEditor ms →
  let d := after ms (newDocument fileName) in
  (perform m d).2 = Ok changes →
  match changes with
  | [] => m = EditLines [] ∧ _contents (perform m d).1 = _contents d
  | c :: others => others = [] ∧ spans d c (_contents (perform m d).1)
  end.
Proof.
  intros Hms d Hr.
  assert (Hd : placed d) by (apply after_placed; [apply newDocument_placed | done]).
  destruct m as [code | [|change rest]].
  - destruct (addLines_spans d code Hd) as (c & Hc & Hspans).
    simpl in Hr. rewrite Hc in Hr. injection Hr as <-. done.
  - simpl in Hr. injection Hr as <-. done.
  - unfold perform in *. rewrite editLines_cons in *.
    pose proof (placed_set_version (_version d + 1) d Hd) as Hd'.
    destruct (_firstEdit d) eqn:Hf.
    + destruct (editLinesFirst_spans _ change Hd' Hf) as (c & Hc & Hspans).
      rewrite Hc in Hr. injection Hr as <-. done.
    + destruct (editLinesAtOffset change _ _) as [d' o] eqn:Hrun. simpl in Hr. subst o.
      assert (∃ c, changes = [c]) as [c ->].
      { revert Hrun. run_method. repeat (case_match; simpl; try done).
        intros [= _ <-]. eauto. }
      split; [done|]. by apply (editLinesAtOffset_spans _ _ _ _ _ Hrun).
Qed.

Lemma range_spans_the_replaced_text_witness :
  let ms := [AddLines "a"] in
  let d := after ms (newDocument "history.py") in
  let m := EditLines [typing 1 1 "xy"] in
  Forall fromEditor ms ∧
  ∃ c, (perform m d).2 = Ok [c] ∧ spans d c (_contents (perform m d).1).
Proof.
  assert (H : Forall fromEditor [AddLines "a"]) by from_editor.
  split; [exact H|].
  eexists. split; [reflexivity|].
  exact (proj2 (range_spans_the_replaced_text "history.py" [AddLines "a"]
                  (EditLines [typing 1 1 "xy"]) _ H eq_refl)).
Defined.

